(** * CLI EVM wallet: argument parsing, key/address derivation,
      transaction encoding and signing.

    Shallow embedding of [parseArgs.ts], [utils/cryptography.ts] and
    [wallet.ts].

    Conventions of the embedding.
    - A JavaScript string is a [string]; its characters are the code
      units below 256.
    - A [Uint8Array] is a [list Z] whose elements lie in [0, 256); a
      store into a typed array goes through [ToUint8].
    - A [bigint] is a [Z].  A [number] is a binary64 [spec_float], and
      the arithmetic on numbers rounds as binary64 does.  Where a
      function is handed a [number] that is an integer (nonce, chainId,
      the recovery id), the argument is given as that integer, a [Z].
    - A function that can throw returns a [result]. *)

From Stdlib Require Import ZArith String Ascii List Bool Lia SpecFloat DecimalString.
From Stdlib Require Import QArith Qpower Qround Lqa.
From stdpp Require Import gmap strings list.
Import ListNotations.

(** ** Results of functions that may throw *)

Inductive result (A : Type) : Type :=
| Ok (a : A)
| Throw (msg : string).
Arguments Ok {A} a.
Arguments Throw {A} msg.

Definition bind {A B : Type} (r : result A) (k : A -> result B) : result B :=
  match r with
  | Ok a => k a
  | Throw m => Throw m
  end.

Notation "x <-! r ; k" := (bind r (fun x => k))
  (at level 100, r at next level, right associativity).

(** ** JavaScript built-ins used by the program *)

Module JS.

Local Open Scope Z_scope.

Abbreviation bytes := (list Z).

(** [String.prototype.startsWith]. *)
Definition startsWith (p s : string) : bool := String.prefix p s.

(** [s.slice(n)] for a non-negative [n]. *)
Fixpoint slice_from (n : nat) (s : string) : string :=
  match n, s with
  | O, _ => s
  | S n', EmptyString => EmptyString
  | S n', String _ s' => slice_from n' s'
  end.

(** [s.substr(start, len)]: at most [len] characters from [start]. *)
Definition substr (s : string) (start len : nat) : string :=
  String.substring start len s.

(** White space of [StrWhiteSpaceChar] among the code units below 256:
    TAB, LF, VT, FF, CR, SP and NBSP. *)
Definition isWhiteSpace (c : ascii) : bool :=
  let n := Z.of_nat (nat_of_ascii c) in
  ((9 <=? n) && (n <=? 13)) || (n =? 32) || (n =? 160).

Fixpoint trimStart (s : string) : string :=
  match s with
  | String c s' => if isWhiteSpace c then trimStart s' else s
  | EmptyString => EmptyString
  end.

Fixpoint string_rev_acc (s acc : string) : string :=
  match s with
  | EmptyString => acc
  | String c s' => string_rev_acc s' (String c acc)
  end.

Definition string_rev (s : string) : string := string_rev_acc s EmptyString.

Definition trimEnd (s : string) : string :=
  string_rev (trimStart (string_rev s)).

(** [String.prototype.trim]. *)
Definition trim (s : string) : string := trimEnd (trimStart s).

(** Value of a digit in a radix up to 36, as [parseInt] and the numeric
    literals read it. *)
Definition digitVal (c : ascii) : option Z :=
  let n := Z.of_nat (nat_of_ascii c) in
  if (48 <=? n) && (n <=? 57) then Some (n - 48)
  else if (97 <=? n) && (n <=? 122) then Some (n - 87)
  else if (65 <=? n) && (n <=? 90) then Some (n - 55)
  else None.

Definition digitIn (radix : Z) (c : ascii) : option Z :=
  match digitVal c with
  | Some d => if d <? radix then Some d else None
  | None => None
  end.

(** The character class [[0-9a-fA-F]]. *)
Definition isHexDigit (c : ascii) : bool :=
  match digitIn 16 c with Some _ => true | None => false end.

(** Longest prefix of digits of the radix, as a list of digit values,
    and what follows it. *)
Fixpoint spanDigits (radix : Z) (s : string) : list Z * string :=
  match s with
  | String c s' =>
      match digitIn radix c with
      | Some d => let '(ds, r) := spanDigits radix s' in (d :: ds, r)
      | None => ([], s)
      end
  | EmptyString => ([], EmptyString)
  end.

(** Value of a list of digits, most significant first. *)
Definition digitsValue (radix : Z) (ds : list Z) : Z :=
  fold_left (fun acc d => acc * radix + d) ds 0.

(** [parseInt(s, 16)]; [None] is NaN.  Leading white space, a sign and a
    [0x] prefix are skipped, then the longest run of hex digits is read. *)
Definition parseInt16 (s : string) : option Z :=
  let s1 := trimStart s in
  let '(neg, s2) :=
    match s1 with
    | String "-"%char r => (true, r)
    | String "+"%char r => (false, r)
    | _ => (false, s1)
    end in
  let s3 :=
    match s2 with
    | String "0"%char (String "x"%char r) => r
    | String "0"%char (String "X"%char r) => r
    | _ => s2
    end in
  match spanDigits 16 s3 with
  | ([], _) => None
  | (ds, _) => Some (if neg then - digitsValue 16 ds else digitsValue 16 ds)
  end.

(** Conversion of a number stored into a [Uint8Array]: NaN becomes 0,
    an integer is taken modulo 256. *)
Definition ToUint8 (v : option Z) : Z :=
  match v with
  | Some n => n mod 256
  | None => 0
  end.

Definition hexChar (d : Z) : ascii :=
  nth (Z.to_nat d) (list_ascii_of_string "0123456789abcdef") "0"%char.

(** Digits of a non-negative integer in radix 16, most significant
    first; fuel bounds the number of digits. *)
Fixpoint hexDigits_aux (fuel : nat) (n : Z) (acc : list Z) : list Z :=
  match fuel with
  | O => acc
  | S fuel' =>
      if n <? 16 then n :: acc
      else hexDigits_aux fuel' (n / 16) (n mod 16 :: acc)
  end.

Definition hexDigits (n : Z) : list Z :=
  hexDigits_aux (S (Z.to_nat (Z.log2 n))) n [].

Definition string_of_hexDigits (ds : list Z) : string :=
  string_of_list_ascii (map hexChar ds).

(** [n.toString(16)] for an integral number or a bigint: lower-case
    digits, no leading zero, a minus sign for a negative value. *)
Definition toString16 (n : Z) : string :=
  if n <? 0 then String "-"%char (string_of_hexDigits (hexDigits (- n)))
  else string_of_hexDigits (hexDigits n).

(** [Buffer.from(bytes).toString("hex")]: two lower-case digits a byte. *)
Fixpoint Buffer_toString_hex (bs : bytes) : string :=
  match bs with
  | [] => EmptyString
  | b :: bs' =>
      String (hexChar (b / 16)) (String (hexChar (b mod 16)) (Buffer_toString_hex bs'))
  end.

(** [Buffer.from(s, "hex")]: pairs of hex digits are decoded until the
    first pair that is not two hex digits; a trailing single character
    is dropped. *)
Fixpoint Buffer_from_hex (s : string) : bytes :=
  match s with
  | String c1 (String c2 s') =>
      match digitIn 16 c1, digitIn 16 c2 with
      | Some h, Some l => (h * 16 + l) :: Buffer_from_hex s'
      | _, _ => []
      end
  | _ => []
  end.

(** [a.subarray(n)] and [a.slice(n)] for a non-negative [n]. *)
Definition subarray_from (n : nat) (a : bytes) : bytes := drop n a.

(** [a.subarray(-n)]: the last [n] elements, the whole array when it is
    shorter. *)
Definition subarray_last (n : nat) (a : bytes) : bytes :=
  drop (length a - n)%nat a.

(** [a.slice(i, j)] for [0 <= i <= j]. *)
Definition slice (i j : nat) (a : bytes) : bytes := take (j - i)%nat (drop i a).

(** *** Numbers

    A [number] is an IEEE 754 binary64 value; arithmetic rounds to
    nearest, ties to even. *)

Abbreviation number := spec_float.

Definition prec : Z := 53.
Definition emax : Z := 1024.

Definition NaN : number := S754_nan.
Definition pos_zero : number := S754_zero false.

(** The number nearest to an integer. *)
Definition number_of_Z (n : Z) : number := binary_normalize prec emax n 0 false.

(** The number nearest to [m * 10^e10], with the sign [neg]: the value
    of a decimal literal with digits [m] and decimal exponent [e10],
    correctly rounded from the exact decimal value. *)
Definition number_of_decimal (neg : bool) (m : Z) (e10 : Z) : number :=
  match m with
  | Zpos p =>
      if 0 <=? e10 then binary_round prec emax neg (p * Z.to_pos (10 ^ e10)) 0
      else SFdiv prec emax (S754_finite neg p 0)
                           (S754_finite false (Z.to_pos (10 ^ (- e10))) 0)
  | _ => S754_zero neg
  end.

Definition number_mul (x y : number) : number := SFmul prec emax x y.

Definition number_add (x y : number) : number := SFadd prec emax x y.

Definition isNaN (x : number) : bool :=
  match x with S754_nan => true | _ => false end.

(** [x < y] on numbers. *)
Definition number_lt (x y : number) : bool := SFltb x y.

(** The integer a number is equal to, when it is integral. *)
Definition integral_value (x : number) : option Z :=
  match x with
  | S754_zero _ => Some 0
  | S754_finite s m e =>
      if 0 <=? e then Some (cond_Zopp s (Zpos m * 2 ^ e))
      else if Zpos m mod 2 ^ (- e) =? 0 then Some (cond_Zopp s (Zpos m / 2 ^ (- e)))
      else None
  | _ => None
  end.

(** [Number.isInteger]. *)
Definition Number_isInteger (x : number) : bool :=
  match integral_value x with Some _ => true | None => false end.

(** [Math.floor]: the largest integral number not above [x]; zeros,
    infinities and NaN are returned unchanged. *)
Definition Math_floor (x : number) : number :=
  match x with
  | S754_finite s m e =>
      let v := cond_Zopp s (Zpos m) in
      let z := if 0 <=? e then v * 2 ^ e else v / 2 ^ (- e) in
      if z =? 0 then S754_zero s else number_of_Z z
  | _ => x
  end.

(** [BigInt(x)] for a number: a RangeError unless [x] is integral. *)
Definition BigInt_of_number (x : number) : result Z :=
  match integral_value x with
  | Some z => Ok z
  | None => Throw "RangeError: the number cannot be converted to a BigInt because it is not an integer"
  end.

(** Hex digits of the fraction [f / d], for [0 <= f < d]: each turn
    takes the integer part of sixteen times what is left.  For a power
    of two [d] the digits end. *)
Fixpoint fractionDigits16 (fuel : nat) (f d : Z) : list Z :=
  match fuel with
  | O => []
  | S fuel' =>
      if f =? 0 then []
      else (16 * f / d) :: fractionDigits16 fuel' (16 * f mod d) d
  end.

(** [x.toString(16)] for a number: the hex digits of an integral
    number, the digits of the integer part, a point and the digits of
    the fraction otherwise; NaN and the infinities by name. *)
Definition Number_toString16 (x : number) : string :=
  match x with
  | S754_nan => "NaN"
  | S754_infinity s => if s then "-Infinity" else "Infinity"
  | S754_zero _ => "0"
  | S754_finite s m e =>
      match integral_value x with
      | Some z => toString16 z
      | None =>
          let d := 2 ^ (- e) in
          String.append (if s then "-" else EmptyString)
            (String.append (string_of_hexDigits (hexDigits (Zpos m / d)))
               (String "."%char
                  (string_of_hexDigits
                     (fractionDigits16 (Z.to_nat (- e)) (Zpos m mod d) d))))
      end
  end.

(** *** Numeric literals in strings *)

Inductive scanned : Type :=
| ScanNone
| ScanInfinity (neg : bool)
| ScanDecimal (neg : bool) (m : Z) (e10 : Z).

Definition splitSign (s : string) : bool * string :=
  match s with
  | String "-"%char r => (true, r)
  | String "+"%char r => (false, r)
  | _ => (false, s)
  end.

(** The exponent part [e] or [E], an optional sign and at least one
    digit; absent or incomplete, nothing is consumed. *)
Definition scanExponent (s : string) : Z * string :=
  match s with
  | String c r =>
      if (Ascii.eqb c "e" || Ascii.eqb c "E")%bool then
        let '(neg, r1) := splitSign r in
        match spanDigits 10 r1 with
        | ([], _) => (0, s)
        | (ds, r2) => (cond_Zopp neg (digitsValue 10 ds), r2)
        end
      else (0, s)
  | EmptyString => (0, s)
  end.

(** Longest prefix of [s] that is a [StrDecimalLiteral], and the rest. *)
Definition scanDecimal (s : string) : scanned * string :=
  let '(neg, r0) := splitSign s in
  if startsWith "Infinity" r0 then (ScanInfinity neg, slice_from 8 r0)
  else
    let '(int_ds, r1) := spanDigits 10 r0 in
    let '(frac_ds, r2) :=
      match r1 with
      | String "."%char r => spanDigits 10 r
      | _ => ([], r1)
      end in
    match int_ds, frac_ds with
    | [], [] => (ScanNone, s)
    | _, _ =>
        let '(e, r3) := scanExponent r2 in
        (ScanDecimal neg (digitsValue 10 (int_ds ++ frac_ds))
                     (e - Z.of_nat (length frac_ds)), r3)
    end.

Definition number_of_scanned (sc : scanned) : number :=
  match sc with
  | ScanNone => NaN
  | ScanInfinity neg => S754_infinity neg
  | ScanDecimal neg m e10 => number_of_decimal neg m e10
  end.

(** [parseFloat(s)] for a string: leading white space is skipped and
    the longest decimal literal is read; what follows it is ignored. *)
Definition parseFloat (s : string) : number :=
  number_of_scanned (fst (scanDecimal (trimStart s))).

(** A literal [0x..], [0o..] or [0b..] that covers the whole string. *)
Definition nonDecimalLiteral (s : string) : option Z :=
  match s with
  | String "0"%char (String c r) =>
      let radix :=
        if (Ascii.eqb c "x" || Ascii.eqb c "X")%bool then Some 16
        else if (Ascii.eqb c "o" || Ascii.eqb c "O")%bool then Some 8
        else if (Ascii.eqb c "b" || Ascii.eqb c "B")%bool then Some 2
        else None in
      match radix with
      | Some rx =>
          match spanDigits rx r with
          | (d :: ds, EmptyString) => Some (digitsValue rx (d :: ds))
          | _ => None
          end
      | None => None
      end
  | _ => None
  end.

(** [Number(s)] for a string: the whole trimmed string has to be a
    numeric literal; the empty string is 0. *)
Definition Number_of_string (s : string) : number :=
  let t := trim s in
  match t with
  | EmptyString => pos_zero
  | _ =>
      match nonDecimalLiteral t with
      | Some n => number_of_Z n
      | None =>
          match scanDecimal t with
          | (sc, EmptyString) => number_of_scanned sc
          | _ => NaN
          end
      end
  end.

(** [BigInt(s)] for a string: an integer literal, a SyntaxError
    otherwise; the empty string is 0. *)
Definition BigInt_of_string (s : string) : result Z :=
  let t := trim s in
  match t with
  | EmptyString => Ok 0
  | _ =>
      match nonDecimalLiteral t with
      | Some n => Ok n
      | None =>
          let '(neg, r) := splitSign t in
          match spanDigits 10 r with
          | (d :: ds, EmptyString) => Ok (cond_Zopp neg (digitsValue 10 (d :: ds)))
          | _ => Throw "SyntaxError: Cannot convert the string to a BigInt"
          end
      end
  end.

(** *** Values of type [any]

    The values that the flags of the command line take. *)

Inductive value : Type :=
| VUndefined
| VBool (b : bool)
| VNum (n : number)
| VStr (s : string).

(** [ToBoolean]. *)
Definition truthy (v : value) : bool :=
  match v with
  | VUndefined => false
  | VBool b => b
  | VNum (S754_zero _) => false
  | VNum S754_nan => false
  | VNum _ => true
  | VStr EmptyString => false
  | VStr _ => true
  end.

(** [typeof v === "number"]. *)
Definition is_number (v : value) : bool :=
  match v with VNum _ => true | _ => false end.

(** [Number(v)]. *)
Definition Number_of (v : value) : number :=
  match v with
  | VUndefined => NaN
  | VBool true => number_of_Z 1
  | VBool false => pos_zero
  | VNum n => n
  | VStr s => Number_of_string s
  end.

(** [parseFloat(v)]: the argument is converted to a string first.  The
    string form of a number reads back as the same number (the zero
    loses its sign); the string forms of [undefined] and of the
    booleans start with no decimal literal. *)
Definition parseFloat_of (v : value) : number :=
  match v with
  | VNum (S754_zero _) => pos_zero
  | VNum n => n
  | VStr s => parseFloat s
  | _ => NaN
  end.

(** [BigInt(v)]. *)
Definition BigInt_of (v : value) : result Z :=
  match v with
  | VUndefined => Throw "TypeError: Cannot convert undefined to a BigInt"
  | VBool b => Ok (if b then 1 else 0)
  | VNum n => BigInt_of_number n
  | VStr s => BigInt_of_string s
  end.

End JS.

Import JS.

(** ** parseArgs.ts *)

(** The regular expressions [/^0x[0-9a-fA-F]+$/] and
    [/^0x[0-9a-fA-F]{40}$/]: the prefix [0x], then hex digits up to the
    end of the string, their number checked by [count_ok]. *)
Definition test_0x_hex (count_ok : nat -> bool) (s : string) : bool :=
  match s with
  | String "0"%char (String "x"%char r) =>
      forallb isHexDigit (list_ascii_of_string r) && count_ok (String.length r)
  | _ => false
  end.

Definition re_hex_string : string -> bool := test_0x_hex (fun n => Nat.leb 1 n).
Definition re_hex_address : string -> bool := test_0x_hex (fun n => Nat.eqb n 40).

Definition parseValue (v : string) : value :=
  if String.eqb v "true" then VBool true
  else if String.eqb v "false" then VBool false
  (* keep addresses as strings *)
  else if re_hex_string v then VStr v
  else if negb (isNaN (Number_of_string v)) && negb (String.eqb (trim v) "")
  then VNum (Number_of_string v)
  else VStr v.

(** The object [parseArgs] builds.  [flags] holds the properties set by
    [result[key] = ...], whose values are primitives.  [positional] is
    the array in [result._], as long as [result._] is that array: an
    assignment to the key [_] puts a primitive in its place, and
    [positional] is [None] from then on. *)
Record parsed : Type := {
  flags : gmap string value;
  positional : option (list string)
}.

(** [result[key] = v] for a primitive [v]: an own property, except for
    the key [__proto__], where the assignment of a primitive has no
    effect.  The key [_] loses the array it held. *)
Definition set_flag (key : string) (v : value) (r : parsed) : parsed :=
  if String.eqb key "__proto__" then r
  else {| flags := <[key := v]> (flags r);
          positional := if String.eqb key "_" then None else positional r |}.

(** [result._.push(arg)]: a TypeError when [result._] is no longer the
    array. *)
Definition push_positional (arg : string) (r : parsed) : result parsed :=
  match positional r with
  | Some l => Ok {| flags := flags r; positional := Some (l ++ [arg]) |}
  | None => Throw "TypeError: result._.push is not a function"
  end.

(** [s.includes("=")]. *)
Fixpoint includes_eq (s : string) : bool :=
  match s with
  | EmptyString => false
  | String c s' => Ascii.eqb c "=" || includes_eq s'
  end.

(** The part of [s] before the first [=], and what follows that [=]. *)
Fixpoint break_eq (s : string) : string * string :=
  match s with
  | EmptyString => (EmptyString, EmptyString)
  | String c s' =>
      if Ascii.eqb c "=" then (EmptyString, s')
      else let '(a, b) := break_eq s' in (String c a, b)
  end.

(** [const [k, v] = key.split("=")] for a key that includes [=]: the
    first two pieces. *)
Definition split_eq2 (key : string) : string * string :=
  let '(k, rest) := break_eq key in
  (k, fst (break_eq rest)).

(** The body of the [while] loop, by recursion on the arguments still
    to read. *)
Fixpoint parseArgs_loop (argv : list string) (r : parsed) : result parsed :=
  match argv with
  | [] => Ok r
  | arg :: rest =>
      if startsWith "--" arg then
        let key := slice_from 2 arg in
        if includes_eq key then
          let '(k, v) := split_eq2 key in
          parseArgs_loop rest (set_flag k (parseValue v) r)
        else
          match rest with
          | next :: rest' =>
              if negb (startsWith "-" next)
              then parseArgs_loop rest' (set_flag key (parseValue next) r)
              else parseArgs_loop rest (set_flag key (VBool true) r)
          | [] => parseArgs_loop rest (set_flag key (VBool true) r)
          end
      else if startsWith "-" arg && Nat.eqb (String.length arg) 2 then
        let key := slice_from 1 arg in
        match rest with
        | next :: rest' =>
            if negb (startsWith "-" next)
            then parseArgs_loop rest' (set_flag key (parseValue next) r)
            else parseArgs_loop rest (set_flag key (VBool true) r)
        | [] => parseArgs_loop rest (set_flag key (VBool true) r)
        end
      else
        r' <-! push_positional arg r;
        parseArgs_loop rest r'
  end.

Definition parseArgs (argv : list string) : result parsed :=
  parseArgs_loop argv {| flags := ∅; positional := Some [] |}.

(** [argv.key]: [undefined] when the property is absent. *)
Definition get (argv : gmap string value) (key : string) : value :=
  default VUndefined (argv !! key).

(** ** A sample instance of the library functions

    The theorems below are evaluated at it. *)
Module Sample.

Local Open Scope Z_scope.

Definition normalize (s : string) : string := s.

Definition pbkdf2 (password salt : string) (iterations keylen : Z) (digest : string)
  : result bytes :=
  Ok (repeat (Z.of_nat (String.length password) mod 256) (Z.to_nat keylen)).

Definition derive (seed : bytes) (path : string)
  : result (option bytes * option bytes) :=
  Ok (Some (take 32 seed), Some (drop 32 seed)).

Definition ecdh (privateKey : bytes) : result bytes :=
  Ok (4 :: privateKey ++ privateKey).

Definition keccak (data : bytes) : bytes :=
  repeat (Z.of_nat (length data) mod 256) 32.

Definition rlp (fields : list bytes) : bytes := concat fields.

Definition sign (w : unit) (digest key : bytes) : result (bytes * Z) :=
  Ok (digest ++ take 32 key, 0).

Definition url (v : value) : bool := true.

Definition recipient : string := "0x8ba1f109551bD432803012645Ac136ddd64DBA72".

Definition key : bytes := repeat 1 32.

End Sample.

(** ** utils/cryptography.ts *)

Section Wallet.

Local Open Scope Z_scope.

(** The library functions the module calls.  [entropy] stands for
    whatever state of the run the signing library may consult. *)
Variable normalize_NFKD : string -> string.
Variable pbkdf2Sync : string -> string -> Z -> Z -> string -> result bytes.
Variable HDKey_derive : bytes -> string -> result (option bytes * option bytes).
Variable ECDH_publicKey : bytes -> result bytes.
Variable keccak_256 : bytes -> bytes.
Variable rlp_encode : list bytes -> bytes.
Variable entropy : Type.
Variable ecdsaSign : entropy -> bytes -> bytes -> result (bytes * Z).

(** BIP-39: mnemonic to seed.  [passphrase] is [None] when the argument
    is omitted. *)
Definition mnemonicToSeedSync (mnemonic : string) (passphrase : option string)
  : result bytes :=
  let passphrase := default EmptyString passphrase in
  let salt := String.append "mnemonic" passphrase in
  pbkdf2Sync (normalize_NFKD mnemonic) (normalize_NFKD salt) 2048 64 "sha512".

Definition derivePath (path : string) (seed : bytes) : result (bytes * bytes) :=
  child <-! HDKey_derive seed path;
  match child with
  | (Some privateKey, Some chainCode) => Ok (privateKey, chainCode)
  | _ => Throw "Could not derive child key for given path"
  end.

Definition getPublicKey (privateKey : bytes) : result bytes :=
  ECDH_publicKey privateKey.

Definition keccak256 (data : bytes) : bytes := keccak_256 data.

Definition publicKeyToAddress (pubKey : bytes) : result string :=
  if negb (Nat.eqb (length pubKey) 65) then Throw "Invalid public key length"
  else
    let pubKeyNoPrefix := subarray_from 1 pubKey in
    let hash := keccak256 pubKeyNoPrefix in
    let addressBytes := subarray_last 20 hash in
    Ok (String.append "0x" (Buffer_toString_hex addressBytes)).

(** The array has [Math.ceil(clean.length / 2)] elements; element [i]
    is [parseInt] of the two characters from [i * 2], or of the one
    that is left. *)
Definition hexToUint8Array (hex : string) : bytes :=
  let clean := if startsWith "0x" hex then slice_from 2 hex else hex in
  if Nat.eqb (String.length clean) 0 then []
  else
    map (fun i => ToUint8 (parseInt16 (substr clean (i * 2) 2)))
        (seq 0 (Nat.div (String.length clean + 1) 2)).

Definition encodeTx (nonce gasPrice gasLimit : Z) (to : string) (value : Z)
    (data : bytes) (chainId : Z) : list bytes :=
  [ if nonce =? 0 then [] else hexToUint8Array (toString16 nonce);
    if gasPrice =? 0 then [] else hexToUint8Array (toString16 gasPrice);
    if gasLimit =? 0 then [] else hexToUint8Array (toString16 gasLimit);
    hexToUint8Array to;
    if value =? 0 then [] else hexToUint8Array (toString16 value);
    data;
    hexToUint8Array (toString16 chainId);
    [];
    [] ].

Definition isHexAddress (addr : string) : bool :=
  if negb (re_hex_address addr) then false
  else Nat.eqb (length (Buffer_from_hex (slice_from 2 addr))) 20.

(** What [signTransaction] hands to the final [rlp.encode]: the list
    [tx], and the two halves of the signature that are its last
    elements. *)
Record signing : Type := {
  sig_r : bytes;
  sig_s : bytes;
  sig_tx : list bytes
}.

(** [nonce], [chainId] and the recovery id are numbers that are
    integers, given as these integers.  The value v is computed on the
    numbers, in binary64: it is the integer chainId * 2 + 35 + recid
    when that does not exceed 2^53, and the nearest number otherwise. *)
Definition signTransaction_steps (w : entropy) (nonce gasPrice gasLimit : Z)
    (to : string) (value : Z) (data : bytes) (chainId : Z) (privateKey : bytes)
  : result signing :=
  (* 1. RLP encode tx for signing *)
  let rawTx := encodeTx nonce gasPrice gasLimit to value data chainId in
  let rlpEncoded := rlp_encode rawTx in
  let msgHash := keccak256 rlpEncoded in
  (* 2. Sign the hash *)
  sg <-! ecdsaSign w msgHash privateKey;
  let '(signature, recid) := sg in
  let r := slice 0 32 signature in
  let s := slice 32 64 signature in
  let v := number_add (number_add (number_mul (number_of_Z chainId) (number_of_Z 2))
                                  (number_of_Z 35))
                      (number_of_Z recid) in (* EIP-155 *)
  (* 3. RLP encode the full tx with v, r, s *)
  let tx :=
    [ if nonce =? 0 then [] else hexToUint8Array (toString16 nonce);
      if gasPrice =? 0 then [] else hexToUint8Array (toString16 gasPrice);
      if gasLimit =? 0 then [] else hexToUint8Array (toString16 gasLimit);
      hexToUint8Array to;
      if value =? 0 then [] else hexToUint8Array (toString16 value);
      data;
      hexToUint8Array (Number_toString16 v);
      r;
      s ] in
  Ok {| sig_r := r; sig_s := s; sig_tx := tx |}.

Definition signTransaction (w : entropy) (nonce gasPrice gasLimit : Z)
    (to : string) (value : Z) (data : bytes) (chainId : Z) (privateKey : bytes)
  : result bytes :=
  st <-! signTransaction_steps w nonce gasPrice gasLimit to value data chainId privateKey;
  Ok (rlp_encode (sig_tx st)).

(** ** wallet.ts *)

Definition MNEMONIC : string :=
  "test test test test test test test test test test test test test junk".
Definition PATH : string := "m/44'/60'/0'/0/0".

(** [new URL(String(v))] returns rather than throws. *)
Variable URL_valid : value -> bool.

(** The ways the script ends before it signs. *)
Inductive exit_reason : Type :=
| Help
| MissingFlags
| InvalidTo
| InvalidValue
| InvalidNonce
| InvalidRpc.

(** [process.exit] status of each. *)
Definition exit_code (r : exit_reason) : Z :=
  match r with Help => 0 | _ => 1 end.

(** The arguments of the call of [signTransaction] in the script, as
    the values they have there. *)
Record sign_call : Type := {
  call_nonce : number;
  call_gasPrice : Z;
  call_gasLimit : Z;
  call_to : string;
  call_value : Z;
  call_data : bytes;
  call_chainId : number;
  call_privateKey : bytes
}.

Inductive outcome : Type :=
| Exited (r : exit_reason)
| Uncaught (msg : string)
| Signs (address : string) (c : sign_call).

(** A method call on a value that is expected to be a string. *)
Definition as_string (what : string) (v : value) : result string :=
  match v with
  | VStr s => Ok s
  | _ => Throw (String.append "TypeError: not a string: " what)
  end.

(** [isHexAddress(argv.to)]: the pattern is tested on the string form
    of the value, and the string form of a number, of a boolean or of
    [undefined] does not begin with [0x]. *)
Definition isHexAddress_of (v : value) : bool :=
  match v with
  | VStr s => isHexAddress s
  | _ => false
  end.

(** [const value = BigInt(Math.floor(parseFloat(argv.value) * 1e18))]. *)
Definition value_in_wei (v : value) : result Z :=
  BigInt_of_number (Math_floor (number_mul (parseFloat_of v) (number_of_Z (10 ^ 18)))).

(** Derive private key and address. *)
Definition derive_account (argv : gmap string value) : result (bytes * string) :=
  let mnemonic := if truthy (get argv "mnemonic") then get argv "mnemonic" else VStr MNEMONIC in
  let path := if truthy (get argv "path") then get argv "path" else VStr PATH in
  m <-! as_string "mnemonic" mnemonic;
  seed <-! mnemonicToSeedSync m None;
  p <-! as_string "path" path;
  kc <-! derivePath p seed;
  publicKey <-! getPublicKey (fst kc);
  address <-! publicKeyToAddress publicKey;
  Ok (fst kc, address).

(** Conversion of the validated flags into the arguments of
    [signTransaction]. *)
Definition prepare_call (argv : gmap string value) (to : string) (privateKey : bytes)
  : result sign_call :=
  value <-! value_in_wei (get argv "value");
  let nonce := Number_of (get argv "nonce") in
  gasPrice <-! (if truthy (get argv "gasPrice") then BigInt_of (get argv "gasPrice")
                else Ok 1000000000);
  gasLimit <-! (if truthy (get argv "gasLimit") then BigInt_of (get argv "gasLimit")
                else Ok 21000);
  let chainId := if truthy (get argv "chainId") then Number_of (get argv "chainId")
                 else number_of_Z 1 in
  Ok {| call_nonce := nonce; call_gasPrice := gasPrice; call_gasLimit := gasLimit;
        call_to := to; call_value := value; call_data := [];
        call_chainId := chainId; call_privateKey := privateKey |}.

(** The script, from the parsed arguments to the call of
    [signTransaction]; console output is left out. *)
Definition wallet (argv : gmap string value) : outcome :=
  if truthy (get argv "help") || truthy (get argv "--help") then Exited Help
  else
    match derive_account argv with
    | Throw m => Uncaught m
    | Ok (privateKey, address) =>
        if negb (truthy (get argv "to")) || negb (truthy (get argv "value"))
           || negb (is_number (get argv "nonce"))
        then Exited MissingFlags
        else if negb (isHexAddress_of (get argv "to")) then Exited InvalidTo
        else if isNaN (parseFloat_of (get argv "value"))
                || number_lt (parseFloat_of (get argv "value")) pos_zero
        then Exited InvalidValue
        else if negb (Number_isInteger (Number_of (get argv "nonce")))
                || number_lt (Number_of (get argv "nonce")) pos_zero
        then Exited InvalidNonce
        else if truthy (get argv "rpc") && negb (URL_valid (get argv "rpc"))
        then Exited InvalidRpc
        else
          match get argv "to" with
          | VStr to =>
              match prepare_call argv to privateKey with
              | Ok c => Signs address c
              | Throw m => Uncaught m
              end
          | _ => Exited InvalidTo (* not reached: only a string passes the guard *)
          end
    end.

(** The whole program on its command line. *)
Definition main (args : list string) : outcome :=
  match parseArgs args with
  | Ok r => wallet (flags r)
  | Throw m => Uncaught m
  end.

(** Sign and output: the raw transaction and its hash. *)
Definition sign_and_hash (w : entropy) (nonce gasPrice gasLimit : Z)
    (to : string) (value : Z) (data : bytes) (chainId : Z) (privateKey : bytes)
  : result (bytes * bytes) :=
  raw <-! signTransaction w nonce gasPrice gasLimit to value data chainId privateKey;
  Ok (raw, keccak256 raw).

(** ** What the claims speak of *)

(** Value of a byte string read as a big-endian integer. *)
Definition be_value (bs : bytes) : Z := digitsValue 256 bs.

(** [bs] is the minimal big-endian representation of [n]: it denotes
    [n], its elements are bytes and it has no leading zero byte.  The
    representation of zero is the empty string. *)
Definition minimal_be (n : Z) (bs : bytes) : Prop :=
  be_value bs = n /\ Forall (fun b => 0 <= b < 256) bs /\ hd 1 bs <> 0.

(** Bytes that a string of hex-digit values denotes when it is read two
    digits at a time from the left, a final single digit standing for
    itself: what [hexToUint8Array] does to a digit string. *)
Fixpoint pair_up (ds : list Z) : bytes :=
  match ds with
  | a :: b :: ds' => (16 * a + b) :: pair_up ds'
  | [a] => [a]
  | [] => []
  end.

(** [ds] are the hex digits of [n], most significant first, without a
    leading zero. *)
Definition hex_digits_of (n : Z) (ds : list Z) : Prop :=
  digitsValue 16 ds = n /\ Forall (fun d => 0 <= d < 16) ds /\
  (0 < n -> 0 < hd 0 ds) /\ ds <> [].

(** A string read two characters at a time, the last one alone when
    the length is odd. *)
Fixpoint chunk_map (g : string -> Z) (s : string) : bytes :=
  match s with
  | String a (String b r) => g (String a (String b EmptyString)) :: chunk_map g r
  | String a EmptyString => [g (String a EmptyString)]
  | EmptyString => []
  end.

Definition chunk_bytes : string -> bytes :=
  chunk_map (fun t => ToUint8 (parseInt16 t)).

(** The value conversion as the specification words it: the decimal
    input times 10^18, in exact arithmetic, truncated toward zero.
    [None] when the string is not a decimal literal. *)
Definition spec_value_in_wei (s : string) : option Z :=
  match scanDecimal s with
  | (ScanDecimal neg m e10, EmptyString) =>
      let e := e10 + 18 in
      Some (if 0 <=? e then cond_Zopp neg (m * 10 ^ e)
            else Z.quot (cond_Zopp neg m) (10 ^ (- e)))
  | _ => None
  end.

(** The decimal string of a natural number. *)
Definition decimal_string (n : N) : string :=
  DecimalString.NilZero.string_of_uint (N.to_uint n).

(** *** Binary64 rounding

    What the proofs about numbers speak of. *)

(** The record [mrs] locates the rational N / D: its mantissa is the
    integer part, the round bit tells whether the fraction reaches one
    half and the sticky bit whether it is anything but 0 or one half. *)
Definition located (N D : Z) (mrs : shr_record) : Prop :=
  0 <= shr_m mrs /\
  0 <= N - shr_m mrs * D < D /\
  (shr_r mrs = true <-> D <= 2 * (N - shr_m mrs * D)) /\
  (shr_s mrs = true <-> N - shr_m mrs * D <> 0 /\ 2 * (N - shr_m mrs * D) <> D).

(** The value of the positive number with significand [M] and
    exponent [E]. *)
Definition fval (M : positive) (E : Z) : Q := (inject_Z (Zpos M) * 2 ^ E)%Q.

(** The positive rational [x] has a significand of at most 53 bits: it
    is a binary64 number when its exponent is in range. *)
Definition representable (x : Q) : Prop :=
  exists (M0 E0 : Z), 0 < M0 < 2 ^ 53 /\ (x == inject_Z M0 * 2 ^ E0)%Q.

(** Half a unit in the last place of a number in [1, 2): the bound of
    the relative error of one rounding. *)
Definition ulp_half : Q := (2 ^ (-53))%Q.

(** The number [x] is the integer [z], with no rounding. *)
Definition is_integer (x : number) (z : Z) : Prop :=
  (z = 0 /\ x = S754_zero false) \/
  (0 < z /\ exists M E, x = S754_finite false M E /\
              2 ^ 52 <= Zpos M < 2 ^ 53 /\ (fval M E == inject_Z z)%Q).

(** The characters of a decimal literal. *)
Definition isLiteralChar (c : ascii) : bool :=
  match digitIn 10 c with
  | Some _ => true
  | None => existsb (Ascii.eqb c) (list_ascii_of_string ".eE+-")
  end.

Fixpoint all_chars (P : ascii -> bool) (s : string) : bool :=
  match s with
  | EmptyString => true
  | String c s' => P c && all_chars P s'
  end.

(** ** Auxiliary facts *)

Section Induction2.

Context {A : Type} (P : list A -> Prop).
Hypothesis P_nil : P [].
Hypothesis P_one : forall a, P [a].
Hypothesis P_two : forall a b l, P l -> P (a :: b :: l).

Lemma list_pair_ind : forall l, P l.
Proof.
  assert (both : forall l, P l /\ forall a, P (a :: l)).
  { induction l as [|x l [IH1 IH2]]; split; auto. }
  intro l. apply both.
Qed.

End Induction2.

Lemma digitsValue_snoc radix ds d :
  digitsValue radix (ds ++ [d]) = digitsValue radix ds * radix + d.
Proof. unfold digitsValue. rewrite fold_left_app. reflexivity. Qed.

Lemma digitsValue_cons_acc radix ds acc :
  fold_left (fun a d => a * radix + d) ds acc
  = acc * radix ^ Z.of_nat (length ds) + digitsValue radix ds.
Proof.
  unfold digitsValue. revert acc.
  induction ds as [|d ds IH]; intro acc; simpl fold_left.
  - simpl. lia.
  - rewrite IH, (IH (0 * radix + d)).
    replace (Z.of_nat (length (d :: ds))) with (Z.succ (Z.of_nat (length ds)))
      by (simpl length; lia).
    rewrite Z.pow_succ_r by lia. ring.
Qed.

Lemma digitsValue_cons radix d ds :
  digitsValue radix (d :: ds) = d * radix ^ Z.of_nat (length ds) + digitsValue radix ds.
Proof.
  unfold digitsValue at 1. simpl fold_left.
  rewrite digitsValue_cons_acc. ring.
Qed.

Lemma digitsValue_nonneg radix ds :
  0 <= radix -> Forall (fun d => 0 <= d) ds -> 0 <= digitsValue radix ds.
Proof.
  intros Hr H. induction H as [|d ds Hd _ IH].
  - reflexivity.
  - rewrite digitsValue_cons.
    assert (0 <= radix ^ Z.of_nat (length ds)) by (apply Z.pow_nonneg; lia).
    nia.
Qed.

(** *** Hex digits of an integer *)

Lemma hexDigits_aux_acc fuel : forall n acc,
  hexDigits_aux fuel n acc = hexDigits_aux fuel n [] ++ acc.
Proof.
  induction fuel as [|fuel IH]; intros n acc; simpl.
  - reflexivity.
  - destruct (n <? 16); [reflexivity|].
    rewrite IH, (IH _ [n mod 16]), <- app_assoc. reflexivity.
Qed.

Lemma hexDigits_aux_step fuel n :
  hexDigits_aux (S fuel) n [] =
  if n <? 16 then [n] else hexDigits_aux fuel (n / 16) [] ++ [n mod 16].
Proof.
  simpl. destruct (n <? 16); [reflexivity|]. apply hexDigits_aux_acc.
Qed.

Lemma hex_digits_of_one n : 0 <= n < 16 -> hex_digits_of n [n].
Proof.
  intro Hn. split; [|split; [|split]].
  - unfold digitsValue. simpl. lia.
  - repeat constructor; lia.
  - simpl. lia.
  - discriminate.
Qed.

Lemma hex_digits_of_snoc n ds :
  16 <= n -> hex_digits_of (n / 16) ds -> hex_digits_of n (ds ++ [n mod 16]).
Proof.
  intros Hn (Hv & Hall & Hhd & Hne).
  assert (Hm := Z.mod_pos_bound n 16 ltac:(lia)).
  split; [|split; [|split]].
  - rewrite digitsValue_snoc, Hv.
    pose proof (Z.div_mod n 16 ltac:(lia)). lia.
  - apply Forall_app. split; [exact Hall | repeat constructor; lia].
  - intros _. destruct ds as [|d ds]; [congruence|]. simpl. apply Hhd.
    apply Z.div_str_pos. lia.
  - destruct ds; discriminate.
Qed.

Lemma hexDigits_aux_spec fuel : forall n,
  0 <= n < 16 ^ Z.of_nat (S fuel) ->
  hex_digits_of n (hexDigits_aux (S fuel) n []).
Proof.
  induction fuel as [|fuel IH]; intros n Hn;
    rewrite hexDigits_aux_step; destruct (Z.ltb_spec n 16) as [Hlt|Hge].
  - apply hex_digits_of_one. lia.
  - change (16 ^ Z.of_nat 1) with 16 in Hn. lia.
  - apply hex_digits_of_one. lia.
  - apply hex_digits_of_snoc; [exact Hge|]. apply IH.
    split; [apply Z.div_pos; lia|].
    apply Z.div_lt_upper_bound; [lia|].
    replace (Z.of_nat (S (S fuel))) with (Z.succ (Z.of_nat (S fuel))) in Hn by lia.
    rewrite Z.pow_succ_r in Hn by lia. lia.
Qed.

Lemma hexDigits_spec n : 0 <= n -> hex_digits_of n (hexDigits n).
Proof.
  intro Hn. apply hexDigits_aux_spec. split; [exact Hn|].
  destruct (Z.eq_dec n 0) as [->|Hnz]; [reflexivity|].
  assert (Hl := Z.log2_spec n ltac:(lia)).
  assert (0 <= Z.log2 n) by apply Z.log2_nonneg.
  replace (Z.of_nat (S (Z.to_nat (Z.log2 n)))) with (Z.succ (Z.log2 n)) by lia.
  eapply Z.lt_le_trans; [apply Hl|].
  apply Z.pow_le_mono_l. lia.
Qed.

(** *** Strings of hex digits *)

Section StringInduction2.

Context (P : string -> Prop).
Hypothesis P_empty : P EmptyString.
Hypothesis P_one : forall a, P (String a EmptyString).
Hypothesis P_two : forall a b s, P s -> P (String a (String b s)).

Lemma string_pair_ind : forall s, P s.
Proof.
  assert (both : forall s, P s /\ forall a, P (String a s)).
  { induction s as [|x s [IH1 IH2]]; split; auto. }
  intro s. apply both.
Qed.

End StringInduction2.

Ltac nibble_cases d H :=
  let E := fresh "E" in
  assert (E : d = 0 \/ d = 1 \/ d = 2 \/ d = 3 \/ d = 4 \/ d = 5 \/ d = 6 \/ d = 7 \/
              d = 8 \/ d = 9 \/ d = 10 \/ d = 11 \/ d = 12 \/ d = 13 \/ d = 14 \/ d = 15)
    by lia;
  clear H;
  repeat (destruct E as [E|E]; [subst d|]); [..|subst d].

Lemma index_chunks (g : string -> Z) : forall s,
  map (fun i => g (substr s (i * 2) 2)) (seq 0 (Nat.div (String.length s + 1) 2))
  = chunk_map g s.
Proof.
  induction s as [| a | a b s IH] using string_pair_ind.
  - reflexivity.
  - reflexivity.
  - cbn [String.length].
    replace (S (S (String.length s)) + 1)%nat with (String.length s + 1 + 1 * 2)%nat by lia.
    rewrite Nat.div_add by lia.
    replace (Nat.div (String.length s + 1) 2 + 1)%nat
      with (S (Nat.div (String.length s + 1) 2)) by lia.
    cbn [seq map chunk_map]. f_equal; [destruct s; reflexivity|].
    rewrite <- seq_shift, map_map, <- IH.
    apply map_ext. intro i. reflexivity.
Qed.

Lemma hexToUint8Array_chunks hex :
  hexToUint8Array hex
  = chunk_bytes (if startsWith "0x" hex then slice_from 2 hex else hex).
Proof.
  unfold hexToUint8Array, chunk_bytes.
  set (clean := if startsWith "0x" hex then slice_from 2 hex else hex).
  rewrite (index_chunks (fun t => ToUint8 (parseInt16 t)) clean).
  destruct clean; reflexivity.
Qed.

Lemma parseInt16_two a b :
  0 <= a < 16 -> 0 <= b < 16 ->
  parseInt16 (String (hexChar a) (String (hexChar b) EmptyString)) = Some (16 * a + b).
Proof.
  intros Ha Hb. nibble_cases a Ha; nibble_cases b Hb; reflexivity.
Qed.

Lemma parseInt16_one a :
  0 <= a < 16 -> parseInt16 (String (hexChar a) EmptyString) = Some a.
Proof. intros Ha. nibble_cases a Ha; reflexivity. Qed.

Lemma chunk_bytes_hexDigits : forall ds,
  Forall (fun d => 0 <= d < 16) ds ->
  chunk_bytes (string_of_hexDigits ds) = pair_up ds.
Proof.
  induction ds as [| a | a b ds IH] using list_pair_ind; intro H.
  - reflexivity.
  - inversion_clear H. unfold string_of_hexDigits. unfold chunk_bytes; cbn [map string_of_list_ascii chunk_map pair_up].
    rewrite parseInt16_one by assumption. cbn [ToUint8]. f_equal.
    apply Z.mod_small. lia.
  - inversion_clear H as [|? ? Ha H']. inversion_clear H' as [|? ? Hb H''].
    unfold string_of_hexDigits in *.
    unfold chunk_bytes; cbn [map string_of_list_ascii chunk_map pair_up].
    rewrite parseInt16_two by assumption. cbn [ToUint8]. f_equal.
    + apply Z.mod_small. lia.
    + apply (IH H'').
Qed.

Lemma hexDigits_no_0x_prefix : forall ds,
  Forall (fun d => 0 <= d < 16) ds ->
  startsWith "0x" (string_of_hexDigits ds) = false.
Proof.
  intros [|a [|b ds]] H; try reflexivity.
  - unfold startsWith, string_of_hexDigits. cbn [map string_of_list_ascii String.prefix].
    destruct (ascii_dec _ _); reflexivity.
  - inversion_clear H as [|? ? Ha H']. inversion_clear H' as [|? ? Hb H''].
    unfold startsWith, string_of_hexDigits. cbn [map string_of_list_ascii String.prefix].
    destruct (ascii_dec "0" (hexChar a)); [|reflexivity].
    nibble_cases b Hb; reflexivity.
Qed.

(** [hexToUint8Array] of the hex string of a non-negative integer pairs
    the digits up from the left. *)
Lemma hexToUint8Array_toString16 n :
  0 <= n -> hexToUint8Array (toString16 n) = pair_up (hexDigits n).
Proof.
  intro Hn. destruct (hexDigits_spec n Hn) as (_ & Hall & _ & _).
  unfold toString16. destruct (Z.ltb_spec n 0); [lia|].
  rewrite hexToUint8Array_chunks, hexDigits_no_0x_prefix by exact Hall.
  apply chunk_bytes_hexDigits, Hall.
Qed.

(** *** The integer that the paired-up digits denote *)

Lemma pair_up_fold : forall ds acc,
  fold_left (fun a d => a * 256 + d) (pair_up ds) acc
  = if Nat.even (length ds) then fold_left (fun a d => a * 16 + d) ds acc
    else fold_left (fun a d => a * 16 + d) ds acc
         + 240 * fold_left (fun a d => a * 16 + d) (removelast ds) acc.
Proof.
  induction ds as [| a | a b ds IH] using list_pair_ind; intro acc.
  - reflexivity.
  - cbn. ring.
  - cbn [pair_up fold_left length Nat.even].
    rewrite IH.
    replace (acc * 256 + (16 * a + b)) with ((acc * 16 + a) * 16 + b) by ring.
    destruct ds as [|c ds]; [reflexivity|].
    reflexivity.
Qed.

Lemma pair_up_bytes : forall ds,
  Forall (fun d => 0 <= d < 16) ds -> Forall (fun b => 0 <= b < 256) (pair_up ds).
Proof.
  induction ds as [| a | a b ds IH] using list_pair_ind; intro H; cbn [pair_up].
  - constructor.
  - inversion_clear H. repeat constructor; lia.
  - inversion_clear H as [|? ? Ha H']. inversion_clear H' as [|? ? Hb H''].
    constructor; [lia | apply (IH H'')].
Qed.

Lemma pair_up_head : forall ds,
  Forall (fun d => 0 <= d < 16) ds -> 0 < hd 0 ds -> hd 1 (pair_up ds) <> 0.
Proof.
  intros [|a [|b ds]] H Hhd; cbn in *; try lia.
  inversion_clear H as [|? ? Ha H']. inversion_clear H' as [|? ? Hb H'']. lia.
Qed.

Lemma removelast_hexDigits n :
  0 <= n -> digitsValue 16 (removelast (hexDigits n)) = n / 16.
Proof.
  intro Hn. destruct (hexDigits_spec n Hn) as (Hv & Hall & _ & Hne).
  rewrite (app_removelast_last 0 Hne) in Hv, Hall.
  rewrite digitsValue_snoc in Hv.
  apply Forall_app in Hall as [_ Hl]. inversion_clear Hl as [|? ? Hlast _].
  apply Z.div_unique with (List.last (hexDigits n) 0); lia.
Qed.

(** The integer that the encoding of [n] denotes: [n] itself when the
    hex string of [n] has an even number of digits, and otherwise [n]
    with all digits but the last moved up by one more digit. *)
Lemma encoded_value n :
  0 <= n ->
  be_value (hexToUint8Array (toString16 n))
  = if Nat.even (length (hexDigits n)) then n else n + 240 * (n / 16).
Proof.
  intro Hn. rewrite hexToUint8Array_toString16 by exact Hn.
  unfold be_value, digitsValue. rewrite pair_up_fold.
  destruct (hexDigits_spec n Hn) as (Hv & _).
  fold (digitsValue 16 (hexDigits n)). fold (digitsValue 16 (removelast (hexDigits n))).
  rewrite Hv, removelast_hexDigits by exact Hn.
  reflexivity.
Qed.

(** With an even number of hex digits, or a single one, the encoding is
    the minimal big-endian representation. *)
Lemma encoding_minimal n :
  0 < n ->
  Nat.even (length (hexDigits n)) = true \/ n < 16 ->
  minimal_be n (hexToUint8Array (toString16 n)).
Proof.
  intros Hn Hcase.
  destruct (hexDigits_spec n ltac:(lia)) as (Hv & Hall & Hhd & Hne).
  split; [|split].
  - rewrite encoded_value by lia.
    destruct Hcase as [-> | Hlt]; [reflexivity|].
    rewrite Z.div_small by lia. destruct (Nat.even _); lia.
  - rewrite hexToUint8Array_toString16 by lia. apply pair_up_bytes, Hall.
  - rewrite hexToUint8Array_toString16 by lia. apply pair_up_head; auto.
Qed.

(** With an odd number of hex digits, three or more, the encoding
    denotes another integer. *)
Lemma encoding_odd_digits n :
  16 <= n ->
  Nat.even (length (hexDigits n)) = false ->
  be_value (hexToUint8Array (toString16 n)) <> n.
Proof.
  intros Hn Hodd. rewrite encoded_value, Hodd by lia.
  assert (0 < n / 16) by (apply Z.div_str_pos; lia). lia.
Qed.

(** *** Hex text of a byte string *)

Lemma hexChar_isHexDigit d : 0 <= d < 16 -> isHexDigit (hexChar d) = true.
Proof. intro H. nibble_cases d H; reflexivity. Qed.

Lemma Buffer_toString_hex_length bs :
  String.length (Buffer_toString_hex bs) = (2 * length bs)%nat.
Proof. induction bs as [|b bs IH]; cbn [Buffer_toString_hex String.length length]; lia. Qed.

Lemma Buffer_toString_hex_digits bs :
  Forall (fun b => 0 <= b < 256) bs ->
  forallb isHexDigit (list_ascii_of_string (Buffer_toString_hex bs)) = true.
Proof.
  induction 1 as [|b bs Hb _ IH]; [reflexivity|].
  cbn [Buffer_toString_hex list_ascii_of_string forallb].
  rewrite !hexChar_isHexDigit, IH; [reflexivity| |].
  - apply Z.mod_pos_bound. lia.
  - split; [apply Z.div_pos; lia | apply Z.div_lt_upper_bound; lia].
Qed.

Lemma chunk_bytes_toString_hex bs :
  Forall (fun b => 0 <= b < 256) bs -> chunk_bytes (Buffer_toString_hex bs) = bs.
Proof.
  induction 1 as [|b bs Hb _ IH]; [reflexivity|].
  unfold chunk_bytes in *. cbn [Buffer_toString_hex chunk_map].
  rewrite parseInt16_two, IH.
  - cbn [ToUint8]. f_equal. rewrite Z.mod_small; pose proof (Z.div_mod b 16); lia.
  - split; [apply Z.div_pos; lia | apply Z.div_lt_upper_bound; lia].
  - apply Z.mod_pos_bound. lia.
Qed.

Lemma startsWith_0x r : startsWith "0x" (String "0" (String "x" r)) = true.
Proof. unfold startsWith. cbn. destruct r; reflexivity. Qed.

(** Reading back the [0x]-prefixed hex text of a byte string. *)
Lemma hexToUint8Array_hex_text bs :
  Forall (fun b => 0 <= b < 256) bs ->
  hexToUint8Array (String.append "0x" (Buffer_toString_hex bs)) = bs.
Proof.
  intro H. rewrite hexToUint8Array_chunks.
  change (String.append "0x" (Buffer_toString_hex bs))
    with (String "0"%char (String "x"%char (Buffer_toString_hex bs))).
  rewrite startsWith_0x. apply chunk_bytes_toString_hex, H.
Qed.

Lemma re_hex_address_hex_text bs :
  Forall (fun b => 0 <= b < 256) bs -> length bs = 20%nat ->
  re_hex_address (String.append "0x" (Buffer_toString_hex bs)) = true.
Proof.
  intros H Hlen. unfold re_hex_address, test_0x_hex.
  change (String.append "0x" (Buffer_toString_hex bs))
    with (String "0"%char (String "x"%char (Buffer_toString_hex bs))).
  cbv iota.
  rewrite Buffer_toString_hex_digits, Buffer_toString_hex_length, Hlen by exact H.
  reflexivity.
Qed.

(** *** The embedding on known values *)

Example parseFloat_one_tenth :
  parseFloat "0.1" = S754_finite false 7205759403792794 (-56).
Proof. vm_compute. reflexivity. Qed.

Example parseFloat_prefix : parseFloat "  3.25abc" = parseFloat "3.25".
Proof. vm_compute. reflexivity. Qed.

Example parseFloat_smallest : parseFloat "5e-324" = S754_finite false 1 (-1074).
Proof. vm_compute. reflexivity. Qed.

Example parseFloat_overflow : parseFloat "1e400" = S754_infinity false.
Proof. vm_compute. reflexivity. Qed.

(** 2^53 + 1 lies half-way between two numbers and goes to the even one. *)
Example parseFloat_tie :
  parseFloat "9007199254740993" = number_of_Z 9007199254740992 /\
  parseFloat "9007199254740995" = number_of_Z 9007199254740996.
Proof. vm_compute. split; reflexivity. Qed.

Example Number_of_hex_literal : Number_of_string " 0x1F " = number_of_Z 31.
Proof. vm_compute. reflexivity. Qed.

Example Number_of_incomplete_exponent : Number_of_string "1e" = NaN.
Proof. vm_compute. reflexivity. Qed.

Example Number_toString16_cases :
  Number_toString16 (number_of_Z 255) = "ff"%string /\
  Number_toString16 (number_of_Z 0) = "0"%string /\
  Number_toString16 (number_of_Z (-255)) = "-ff"%string /\
  Number_toString16 (number_of_Z (2 ^ 53 + 36)) = "20000000000024"%string /\
  Number_toString16 (parseFloat "1.5") = "1.8"%string /\
  Number_toString16 (parseFloat "-2.75") = "-2.c"%string /\
  Number_toString16 (parseFloat "0.1") = "0.1999999999999a"%string /\
  Number_toString16 (parseFloat "x") = "NaN"%string.
Proof. vm_compute. repeat split; reflexivity. Qed.

(** v for the chain ids 1 and 137, and for 2^52 + 1, where the sum is
    rounded to the same number for both recovery ids. *)
Example v_cases :
  let v chainId recid :=
    number_add (number_add (number_mul (number_of_Z chainId) (number_of_Z 2))
                           (number_of_Z 35)) (number_of_Z recid) in
  integral_value (v 1 0) = Some 37 /\
  integral_value (v 137 1) = Some 310 /\
  integral_value (v (2 ^ 52 + 1) 0) = Some (2 ^ 53 + 36) /\
  integral_value (v (2 ^ 52 + 1) 1) = Some (2 ^ 53 + 36).
Proof. vm_compute. repeat split; reflexivity. Qed.

Example parseValue_kinds :
  parseValue "true" = VBool true /\
  parseValue "0.5" = VNum (S754_finite false 4503599627370496 (-53)) /\
  parseValue "0xZZ" = VStr "0xZZ" /\
  parseValue "" = VStr "" /\
  parseValue "https://mainnet.infura.io/v3/YOUR_KEY"
    = VStr "https://mainnet.infura.io/v3/YOUR_KEY".
Proof. vm_compute. repeat split; reflexivity. Qed.

Example parseInt16_cases :
  parseInt16 "ff" = Some 255 /\ parseInt16 "-f" = Some (-15) /\
  parseInt16 "0x" = None /\ parseInt16 "1g" = Some 1.
Proof. vm_compute. repeat split; reflexivity. Qed.

Example toString16_cases :
  toString16 0 = "0"%string /\ toString16 21000 = "5208"%string /\
  toString16 256 = "100"%string /\ toString16 (-255) = "-ff"%string.
Proof. vm_compute. repeat split; reflexivity. Qed.

(** The transfer of the README: 0.01 units to the sample recipient. *)
Example encodeTx_transfer :
  encodeTx 0 1000000000 21000 "0x8ba1f109551bD432803012645Ac136ddd64DBA72"
           (10 ^ 16) [] 1
  = [ []; [59; 154; 202; 0]; [82; 8];
      [139; 161; 241; 9; 85; 27; 212; 50; 128; 48; 18; 100; 90; 193; 54; 221;
       214; 77; 186; 114];
      [35; 134; 242; 111; 193; 0; 0]; []; [1]; []; [] ].
Proof. vm_compute. reflexivity. Qed.

Example value_in_wei_hundredth :
  value_in_wei (parseValue "0.01") = Ok (10 ^ 16).
Proof. vm_compute. reflexivity. Qed.

Example parseArgs_flags :
  match parseArgs ["--to=0xabc"; "--value"; "0.05"; "-n"; "extra"; "--rpc"] with
  | Ok r =>
      flags r !! "to" = Some (VStr "0xabc") /\
      flags r !! "value" = Some (VNum (parseFloat "0.05")) /\
      flags r !! "n" = Some (VStr "extra") /\
      flags r !! "rpc" = Some (VBool true) /\
      positional r = Some []
  | Throw _ => False
  end.
Proof. vm_compute. repeat split; reflexivity. Qed.

Example parseArgs_positional_replaced :
  parseArgs ["--_=1"; "stray"] = Throw "TypeError: result._.push is not a function".
Proof. vm_compute. reflexivity. Qed.

(** *** The guard on the recipient *)

Lemma isHexAddress_false to :
  re_hex_address to = false \/ length (Buffer_from_hex (slice_from 2 to)) <> 20%nat ->
  isHexAddress to = false.
Proof.
  intro Hbad. unfold isHexAddress.
  destruct Hbad as [-> | Hlen]; [reflexivity|].
  destruct (re_hex_address to); [|reflexivity]. cbn [negb].
  apply Nat.eqb_neq, Hlen.
Qed.

(** A recipient that passes the pattern decodes to 20 bytes: the second
    test of [isHexAddress] never decides. *)
Lemma Buffer_from_hex_length : forall s,
  forallb isHexDigit (list_ascii_of_string s) = true ->
  length (Buffer_from_hex s) = Nat.div (String.length s) 2.
Proof.
  induction s as [| a | a b s IH] using string_pair_ind; intro H.
  - reflexivity.
  - reflexivity.
  - cbn [list_ascii_of_string forallb] in H.
    apply andb_prop in H as [Ha H]. apply andb_prop in H as [Hb H].
    unfold isHexDigit in Ha, Hb. cbn [Buffer_from_hex String.length].
    destruct (digitIn 16 a); [|discriminate]. destruct (digitIn 16 b); [|discriminate].
    cbn [length]. rewrite (IH H).
    change (S (S (String.length s))) with (1 * 2 + String.length s)%nat.
    rewrite Nat.div_add_l by lia. reflexivity.
Qed.

Lemma test_0x_hex_inv count_ok s :
  test_0x_hex count_ok s = true ->
  exists r, s = String "0" (String "x" r) /\
            forallb isHexDigit (list_ascii_of_string r) = true /\
            count_ok (String.length r) = true.
Proof.
  unfold test_0x_hex. intro H.
  destruct s as [|c0 s]; [discriminate H|].
  destruct c0 as [[] [] [] [] [] [] [] []]; try discriminate H.
  destruct s as [|c1 s]; [discriminate H|].
  destruct c1 as [[] [] [] [] [] [] [] []]; try discriminate H.
  apply andb_prop in H as [Hd Hc]. exists s. split; [reflexivity|]. split; assumption.
Qed.

Lemma isHexAddress_pattern to : isHexAddress to = re_hex_address to.
Proof.
  unfold isHexAddress. destruct (re_hex_address to) eqn:Hre; [|reflexivity].
  apply test_0x_hex_inv in Hre as (r & -> & Hdigits & Hlen).
  apply Nat.eqb_eq in Hlen.
  cbn [negb slice_from]. rewrite Buffer_from_hex_length, Hlen by exact Hdigits.
  reflexivity.
Qed.

Lemma wallet_invalid_to (argv : gmap string value) (to : string) :
  argv !! "to" = Some (VStr to) ->
  re_hex_address to = false \/ length (Buffer_from_hex (slice_from 2 to)) <> 20%nat ->
  (forall address c, wallet argv <> Signs address c) /\
  (wallet argv = Exited Help \/
   (exists m, derive_account argv = Throw m /\ wallet argv = Uncaught m) \/
   wallet argv = Exited MissingFlags \/
   wallet argv = Exited InvalidTo).
Proof.
  intros Hto Hbad.
  assert (Hget : get argv "to" = VStr to) by (unfold get; rewrite Hto; reflexivity).
  assert (Hhex : isHexAddress_of (get argv "to") = false)
    by (rewrite Hget; apply isHexAddress_false, Hbad).
  assert (Hcases : wallet argv = Exited Help \/
                   (exists m, derive_account argv = Throw m /\ wallet argv = Uncaught m) \/
                   wallet argv = Exited MissingFlags \/
                   wallet argv = Exited InvalidTo).
  { unfold wallet.
    destruct (truthy (get argv "help") || truthy (get argv "--help")); [left; reflexivity|].
    destruct (derive_account argv) as [[privateKey address]|m].
    - rewrite Hhex. cbn [negb].
      destruct (negb (truthy (get argv "to")) || negb (truthy (get argv "value"))
                || negb (is_number (get argv "nonce"))); auto.
    - right. left. exists m. auto. }
  split; [|exact Hcases].
  intros address c Hs.
  destruct Hcases as [H | [(m & _ & H) | [H | H]]]; rewrite H in Hs; discriminate.
Qed.

(** *** Hex strings on the command line *)

Lemma isHexDigit_not_eq c : isHexDigit c = true -> Ascii.eqb c "=" = false.
Proof. destruct c as [[] [] [] [] [] [] [] []]; intro H; try reflexivity; discriminate H. Qed.

Lemma break_eq_hex : forall r,
  forallb isHexDigit (list_ascii_of_string r) = true -> break_eq r = (r, EmptyString).
Proof.
  induction r as [|c r IH]; intro H; [reflexivity|].
  cbn [list_ascii_of_string forallb] in H. apply andb_prop in H as [Hc Hr].
  cbn [break_eq]. rewrite (isHexDigit_not_eq c Hc), (IH Hr). reflexivity.
Qed.

Lemma parseValue_hex v : re_hex_string v = true -> parseValue v = VStr v.
Proof.
  intro H. unfold parseValue. rewrite H.
  apply test_0x_hex_inv in H as (r & -> & _). reflexivity.
Qed.

(** *** Binary64 rounding *)

Lemma digits2_pos_size p : digits2_pos p = Pos.size p.
Proof. induction p as [p IH|p IH|]; cbn; congruence. Qed.

Lemma digits2_pos_bounds p :
  2 ^ (Zpos (digits2_pos p) - 1) <= Zpos p < 2 ^ Zpos (digits2_pos p).
Proof.
  rewrite digits2_pos_size. split.
  - pose proof (Pos.size_le p) as H.
    apply Pos2Z.pos_le_pos in H. rewrite Pos2Z.inj_pow in H.
    change (Zpos p~0) with (2 * Zpos p) in H.
    replace (Zpos (Pos.size p)) with (Zpos (Pos.size p) - 1 + 1) in H by ring.
    rewrite Z.pow_add_r, Z.pow_1_r in H by lia. lia.
  - pose proof (Pos.size_gt p) as H.
    apply Pos2Z.pos_lt_pos in H. rewrite Pos2Z.inj_pow in H. exact H.
Qed.

Lemma digits2_pos_unique p d :
  2 ^ (d - 1) <= Zpos p < 2 ^ d -> Zpos (digits2_pos p) = d.
Proof.
  intros [Hlo Hhi]. pose proof (digits2_pos_bounds p) as [Blo Bhi].
  assert (0 < d).
  { destruct (Z.ltb_spec 0 d) as [|Hd]; [assumption|].
    destruct (Z.eq_dec d 0) as [->|]; [cbn in Hhi; lia|].
    rewrite Z.pow_neg_r in Hhi by lia. lia. }
  set (c := Zpos (digits2_pos p)) in *.
  destruct (Z.lt_trichotomy c d) as [Hlt|[Heq|Hgt]]; [|exact Heq|].
  - assert (2 ^ c <= 2 ^ (d - 1)) by (apply Z.pow_le_mono_r; lia). lia.
  - assert (2 ^ d <= 2 ^ (c - 1)) by (apply Z.pow_le_mono_r; lia). lia.
Qed.

Ltac bool_facts :=
  repeat match goal with
         | H : true = true <-> _ |- _ => pose proof (proj1 H eq_refl); clear H
         | H : false = true <-> ?P |- _ =>
             assert (~ P) by (let K := fresh in intro K; discriminate (proj2 H K)); clear H
         end.

Ltac bool_goal :=
  split; [intro; first [discriminate | lia] | intro; first [reflexivity | exfalso; lia]].

(** One shift to the right halves the rational that is located. *)
Lemma located_shr_1 N D mrs : located N D mrs -> located N (2 * D) (shr_1 mrs).
Proof.
  destruct mrs as [m r s]. unfold located. cbn [shr_m shr_r shr_s].
  intros (Hm & Hf & Hr & Hs).
  destruct m as [|p|p]; [| |lia].
  - cbn [shr_1 shr_m shr_r shr_s]. destruct r, s; cbn [orb]; bool_facts;
      (split; [lia|split; [lia|split; bool_goal]]).
  - destruct p as [p|p|]; cbn [shr_1 shr_m shr_r shr_s];
      try change (Zpos p~1) with (2 * Zpos p + 1) in *;
      try change (Zpos p~0) with (2 * Zpos p) in *;
      destruct r, s; cbn [orb]; bool_facts;
      (split; [lia|split; [lia|split; bool_goal]]).
Qed.

Lemma located_iter N p : forall D mrs,
  located N D mrs -> located N (D * 2 ^ Zpos p) (SpecFloat.iter_pos shr_1 p mrs).
Proof.
  induction p as [p IH|p IH|]; intros D mrs H; cbn [SpecFloat.iter_pos].
  - replace (D * 2 ^ Zpos p~1) with (2 * D * 2 ^ Zpos p * 2 ^ Zpos p).
    + apply IH, IH, located_shr_1, H.
    + change (Zpos p~1) with (2 * Zpos p + 1).
      rewrite Z.pow_add_r, Z.pow_1_r by lia.
      replace (2 * Zpos p) with (Zpos p + Zpos p) by ring.
      rewrite Z.pow_add_r by lia. ring.
  - replace (D * 2 ^ Zpos p~0) with (D * 2 ^ Zpos p * 2 ^ Zpos p).
    + apply IH, IH, H.
    + change (Zpos p~0) with (2 * Zpos p).
      replace (2 * Zpos p) with (Zpos p + Zpos p) by ring.
      rewrite Z.pow_add_r by lia. ring.
  - rewrite Z.pow_1_r, Z.mul_comm. apply located_shr_1, H.
Qed.

Lemma located_shr N D mrs e n :
  0 <= n -> located N D mrs ->
  located N (D * 2 ^ n) (fst (shr mrs e n)) /\ snd (shr mrs e n) = e + n.
Proof.
  intros Hn H. destruct n as [|p|p]; [| |lia]; cbn [shr fst snd].
  - rewrite Z.mul_1_r, Z.add_0_r. split; [exact H | reflexivity].
  - split; [apply located_iter, H | reflexivity].
Qed.

Lemma located_exact m D : 0 <= m -> 0 < D ->
  located (m * D) D (shr_record_of_loc m loc_Exact).
Proof.
  intros Hm HD. unfold located. cbn [shr_record_of_loc shr_m shr_r shr_s].
  rewrite Z.sub_diag. split; [exact Hm|]. split; [lia|]. split; bool_goal.
Qed.

(** Rounding to nearest moves a located rational by at most one half,
    and not at all when it is an integer. *)
Lemma round_located N D mrs :
  0 < D -> located N D mrs ->
  let M := round_nearest_even (shr_m mrs) (loc_of_shr_record mrs) in
  shr_m mrs <= M <= shr_m mrs + 1 /\
  2 * N - D <= 2 * (M * D) <= 2 * N + D /\
  (N = shr_m mrs * D -> M = shr_m mrs).
Proof.
  intros HD. destruct mrs as [m r s]. unfold located.
  cbn [shr_m shr_r shr_s loc_of_shr_record].
  intros (Hm & Hf & Hr & Hs).
  destruct r, s; bool_facts; cbn [round_nearest_even];
    try destruct (Z.even m); split; try lia; split; try lia.
Qed.

Lemma fexp_normal z : -1074 <= z - 53 -> fexp prec emax z = z - 53.
Proof. unfold fexp, emin, prec, emax. lia. Qed.

Lemma shr_m_of_loc m l : shr_m (shr_record_of_loc m l) = m.
Proof. destruct l as [|[| |]]; reflexivity. Qed.

Lemma located_div N D mrs :
  0 < D -> located N D mrs -> N mod D = 0 -> N = shr_m mrs * D.
Proof.
  intros HD (Hm & Hf & _) Hmod.
  apply Z.div_exact in Hmod; [|lia].
  set (q := N / D) in *. assert (shr_m mrs = q) by nia. subst q. lia.
Qed.

(** The rounding of N / D * 2^e, given with a significand of 53 bits or
    more in the normal range: the result is finite, its relative error
    is at most 2^-53, and it is exact when N / D * 2^e needs no more
    than 53 bits. *)
Lemma binary_round_aux_located s m e l N D :
  0 < D -> located N D (shr_record_of_loc (Zpos m) l) ->
  let k1 := Zpos (digits2_pos m) - 53 in
  0 <= k1 -> -1074 <= e + k1 -> e + k1 <= 970 ->
  exists (M : positive) (k : Z),
    binary_round_aux prec emax s (Zpos m) e l = S754_finite s M (e + k) /\
    k1 <= k <= k1 + 1 /\
    2 ^ 52 <= Zpos M < 2 ^ 53 /\
    2 ^ 52 * (D * 2 ^ k1) <= N /\
    2 ^ 53 * Z.abs (Zpos M * (D * 2 ^ k) - N) <= N /\
    (N mod (D * 2 ^ k1) = 0 -> k = k1 /\ Zpos M * (D * 2 ^ k1) = N).
Proof.
  intros HD Hloc k1 Hk1 Hlo Hhi.
  pose proof (digits2_pos_bounds m) as Hdig.
  replace (Zpos (digits2_pos m) - 1) with (52 + k1) in Hdig by (unfold k1; ring).
  replace (Zpos (digits2_pos m)) with (53 + k1) in Hdig by (unfold k1; ring).
  rewrite !Z.pow_add_r in Hdig by lia.
  assert (Hpk : 0 < 2 ^ k1) by (apply Z.pow_pos_nonneg; lia).
  unfold binary_round_aux, shr_fexp. cbn [Zdigits2].
  rewrite fexp_normal by (unfold k1 in *; lia).
  replace (Zpos (digits2_pos m) + e - 53 - e) with k1 by (unfold k1; ring).
  destruct (located_shr N D _ e k1 Hk1 Hloc) as [H1 He1].
  destruct (shr (shr_record_of_loc (Zpos m) l) e k1) as [mrs1 e1].
  cbn [fst snd] in H1, He1. subst e1.
  set (Dk := D * 2 ^ k1) in *.
  assert (HDk : 0 < Dk) by (unfold Dk; lia).
  pose proof (round_located N Dk mrs1 HDk H1) as (HM & Herr & Hex).
  pose proof (fun Hmod => located_div N Dk mrs1 HDk H1 Hmod) as Hdiv.
  destruct Hloc as (_ & Hf0 & _). rewrite shr_m_of_loc in Hf0.
  destruct H1 as (_ & Hf1 & _).
  set (m1 := shr_m mrs1) in *.
  set (M' := round_nearest_even m1 (loc_of_shr_record mrs1)) in *.
  assert (Hbase : 2 ^ 52 * Dk <= N) by (unfold Dk; nia).
  assert (Hm1 : 2 ^ 52 <= m1 < 2 ^ 53) by (unfold Dk in *; nia).
  destruct (Z.ltb_spec M' (2 ^ 53)) as [Hsmall|Hbig].
  - destruct M' as [|M|M] eqn:EM; [lia| |lia].
    exists M, k1. cbn [Zdigits2].
    rewrite (digits2_pos_unique M 53) by (cbn; lia).
    rewrite fexp_normal by lia.
    replace (53 + (e + k1) - 53 - (e + k1)) with 0 by ring.
    cbn [shr shr_record_of_loc shr_m].
    replace (e + k1 <=? emax - prec) with true
      by (symmetry; apply Z.leb_le; unfold emax, prec; lia).
    split; [reflexivity|]. split; [lia|]. split; [lia|]. split; [exact Hbase|].
    split; [fold Dk; lia|].
    intro Hmod. split; [reflexivity|]. fold Dk. rewrite (Hex (Hdiv Hmod)).
    symmetry. apply Hdiv, Hmod.
  - assert (EM : M' = 2 ^ 53) by lia.
    exists (Z.to_pos (2 ^ 52)), (k1 + 1).
    rewrite EM. change (2 ^ 53) with (Zpos (Z.to_pos (2 ^ 53))) at 1 2.
    cbn [Zdigits2].
    change (Zpos (digits2_pos (Z.to_pos (2 ^ 53)))) with 54.
    rewrite fexp_normal by lia.
    replace (54 + (e + k1) - 53 - (e + k1)) with 1 by ring.
    cbn [shr shr_record_of_loc SpecFloat.iter_pos].
    change (shr_1 {| shr_m := Zpos (Z.to_pos (2 ^ 53)); shr_r := false; shr_s := false |})
      with {| shr_m := Zpos (Z.to_pos (2 ^ 52)); shr_r := false; shr_s := false |}.
    cbn [shr_m].
    replace (e + k1 + 1 <=? emax - prec) with true
      by (symmetry; apply Z.leb_le; unfold emax, prec; lia).
    split; [f_equal; ring|]. split; [lia|]. split; [cbn; lia|].
    split; [exact Hbase|]. split.
    + rewrite Z.pow_add_r, Z.pow_1_r by lia.
      change (Zpos (Z.to_pos (2 ^ 52))) with (2 ^ 52).
      replace (2 ^ 52 * (D * (2 ^ k1 * 2))) with (2 ^ 53 * Dk)
        by (unfold Dk; change (2 ^ 53) with (2 ^ 52 * 2); ring).
      rewrite EM in Herr. lia.
    + intro Hmod. exfalso. pose proof (Hex (Hdiv Hmod)). lia.
Qed.

Local Open Scope Q_scope.

Lemma pow2_pos e : 0 < 2 ^ e.
Proof. apply Qpower_0_lt. reflexivity. Qed.

Lemma pow2_add a b : 2 ^ (a + b) == 2 ^ a * 2 ^ b.
Proof. apply Qpower_plus. discriminate. Qed.

Lemma inject_pow2 k : (0 <= k)%Z -> inject_Z (2 ^ k) == 2 ^ k.
Proof. intro H. rewrite Zpower_Qpower by exact H. reflexivity. Qed.

Lemma pow2_le a b : (a <= b)%Z -> 2 ^ a <= 2 ^ b.
Proof. intro H. apply Qpower_le_compat_l; [exact H | discriminate]. Qed.

Lemma inject_Z_pos z : (0 < z)%Z -> 0 < inject_Z z.
Proof. intro H. change 0 with (inject_Z 0). rewrite <- Zlt_Qlt. exact H. Qed.

(** The same on values, as rationals. *)
Lemma binary_round_aux_value s m e l N D :
  (0 < D)%Z -> located N D (shr_record_of_loc (Zpos m) l) ->
  let k1 := (Zpos (digits2_pos m) - 53)%Z in
  (0 <= k1)%Z -> (-1074 <= e + k1)%Z -> (e + k1 <= 970)%Z ->
  let x := inject_Z N / inject_Z D * 2 ^ e in
  exists M E,
    binary_round_aux prec emax s (Zpos m) e l = S754_finite s M E /\
    (2 ^ 52 <= Zpos M < 2 ^ 53)%Z /\ (e + k1 <= E <= e + k1 + 1)%Z /\
    0 < x /\
    (exists r, fval M E == x * r /\ 1 - ulp_half <= r <= 1 + ulp_half) /\
    (representable x -> fval M E == x).
Proof.
  intros HD Hloc k1 Hk1 Hlo Hhi x.
  destruct (binary_round_aux_located s m e l N D HD Hloc Hk1 Hlo Hhi)
    as (M & k & Hres & Hk & HM & Hbase & Herr & Hexact).
  fold k1 in Hk, Hbase, Hexact.
  assert (HN : (0 < N)%Z).
  { assert (0 < 2 ^ k1)%Z by (apply Z.pow_pos_nonneg; lia). nia. }
  assert (HDq : 0 < inject_Z D) by (apply inject_Z_pos, HD).
  assert (HNq : 0 < inject_Z N) by (apply inject_Z_pos, HN).
  pose proof (pow2_pos e) as Hpe. pose proof (pow2_pos k) as Hpk.
  assert (Hx : 0 < x).
  { unfold x. apply Qmult_lt_0_compat; [|exact Hpe].
    apply Qlt_shift_div_l; [exact HDq|]. lra. }
  exists M, (e + k)%Z. split; [exact Hres|]. split; [exact HM|]. split; [lia|].
  split; [exact Hx|].
  assert (Hval : fval M (e + k) == x * (inject_Z (Zpos M * (D * 2 ^ k)) / inject_Z N)).
  { unfold fval, x. rewrite pow2_add, !inject_Z_mult, inject_pow2 by lia.
    field. split; lra. }
  split.
  - exists (inject_Z (Zpos M * (D * 2 ^ k)) / inject_Z N). split; [exact Hval|].
    assert (Hu : ulp_half == 1 # 9007199254740992) by reflexivity.
    set (A := (Zpos M * (D * 2 ^ k))%Z) in *.
    assert (H1 : (2 ^ 53 * A <= 2 ^ 53 * N + N)%Z) by lia.
    assert (H2 : (2 ^ 53 * N <= 2 ^ 53 * A + N)%Z) by lia.
    rewrite Zle_Qle in H1, H2.
    rewrite inject_Z_plus, !inject_Z_mult in H1, H2.
    change (inject_Z (2 ^ 53)) with (9007199254740992 # 1) in H1, H2.
    split.
    + apply Qle_shift_div_l; [exact HNq|]. rewrite Hu. lra.
    + apply Qle_shift_div_r; [exact HNq|]. rewrite Hu. lra.
  - intros (M0 & E0 & HM0 & Hx0).
    assert (Hdiv : (N mod (D * 2 ^ k1) = 0)%Z).
    { assert (Hq : inject_Z N == inject_Z (D * M0) * 2 ^ (E0 - e)).
      { unfold x in Hx0. unfold Zminus. rewrite pow2_add, Qpower_opp, inject_Z_mult.
        apply (Qmult_inj_r _ _ (2 ^ e / inject_Z D)).
        - intro K. assert (0 < 2 ^ e / inject_Z D)
            by (apply Qlt_shift_div_l; [exact HDq | lra]). lra.
        - transitivity (inject_Z M0 * 2 ^ E0); [rewrite <- Hx0; field; lra|].
          field. split; lra. }
      assert (Hj : (k1 <= E0 - e)%Z).
      { destruct (Z.le_gt_cases k1 (E0 - e)) as [|Hlt]; [assumption|exfalso].
        assert (Hp : 2 ^ (E0 - e + 1) <= 2 ^ k1) by (apply pow2_le; lia).
        rewrite pow2_add in Hp. change (2 ^ 1) with 2 in Hp.
        assert (Hb : inject_Z (2 ^ 52 * D) * 2 ^ k1 <= inject_Z N).
        { rewrite <- inject_pow2, <- inject_Z_mult by lia. rewrite <- Zle_Qle.
          rewrite <- Z.mul_assoc. exact Hbase. }
        assert (Hc : inject_Z (D * M0) < 2 * inject_Z (2 ^ 52 * D)).
        { change 2 with (inject_Z 2). rewrite <- inject_Z_mult, <- Zlt_Qlt.
          change (2 ^ 53)%Z with (2 * 2 ^ 52)%Z in HM0. nia. }
        pose proof (pow2_pos (E0 - e)). pose proof (pow2_pos k1).
        assert (H52 : 0 < inject_Z (2 ^ 52 * D)) by (apply inject_Z_pos; lia).
        assert (inject_Z (D * M0) * 2 ^ (E0 - e)
                < 2 * inject_Z (2 ^ 52 * D) * 2 ^ (E0 - e))
          by (apply Qmult_lt_compat_r; assumption).
        assert (inject_Z (2 ^ 52 * D) * (2 ^ (E0 - e) * 2)
                <= inject_Z (2 ^ 52 * D) * 2 ^ k1)
          by (apply Qmult_le_l; assumption).
        lra. }
      rewrite <- inject_pow2, <- inject_Z_mult in Hq by lia.
      apply (proj1 (inject_Z_injective _ _)) in Hq. rewrite Hq.
      replace (E0 - e)%Z with (E0 - e - k1 + k1)%Z by ring.
      rewrite Z.pow_add_r by lia.
      replace (D * M0 * (2 ^ (E0 - e - k1) * 2 ^ k1))%Z
        with (M0 * 2 ^ (E0 - e - k1) * (D * 2 ^ k1))%Z by ring.
      apply Z.mod_mul. assert (0 < 2 ^ k1)%Z by (apply Z.pow_pos_nonneg; lia). lia. }
    destruct (Hexact Hdiv) as [-> HA]. rewrite Hval, HA. field. lra.
Qed.

Lemma representable_eq x y : x == y -> representable x -> representable y.
Proof. intros E (M0 & E0 & H & Hx). exists M0, E0. split; [exact H|]. rewrite <- E. exact Hx. Qed.

Lemma pos_iter_xO m d : Zpos (Pos.iter xO m d) = (Zpos m * 2 ^ Zpos d)%Z.
Proof.
  induction d as [|d IH] using Pos.peano_ind.
  - cbn [Pos.iter]. rewrite Z.pow_1_r. change (Zpos m~0) with (2 * Zpos m)%Z. ring.
  - rewrite Pos.iter_succ, Pos2Z.inj_succ, Z.pow_succ_r by lia.
    change (Zpos (Pos.iter xO m d)~0) with (2 * Zpos (Pos.iter xO m d))%Z.
    rewrite IH. ring.
Qed.

Lemma shl_align_spec m e e' :
  snd (shl_align m e e') = Z.min e e' /\
  Zpos (fst (shl_align m e e')) = (Zpos m * 2 ^ (e - Z.min e e'))%Z.
Proof.
  unfold shl_align. destruct (e' - e)%Z as [|d|d] eqn:Hd; cbn [fst snd].
  - replace (Z.min e e') with e by lia. rewrite Z.sub_diag. split; [reflexivity | ring].
  - replace (Z.min e e') with e by lia. rewrite Z.sub_diag. split; [reflexivity | ring].
  - replace (Z.min e e') with e' by lia. split; [reflexivity|].
    rewrite pos_iter_xO. f_equal. f_equal. lia.
Qed.

Lemma digits2_pos_range m a b :
  (0 <= a)%Z -> (2 ^ a <= Zpos m < 2 ^ b)%Z ->
  (a < Zpos (digits2_pos m) <= b)%Z.
Proof.
  intros Ha [Hlo Hhi]. pose proof (digits2_pos_bounds m) as [Blo Bhi].
  set (d := Zpos (digits2_pos m)) in *. split.
  - destruct (Z.lt_ge_cases a d) as [|Hge]; [assumption|exfalso].
    assert (2 ^ d <= 2 ^ a)%Z by (apply Z.pow_le_mono_r; lia). lia.
  - destruct (Z.le_gt_cases d b) as [|Hgt]; [assumption|exfalso].
    assert (0 <= b)%Z.
    { destruct (Z.le_gt_cases 0 b); [assumption|]. rewrite Z.pow_neg_r in Hhi by lia. lia. }
    assert (2 ^ b <= 2 ^ (d - 1))%Z by (apply Z.pow_le_mono_r; lia). lia.
Qed.

Lemma digits2_pos_shift m mz j :
  (0 <= j)%Z -> Zpos mz = (Zpos m * 2 ^ j)%Z ->
  Zpos (digits2_pos mz) = (Zpos (digits2_pos m) + j)%Z.
Proof.
  intros Hj E. apply digits2_pos_unique. rewrite E.
  pose proof (digits2_pos_bounds m) as [Blo Bhi].
  assert (0 < 2 ^ j)%Z by (apply Z.pow_pos_nonneg; lia).
  replace (Zpos (digits2_pos m) + j - 1)%Z with (Zpos (digits2_pos m) - 1 + j)%Z by ring.
  rewrite !Z.pow_add_r by lia. nia.
Qed.

Lemma binary_round_value s m e :
  let d := Zpos (digits2_pos m) in
  (-1074 <= d + e - 53)%Z -> (d + e - 53 <= 970)%Z ->
  let x := inject_Z (Zpos m) * 2 ^ e in
  exists M E,
    binary_round prec emax s m e = S754_finite s M E /\
    (2 ^ 52 <= Zpos M < 2 ^ 53)%Z /\ (d + e - 53 <= E <= d + e - 52)%Z /\
    (exists r, fval M E == x * r /\ 1 - ulp_half <= r <= 1 + ulp_half) /\
    (representable x -> fval M E == x).
Proof.
  intros d Hlo Hhi x. unfold binary_round. fold d.
  rewrite fexp_normal by exact Hlo.
  destruct (shl_align_spec m e (d + e - 53)) as [Hez Hmz].
  destruct (shl_align m e (d + e - 53)) as [mz ez]. cbn [fst snd] in Hez, Hmz.
  assert (Hj : (0 <= e - ez)%Z) by lia.
  pose proof (digits2_pos_shift m mz (e - ez) Hj) as Hdz.
  rewrite <- Hez in Hmz. specialize (Hdz Hmz). fold d in Hdz.
  assert (Hloc : located (Zpos mz) 1 (shr_record_of_loc (Zpos mz) loc_Exact)).
  { rewrite <- (Z.mul_1_r (Zpos mz)) at 1. apply located_exact; lia. }
  destruct (binary_round_aux_value s mz ez loc_Exact (Zpos mz) 1 eq_refl Hloc)
    as (M & E & Hres & HM & HE & _ & Hr & Hexact); try lia.
  assert (Hxx : inject_Z (Zpos mz) / inject_Z 1 * 2 ^ ez == x).
  { unfold x. rewrite Hmz, inject_Z_mult, inject_pow2 by exact Hj.
    replace e with (e - ez + ez)%Z at 2 by ring. rewrite pow2_add.
    change (inject_Z 1) with 1. field. }
  exists M, E. split; [exact Hres|]. split; [exact HM|]. split; [lia|]. split.
  - destruct Hr as (r & Hv & Hb). exists r. rewrite <- Hxx. split; assumption.
  - intro Hx. rewrite <- Hxx. apply Hexact.
    apply (representable_eq x); [symmetry; exact Hxx | exact Hx].
Qed.

(** Product, quotient and sum of positive numbers: the exact result,
    rounded once. *)
Lemma SFmul_value M1 E1 M2 E2 :
  (2 ^ 52 <= Zpos M1 < 2 ^ 53)%Z -> (2 ^ 52 <= Zpos M2 < 2 ^ 53)%Z ->
  (-1074 <= E1 + E2 + 52)%Z -> (E1 + E2 + 53 <= 970)%Z ->
  let x := fval M1 E1 * fval M2 E2 in
  exists M E,
    SFmul prec emax (S754_finite false M1 E1) (S754_finite false M2 E2)
      = S754_finite false M E /\
    (2 ^ 52 <= Zpos M < 2 ^ 53)%Z /\ (E1 + E2 + 52 <= E <= E1 + E2 + 54)%Z /\
    (exists r, fval M E == x * r /\ 1 - ulp_half <= r <= 1 + ulp_half) /\
    (representable x -> fval M E == x).
Proof.
  intros H1 H2 Hlo Hhi x. cbn [SFmul xorb].
  assert (Hd : (104 < Zpos (digits2_pos (M1 * M2)) <= 106)%Z).
  { apply digits2_pos_range; [lia|]. rewrite Pos2Z.inj_mul.
    change (2 ^ 104)%Z with (2 ^ 52 * 2 ^ 52)%Z.
    change (2 ^ 106)%Z with (2 ^ 53 * 2 ^ 53)%Z. nia. }
  assert (Hloc : located (Zpos (M1 * M2)) 1
                   (shr_record_of_loc (Zpos (M1 * M2)) loc_Exact)).
  { rewrite <- (Z.mul_1_r (Zpos (M1 * M2))) at 1. apply located_exact; lia. }
  destruct (binary_round_aux_value false (M1 * M2) (E1 + E2) loc_Exact
              (Zpos (M1 * M2)) 1 eq_refl Hloc)
    as (M & E & Hres & HM & HE & _ & Hr & Hexact); try lia.
  assert (Hxx : inject_Z (Zpos (M1 * M2)) / inject_Z 1 * 2 ^ (E1 + E2) == x).
  { unfold x, fval. rewrite Pos2Z.inj_mul, inject_Z_mult, pow2_add.
    change (inject_Z 1) with 1. field. }
  exists M, E. split; [exact Hres|]. split; [exact HM|]. split; [lia|]. split.
  - destruct Hr as (r & Hv & Hb). exists r. rewrite <- Hxx. split; assumption.
  - intro Hx. rewrite <- Hxx. apply Hexact.
    apply (representable_eq x); [symmetry; exact Hxx | exact Hx].
Qed.

(** The location that a division with remainder computes. *)
Lemma located_new_location q r D :
  (0 <= q)%Z -> (0 < D)%Z -> (0 <= r < D)%Z ->
  located (q * D + r) D (shr_record_of_loc q (new_location D r)).
Proof.
  intros Hq HD Hr. unfold located. rewrite shr_m_of_loc.
  replace (q * D + r - q * D)%Z with r by ring.
  split; [exact Hq|]. split; [exact Hr|].
  unfold new_location. destruct (Z.even D) eqn:Heven.
  - unfold new_location_even. destruct (Z.eqb_spec r 0) as [->|Hr0].
    + cbn. split; bool_goal.
    + destruct (Z.compare_spec (2 * r) D); cbn; split; bool_goal.
  - assert (Hodd : exists k, D = (2 * k + 1)%Z).
    { apply Z.odd_spec. rewrite <- Z.negb_even, Heven. reflexivity. }
    destruct Hodd as [k ->].
    unfold new_location_odd. destruct (Z.eqb_spec r 0) as [->|Hr0].
    + cbn. split; bool_goal.
    + destruct (Z.compare_spec (2 * r + 1) (2 * k + 1)); cbn; split; bool_goal.
Qed.

Lemma SFdiv_value p t :
  let d1 := Zpos (digits2_pos p) in
  let d2 := Zpos (digits2_pos t) in
  (-1074 <= d1 - d2 - 53)%Z -> (d1 - d2 - 52 <= 970)%Z ->
  let x := inject_Z (Zpos p) / inject_Z (Zpos t) in
  exists M E,
    SFdiv prec emax (S754_finite false p 0) (S754_finite false t 0)
      = S754_finite false M E /\
    (2 ^ 52 <= Zpos M < 2 ^ 53)%Z /\ (-1074 <= E <= d1 - d2 - 51)%Z /\
    (exists r, fval M E == x * r /\ 1 - ulp_half <= r <= 1 + ulp_half) /\
    (representable x -> fval M E == x).
Proof.
  intros d1 d2 Hlo Hhi x. cbn [SFdiv xorb]. unfold SFdiv_core_binary.
  cbn [Zdigits2]. fold d1 d2. rewrite !Z.add_0_r, Z.sub_diag.
  rewrite fexp_normal by exact Hlo.
  set (e' := Z.min (d1 - d2 - 53) 0).
  set (s := (0 - e')%Z).
  assert (Hs : (0 <= s)%Z) by (unfold s, e'; lia).
  set (m' := match s with Zpos _ => Z.shiftl (Zpos p) s | Z0 => Zpos p | Zneg _ => 0%Z end).
  assert (Hm' : m' = (Zpos p * 2 ^ s)%Z).
  { unfold m'. destruct s as [|sp|sp] eqn:Es; [cbn; lia | | lia].
    apply Z.shiftl_mul_pow2. lia. }
  pose proof (digits2_pos_bounds p) as [P1 P2]. fold d1 in P1, P2.
  pose proof (digits2_pos_bounds t) as [T1 T2]. fold d2 in T1, T2.
  assert (Hps : (0 < 2 ^ s)%Z) by (apply Z.pow_pos_nonneg; lia).
  pose proof (Z_div_mod m' (Zpos t) eq_refl) as Hdm.
  unfold Z.div_eucl at 1 in Hdm. fold (Z.div_eucl m' (Zpos t)) in Hdm.
  destruct (Z.div_eucl m' (Zpos t)) as [q0 r0]. destruct Hdm as [Hdiv Hr0].
  assert (Hd1 : (1 <= d1)%Z) by (unfold d1; lia).
  assert (Hd2 : (1 <= d2)%Z) by (unfold d2; lia).
  assert (Hbig : (2 ^ 52 * 2 ^ d2 <= m')%Z).
  { rewrite Hm', <- Z.pow_add_r by lia.
    apply Z.le_trans with (2 ^ (d1 - 1) * 2 ^ s)%Z; [|nia].
    rewrite <- Z.pow_add_r by lia. apply Z.pow_le_mono_r; [lia|]. unfold s, e'. lia. }
  assert (Hsmall : (m' < 2 ^ (d1 + s - d2 + 1) * 2 ^ (d2 - 1))%Z).
  { rewrite Hm', <- Z.pow_add_r by (unfold s, e'; lia).
    replace (d1 + s - d2 + 1 + (d2 - 1))%Z with (d1 + s)%Z by ring.
    rewrite Z.pow_add_r by lia. nia. }
  assert (Hq52 : (2 ^ 52 <= q0)%Z) by nia.
  destruct q0 as [|q|q]; [lia| |lia].
  assert (Hdq : (52 < Zpos (digits2_pos q) <= d1 + s - d2 + 1)%Z).
  { apply digits2_pos_range; [lia|]. split; [exact Hq52|].
    assert (0 < 2 ^ (d2 - 1))%Z by (apply Z.pow_pos_nonneg; lia).
    assert (0 <= 2 ^ (d1 + s - d2 + 1))%Z by (apply Z.pow_nonneg; lia).
    nia. }
  assert (Hloc : located m' (Zpos t) (shr_record_of_loc (Zpos q) (new_location (Zpos t) r0))).
  { rewrite Hdiv, (Z.mul_comm (Zpos t)). apply located_new_location; lia. }
  destruct (binary_round_aux_value false q e' (new_location (Zpos t) r0) m' (Zpos t)
              eq_refl Hloc)
    as (M & E & Hres & HM & HE & _ & Hr & Hexact);
    try (unfold s, e' in *; lia).
  assert (Hxx : inject_Z m' / inject_Z (Zpos t) * 2 ^ e' == x).
  { unfold x. rewrite Hm', inject_Z_mult, inject_pow2 by exact Hs.
    unfold s. unfold Z.sub at 1. rewrite Z.add_0_l, Qpower_opp.
    pose proof (pow2_pos e'). assert (0 < inject_Z (Zpos t)) by (apply inject_Z_pos; lia).
    field. split; lra. }
  exists M, E. split; [exact Hres|]. split; [exact HM|].
  split; [unfold s, e' in *; lia|]. split.
  - destruct Hr as (r & Hv & Hb). exists r. rewrite <- Hxx. split; assumption.
  - intro Hx. rewrite <- Hxx. apply Hexact.
    apply (representable_eq x); [symmetry; exact Hxx | exact Hx].
Qed.

Lemma integral_value_fval M E z :
  fval M E == inject_Z z -> integral_value (S754_finite false M E) = Some z.
Proof.
  unfold fval, integral_value. intro H. cbn [cond_Zopp].
  destruct (Z.leb_spec 0 E) as [HE|HE].
  - rewrite <- inject_pow2, <- inject_Z_mult in H by exact HE.
    apply (proj1 (inject_Z_injective _ _)) in H. congruence.
  - assert (Hz : Zpos M = (z * 2 ^ (- E))%Z).
    { apply (proj1 (inject_Z_injective _ _)).
      rewrite inject_Z_mult, inject_pow2, <- H, Qpower_opp by lia.
      pose proof (pow2_pos E). field. lra. }
    assert (0 < 2 ^ (- E))%Z by (apply Z.pow_pos_nonneg; lia).
    rewrite Hz, Z.mod_mul, Z.div_mul by lia. reflexivity.
Qed.

Lemma representable_dyadic M0 j :
  (0 < M0 < 2 ^ 53)%Z -> (0 <= j)%Z -> representable (inject_Z (M0 * 2 ^ j) * 2 ^ 0).
Proof.
  intros HM Hj. exists M0, j. split; [exact HM|].
  rewrite inject_Z_mult, inject_pow2 by exact Hj. change (2 ^ 0) with 1. ring.
Qed.

(** An integer with at most 53 significant bits is a number. *)
Lemma number_of_Z_exact M0 j :
  (0 < M0 < 2 ^ 53)%Z -> (0 <= j <= 970)%Z ->
  exists M E,
    number_of_Z (M0 * 2 ^ j) = S754_finite false M E /\
    (2 ^ 52 <= Zpos M < 2 ^ 53)%Z /\ (-52 <= E <= j)%Z /\
    fval M E == inject_Z (M0 * 2 ^ j).
Proof.
  intros HM Hj. unfold number_of_Z.
  assert (Hpj : (0 < 2 ^ j)%Z) by (apply Z.pow_pos_nonneg; lia).
  destruct (M0 * 2 ^ j)%Z as [|z|z] eqn:Ez; [nia| |nia].
  cbn [binary_normalize].
  assert (Hd : (0 < Zpos (digits2_pos z) <= 53 + j)%Z).
  { apply digits2_pos_range; [lia|]. rewrite <- Ez, Z.pow_add_r by lia. nia. }
  destruct (binary_round_value false z 0) as (M & E & Hres & HMb & HE & _ & Hexact);
    try lia.
  exists M, E. split; [exact Hres|]. split; [exact HMb|].
  assert (Hv : fval M E == inject_Z (Zpos z)).
  { rewrite Hexact; [change (2 ^ 0) with 1; ring|].
    rewrite <- Ez. apply representable_dyadic; lia. }
  split; [|exact Hv].
  split; [lia|].
  destruct (Z.le_gt_cases E j) as [|Hgt]; [assumption|exfalso].
  unfold fval in Hv.
  assert (Hp : 2 ^ (j + 1) <= 2 ^ E) by (apply pow2_le; lia).
  rewrite pow2_add, <- inject_pow2 in Hp by lia. change (2 ^ 1) with 2 in Hp.
  assert (H1 : inject_Z (Zpos z) < inject_Z (2 ^ 53) * inject_Z (2 ^ j)).
  { rewrite <- inject_Z_mult, <- Zlt_Qlt, <- Ez. nia. }
  assert (H2 : inject_Z (2 ^ 52) <= inject_Z (Zpos M)) by (rewrite <- Zle_Qle; lia).
  change (inject_Z (2 ^ 53)) with (2 * inject_Z (2 ^ 52)) in H1.
  assert (0 < inject_Z (2 ^ j)) by (apply inject_Z_pos; lia).
  assert (0 < inject_Z (2 ^ 52)) by reflexivity.
  assert (inject_Z (2 ^ 52) * (inject_Z (2 ^ j) * 2) <= inject_Z (Zpos M) * 2 ^ E).
  { apply Qle_trans with (inject_Z (2 ^ 52) * 2 ^ E).
    - apply Qmult_le_l; assumption.
    - apply Qmult_le_compat_r; [exact H2 | apply Qlt_le_weak, pow2_pos]. }
  lra.
Qed.

(** [Math.floor] and [BigInt] on a positive number. *)
Lemma floor_BigInt M E :
  (Zpos M < 2 ^ 53)%Z -> (E <= 970)%Z ->
  exists W,
    BigInt_of_number (Math_floor (S754_finite false M E)) = Ok W /\
    inject_Z W <= fval M E < inject_Z W + 1.
Proof.
  intros HM HE. unfold Math_floor, BigInt_of_number. cbn [cond_Zopp].
  set (z := if (0 <=? E)%Z then (Zpos M * 2 ^ E)%Z else (Zpos M / 2 ^ (- E))%Z).
  assert (Hz : inject_Z z <= fval M E < inject_Z z + 1 /\
               exists M0 j, (z = 0%Z \/ 0 < M0 < 2 ^ 53)%Z /\ (0 <= j <= 970)%Z /\
                            z = (M0 * 2 ^ j)%Z).
  { unfold z, fval. destruct (Z.leb_spec 0 E) as [H0|H0].
    - split.
      + rewrite inject_Z_mult, inject_pow2 by exact H0. lra.
      + exists (Zpos M), E. split; [right; lia|]. split; [lia | reflexivity].
    - assert (Hp : (0 < 2 ^ (- E))%Z) by (apply Z.pow_pos_nonneg; lia).
      pose proof (Z.div_mod (Zpos M) (2 ^ (- E))) as Hdm.
      pose proof (Z.mod_pos_bound (Zpos M) (2 ^ (- E)) Hp) as Hmod.
      set (q := (Zpos M / 2 ^ (- E))%Z) in *. set (r := (Zpos M mod 2 ^ (- E))%Z) in *.
      split.
      + assert (Hq : inject_Z (Zpos M) == (inject_Z q * inject_Z (2 ^ (- E)) + inject_Z r)).
        { rewrite <- inject_Z_mult, <- inject_Z_plus. rewrite Hdm at 1 by lia.
          rewrite (Z.mul_comm q). reflexivity. }
        assert (Hpe : 2 ^ E == / inject_Z (2 ^ (- E))).
        { rewrite inject_pow2, Qpower_opp, Qinv_involutive by lia. reflexivity. }
        assert (HP : 0 < inject_Z (2 ^ (- E))) by (apply inject_Z_pos, Hp).
        assert (Hr1 : 0 <= inject_Z r) by (change 0 with (inject_Z 0); rewrite <- Zle_Qle; lia).
        assert (Hr2 : inject_Z r < inject_Z (2 ^ (- E))) by (rewrite <- Zlt_Qlt; lia).
        rewrite Hq, Hpe. set (P := inject_Z (2 ^ (- E))) in *.
        split.
        * apply Qle_shift_div_l; [exact HP | lra].
        * apply Qlt_shift_div_r; [exact HP | lra].
      + exists q, 0%Z. split; [|split; [lia | cbn; ring]].
        destruct (Z.eq_dec q 0%Z) as [|Hq]; [left; assumption|right].
        assert (0 <= q)%Z by (apply Z.div_pos; lia).
        assert (q <= Zpos M)%Z by (apply Z.div_le_upper_bound; nia). lia. }
  destruct Hz as (Hfl & M0 & j & HM0 & Hj & Hzj).
  exists z. split; [|exact Hfl].
  destruct (Z.eqb_spec z 0) as [Hz0|Hz0].
  - rewrite Hz0. reflexivity.
  - destruct HM0 as [|HM0]; [contradiction|].
    destruct (number_of_Z_exact M0 j HM0 Hj) as (M' & E' & Hres & _ & _ & Hv).
    rewrite Hzj, Hres, (integral_value_fval M' E' _ Hv). reflexivity.
Qed.

Lemma inject_pow10 k : (0 <= k)%Z -> inject_Z (10 ^ k) == 10 ^ k.
Proof. intro H. rewrite Zpower_Qpower by exact H. reflexivity. Qed.

Lemma pow10_pos e : 0 < 10 ^ e.
Proof. apply Qpower_0_lt. reflexivity. Qed.

(** The number that a decimal literal denotes: the literal's value,
    rounded once. *)
Lemma number_of_decimal_value p e10 :
  (-300 <= e10)%Z ->
  let q := inject_Z (Zpos p) * 10 ^ e10 in
  q * 10 ^ 18 < 2 ^ 900 ->
  exists M E,
    number_of_decimal false (Zpos p) e10 = S754_finite false M E /\
    (2 ^ 52 <= Zpos M < 2 ^ 53)%Z /\ (-1074 <= E <= 849)%Z /\
    (exists r, fval M E == q * r /\ 1 - ulp_half <= r <= 1 + ulp_half) /\
    (representable q -> fval M E == q).
Proof.
  intros He q HX. unfold number_of_decimal.
  destruct (Z.leb_spec 0 e10) as [H0|H0].
  - assert (Hp10 : (0 < 10 ^ e10)%Z) by (apply Z.pow_pos_nonneg; lia).
    assert (HP : Zpos (p * Z.to_pos (10 ^ e10)) = (Zpos p * 10 ^ e10)%Z)
      by (rewrite Pos2Z.inj_mul, Z2Pos.id by exact Hp10; reflexivity).
    assert (HXz : (Zpos p * 10 ^ e10 < 2 ^ 900)%Z).
    { assert (H : inject_Z (Zpos p * 10 ^ e10) * 10 ^ 18 < inject_Z (2 ^ 900)).
      { rewrite inject_Z_mult, inject_pow10, inject_pow2 by lia. exact HX. }
      assert (Hle : inject_Z (Zpos p * 10 ^ e10) <= inject_Z (Zpos p * 10 ^ e10) * 10 ^ 18).
      { assert (0 <= inject_Z (Zpos p * 10 ^ e10))
          by (change 0 with (inject_Z 0); rewrite <- Zle_Qle; lia).
        change (10 ^ 18) with (1000000000000000000 # 1). lra. }
      rewrite Zlt_Qlt. lra. }
    assert (Hd : (0 < Zpos (digits2_pos (p * Z.to_pos (10 ^ e10))) <= 900)%Z).
    { apply digits2_pos_range; [lia|]. rewrite HP. lia. }
    destruct (binary_round_value false (p * Z.to_pos (10 ^ e10)) 0)
      as (M & E & Hres & HM & HE & Hr & Hexact); try lia.
    assert (Hxx : inject_Z (Zpos (p * Z.to_pos (10 ^ e10))) * 2 ^ 0 == q).
    { unfold q. rewrite HP, inject_Z_mult, inject_pow10 by exact H0.
      change (2 ^ 0) with 1. ring. }
    exists M, E. split; [exact Hres|]. split; [exact HM|]. split; [lia|]. split.
    + destruct Hr as (r & Hv & Hb). exists r. rewrite <- Hxx. split; assumption.
    + intro Hq. rewrite <- Hxx. apply Hexact.
      apply (representable_eq q); [symmetry; exact Hxx | exact Hq].
  - set (n := (- e10)%Z) in *.
    assert (Hp10 : (0 < 10 ^ n)%Z) by (apply Z.pow_pos_nonneg; unfold n; lia).
    assert (Ht : Zpos (Z.to_pos (10 ^ n)) = (10 ^ n)%Z) by (apply Z2Pos.id, Hp10).
    assert (Hd2 : (0 < Zpos (digits2_pos (Z.to_pos (10 ^ n))) <= 997)%Z).
    { apply digits2_pos_range; [lia|]. rewrite Ht. split; [lia|].
      apply Z.le_lt_trans with (10 ^ 300)%Z;
        [apply Z.pow_le_mono_r; unfold n; lia | reflexivity]. }
    pose proof (digits2_pos_bounds p) as [P1 _].
    pose proof (digits2_pos_bounds (Z.to_pos (10 ^ n))) as [_ T2]. rewrite Ht in T2.
    set (d1 := Zpos (digits2_pos p)) in *.
    set (d2 := Zpos (digits2_pos (Z.to_pos (10 ^ n)))) in *.
    assert (Hd1 : (1 <= d1)%Z) by (unfold d1; lia).
    assert (HXz : (Zpos p * 10 ^ 18 < 2 ^ 900 * 10 ^ n)%Z).
    { rewrite Zlt_Qlt, !inject_Z_mult, inject_pow2, !inject_pow10 by (unfold n; lia).
      unfold q in HX. replace e10 with (- n)%Z in HX by (unfold n; lia).
      rewrite Qpower_opp in HX. pose proof (pow10_pos n) as Hn.
      apply (Qmult_lt_r _ _ (/ 10 ^ n)); [apply Qinv_lt_0_compat, Hn|].
      assert (A1 : inject_Z (Zpos p) * 10 ^ 18 * / 10 ^ n
                   == inject_Z (Zpos p) * / 10 ^ n * 10 ^ 18) by ring.
      assert (A2 : 2 ^ 900 * 10 ^ n * / 10 ^ n == 2 ^ 900) by (field; lra).
      rewrite A1, A2. exact HX. }
    assert (Hdd : (d1 - d2 <= 900)%Z).
    { destruct (Z.le_gt_cases (d1 - d2) 900) as [|Hgt]; [assumption|exfalso].
      assert (2 ^ (900 + d2) <= 2 ^ (d1 - 1))%Z by (apply Z.pow_le_mono_r; lia).
      rewrite Z.pow_add_r in H by lia.
      assert (0 < 2 ^ 900)%Z by reflexivity.
      assert (Zpos p <= Zpos p * 10 ^ 18)%Z by lia. nia. }
    destruct (SFdiv_value p (Z.to_pos (10 ^ n)))
      as (M & E & Hres & HM & HE & Hr & Hexact); fold d1 d2; try lia.
    fold d1 d2 in HE.
    assert (Hxx : inject_Z (Zpos p) / inject_Z (Zpos (Z.to_pos (10 ^ n))) == q).
    { unfold q. rewrite Ht, inject_pow10 by (unfold n; lia).
      replace e10 with (- n)%Z by (unfold n; lia). rewrite Qpower_opp.
      pose proof (pow10_pos n). field. lra. }
    exists M, E. split; [exact Hres|]. split; [exact HM|]. split; [lia|]. split.
    + destruct Hr as (r & Hv & Hb). exists r. rewrite <- Hxx. split; assumption.
    + intro Hq. rewrite <- Hxx. apply Hexact.
      apply (representable_eq q); [symmetry; exact Hxx | exact Hq].
Qed.

Lemma number_1e18 :
  number_of_Z (10 ^ 18) = S754_finite false 7812500000000000 7.
Proof. reflexivity. Qed.

Lemma times_1e18_value M1 E1 :
  (2 ^ 52 <= Zpos M1 < 2 ^ 53)%Z -> (-1074 <= E1 <= 849)%Z ->
  let x := fval M1 E1 * 10 ^ 18 in
  exists M E,
    number_mul (S754_finite false M1 E1) (number_of_Z (10 ^ 18))
      = S754_finite false M E /\
    (Zpos M < 2 ^ 53)%Z /\ (E <= 970)%Z /\
    (exists r, fval M E == x * r /\ 1 - ulp_half <= r <= 1 + ulp_half) /\
    (representable x -> fval M E == x).
Proof.
  intros HM1 HE1 x. rewrite number_1e18. unfold number_mul.
  destruct (SFmul_value M1 E1 7812500000000000 7 HM1)
    as (M & E & Hres & HM & HE & Hr & Hexact); try lia; try (cbn; lia).
  assert (Hxx : fval M1 E1 * fval 7812500000000000 7 == x).
  { unfold x. apply Qmult_comp; reflexivity. }
  exists M, E. split; [exact Hres|]. split; [lia|]. split; [lia|]. split.
  - destruct Hr as (r & Hv & Hb). exists r. rewrite <- Hxx. split; assumption.
  - intro Hq. rewrite <- Hxx. apply Hexact.
    apply (representable_eq x); [symmetry; exact Hxx | exact Hq].
Qed.

Lemma Qfloor_unique x z : inject_Z z <= x < inject_Z z + 1 -> z = Qfloor x.
Proof.
  intros [H1 H2]. pose proof (Qfloor_le x) as F1. pose proof (Qlt_floor x) as F2.
  rewrite inject_Z_plus in F2. change (inject_Z 1) with 1 in F2.
  assert (A : inject_Z z < inject_Z (Qfloor x) + 1) by lra.
  assert (B : inject_Z (Qfloor x) < inject_Z z + 1) by lra.
  change 1 with (inject_Z 1) in A, B. rewrite <- inject_Z_plus, <- Zlt_Qlt in A, B. lia.
Qed.

(** The conversion of a decimal literal to wei: two roundings and a
    floor. *)
Lemma value_in_wei_decimal p e10 :
  (-300 <= e10)%Z ->
  let X := inject_Z (Zpos p) * 10 ^ (e10 + 18) in
  X < 2 ^ 900 ->
  exists w,
    value_in_wei (VNum (number_of_decimal false (Zpos p) e10)) = Ok w /\
    X * (1 - 2 ^ (-53)) ^ 2 - 1 < inject_Z w <= X * (1 + 2 ^ (-53)) ^ 2 /\
    (representable (inject_Z (Zpos p) * 10 ^ e10) -> representable X -> w = Qfloor X).
Proof.
  intros He X HX.
  set (q := inject_Z (Zpos p) * 10 ^ e10).
  assert (HXq : X == q * 10 ^ 18).
  { unfold X, q. rewrite Qpower_plus by discriminate. ring. }
  assert (HX' : q * 10 ^ 18 < 2 ^ 900) by (rewrite <- HXq; exact HX).
  destruct (number_of_decimal_value p e10 He HX')
    as (M1 & E1 & Hres1 & HM1 & HE1 & (r1 & Hv1 & Hb1) & Hex1).
  destruct (times_1e18_value M1 E1 HM1 HE1)
    as (M2 & E2 & Hres2 & HM2 & HE2 & (r2 & Hv2 & Hb2) & Hex2).
  destruct (floor_BigInt M2 E2 HM2 HE2) as (w & Hw & Hfl).
  fold q in Hv1, Hex1.
  assert (HXpos : 0 < X).
  { unfold X. apply Qmult_lt_0_compat; [apply inject_Z_pos; lia | apply pow10_pos]. }
  exists w. split.
  - unfold value_in_wei. rewrite Hres1. cbn [parseFloat_of]. rewrite Hres2. exact Hw.
  - assert (Hv : fval M2 E2 == X * r1 * r2).
    { rewrite Hv2, Hv1, HXq. ring. }
    split.
    + change ulp_half with (1 # 9007199254740992) in Hb1, Hb2.
      change ((1 - 2 ^ (-53)) ^ 2)
        with ((1 - (1 # 9007199254740992)) * (1 - (1 # 9007199254740992))).
      change ((1 + 2 ^ (-53)) ^ 2)
        with ((1 + (1 # 9007199254740992)) * (1 + (1 # 9007199254740992))).
      set (a := X) in *.
      assert (Hup : a * r1 * r2 <= a * (1 + (1 # 9007199254740992)) * (1 + (1 # 9007199254740992))).
      { apply Qle_trans with (a * (1 + (1 # 9007199254740992)) * r2).
        - apply Qmult_le_compat_r; [|lra]. apply Qmult_le_l; [exact HXpos | lra].
        - apply Qmult_le_l; [|lra].
          apply Qmult_lt_0_compat; [exact HXpos | reflexivity]. }
      assert (Hdn : a * (1 - (1 # 9007199254740992)) * (1 - (1 # 9007199254740992)) <= a * r1 * r2).
      { apply Qle_trans with (a * (1 - (1 # 9007199254740992)) * r2).
        - apply Qmult_le_l; [|lra].
          apply Qmult_lt_0_compat; [exact HXpos | reflexivity].
        - apply Qmult_le_compat_r; [|lra]. apply Qmult_le_l; [exact HXpos | lra]. }
      rewrite Hv in Hfl. lra.
    + intros Hq HXr.
      assert (Hx1 : fval M1 E1 == q) by (apply Hex1, Hq).
      assert (Hx2 : fval M2 E2 == X).
      { rewrite Hex2; [rewrite Hx1; symmetry; exact HXq|].
        apply (representable_eq X); [rewrite Hx1; exact HXq | exact HXr]. }
      apply Qfloor_unique. rewrite <- Hx2. exact Hfl.
Qed.

(** The conversion as the specification words it is the floor of the
    exact value. *)
Lemma spec_value_floor s m e10 :
  scanDecimal s = (ScanDecimal false m e10, EmptyString) -> (0 < m)%Z ->
  spec_value_in_wei s = Some (Qfloor (inject_Z m * 10 ^ (e10 + 18))).
Proof.
  intros Hscan Hm. unfold spec_value_in_wei. rewrite Hscan. cbn [cond_Zopp]. f_equal.
  destruct (Z.leb_spec 0 (e10 + 18)) as [H|H].
  - rewrite <- inject_pow10, <- inject_Z_mult by exact H. symmetry. apply Qfloor_Z.
  - assert (Hp : (0 < 10 ^ (- (e10 + 18)))%Z) by (apply Z.pow_pos_nonneg; lia).
    rewrite Z.quot_div_nonneg by lia.
    assert (E : inject_Z m * 10 ^ (e10 + 18)
                == m # Z.to_pos (10 ^ (- (e10 + 18)))).
    { rewrite (Qmake_Qdiv m), Z2Pos.id, inject_pow10 by lia.
      replace (e10 + 18)%Z with (- (- (e10 + 18)))%Z at 1 by ring.
      rewrite Qpower_opp. reflexivity. }
    rewrite (Qfloor_comp _ _ E). unfold Qfloor. rewrite Z2Pos.id by exact Hp. reflexivity.
Qed.

Lemma SFadd_value M1 E1 M2 E2 :
  (2 ^ 52 <= Zpos M1 < 2 ^ 53)%Z -> (2 ^ 52 <= Zpos M2 < 2 ^ 53)%Z ->
  (-1074 <= E1 <= 969)%Z -> (-1074 <= E2 <= 969)%Z ->
  let x := fval M1 E1 + fval M2 E2 in
  exists M E,
    SFadd prec emax (S754_finite false M1 E1) (S754_finite false M2 E2)
      = S754_finite false M E /\
    (2 ^ 52 <= Zpos M < 2 ^ 53)%Z /\
    (exists r, fval M E == x * r /\ 1 - ulp_half <= r <= 1 + ulp_half) /\
    (representable x -> fval M E == x).
Proof.
  intros H1 H2 HE1 HE2 x. cbn [SFadd cond_Zopp].
  set (ez := Z.min E1 E2).
  destruct (shl_align_spec M1 E1 ez) as [_ Ha].
  destruct (shl_align_spec M2 E2 ez) as [_ Hb].
  replace (Z.min E1 ez) with ez in Ha by (unfold ez; lia).
  replace (Z.min E2 ez) with ez in Hb by (unfold ez; lia).
  set (a := fst (shl_align M1 E1 ez)) in *. set (b := fst (shl_align M2 E2 ez)) in *.
  change (Zpos a + Zpos b)%Z with (Zpos (a + b)). cbn [binary_normalize].
  set (D := (Z.max E1 E2 - ez)%Z).
  assert (HD : (0 <= D)%Z) by (unfold D, ez; lia).
  assert (Hp1 : (0 < 2 ^ (E1 - ez))%Z) by (apply Z.pow_pos_nonneg; unfold ez; lia).
  assert (Hp2 : (0 < 2 ^ (E2 - ez))%Z) by (apply Z.pow_pos_nonneg; unfold ez; lia).
  assert (Hq1 : (2 ^ (E1 - ez) <= 2 ^ D)%Z) by (apply Z.pow_le_mono_r; unfold D, ez; lia).
  assert (Hq2 : (2 ^ (E2 - ez) <= 2 ^ D)%Z) by (apply Z.pow_le_mono_r; unfold D, ez; lia).
  assert (Hq3 : (2 ^ (E1 - ez) = 2 ^ D \/ 2 ^ (E2 - ez) = 2 ^ D)%Z).
  { destruct (Z.le_ge_cases E1 E2);
      [right | left]; f_equal; unfold D, ez; lia. }
  assert (Hd : (52 + D < Zpos (digits2_pos (a + b)) <= 54 + D)%Z).
  { apply digits2_pos_range; [lia|]. rewrite Pos2Z.inj_add, Ha, Hb.
    rewrite !Z.pow_add_r by lia.
    change (2 ^ 54)%Z with (2 * 2 ^ 53)%Z. nia. }
  destruct (binary_round_value false (a + b) ez)
    as (M & E & Hres & HM & HE & Hr & Hexact); try (unfold D, ez in *; lia).
  assert (Hxx : inject_Z (Zpos (a + b)) * 2 ^ ez == x).
  { unfold x, fval. rewrite Pos2Z.inj_add, inject_Z_plus, Ha, Hb, !inject_Z_mult.
    rewrite !inject_pow2 by (unfold ez; lia).
    replace E1 with (E1 - ez + ez)%Z at 2 by ring.
    replace E2 with (E2 - ez + ez)%Z at 2 by ring.
    rewrite !pow2_add. ring. }
  exists M, E. split; [exact Hres|]. split; [exact HM|]. split.
  - destruct Hr as (r & Hv & Hb'). exists r. rewrite <- Hxx. split; assumption.
  - intro Hx. rewrite <- Hxx. apply Hexact.
    apply (representable_eq x); [symmetry; exact Hxx | exact Hx].
Qed.

Lemma representable_small z : (0 < z <= 2 ^ 53)%Z -> representable (inject_Z z).
Proof.
  intro Hz. destruct (Z.eq_dec z (2 ^ 53)%Z) as [->|Hne].
  - exists (2 ^ 52)%Z, 1%Z. split; [lia | reflexivity].
  - exists z, 0%Z. split; [lia|]. change (2 ^ 0) with 1. ring.
Qed.

Lemma exponent_of_small M E z :
  (2 ^ 52 <= Zpos M < 2 ^ 53)%Z -> (0 < z <= 2 ^ 53)%Z ->
  fval M E == inject_Z z -> (-52 <= E <= 1)%Z.
Proof.
  intros HM Hz Hv. unfold fval in Hv.
  assert (H1 : inject_Z 1 <= inject_Z z) by (rewrite <- Zle_Qle; lia).
  assert (H2 : inject_Z z <= inject_Z (2 ^ 53)) by (rewrite <- Zle_Qle; lia).
  assert (H3 : inject_Z (2 ^ 52) <= inject_Z (Zpos M)) by (rewrite <- Zle_Qle; lia).
  assert (H4 : inject_Z (Zpos M) < inject_Z (2 ^ 53)) by (rewrite <- Zlt_Qlt; lia).
  pose proof (pow2_pos E) as HpE.
  change (inject_Z 1) with 1 in H1. change (inject_Z (2 ^ 53)) with (2 ^ 53) in H2, H4.
  change (inject_Z (2 ^ 52)) with (2 ^ 52) in H3.
  split.
  - destruct (Z.le_gt_cases (-52) E) as [|Hlt]; [assumption|exfalso].
    assert (Hp : 2 ^ E <= 2 ^ (-53)) by (apply pow2_le; lia).
    assert (inject_Z (Zpos M) * 2 ^ E < 2 ^ 53 * 2 ^ (-53)).
    { apply Qlt_le_trans with (2 ^ 53 * 2 ^ E).
      - apply Qmult_lt_compat_r; assumption.
      - apply Qmult_le_l; [reflexivity | exact Hp]. }
    change (2 ^ 53 * 2 ^ (-53)) with ((9007199254740992 # 1) * (1 # 9007199254740992)) in H.
    lra.
  - destruct (Z.le_gt_cases E 1) as [|Hgt]; [assumption|exfalso].
    assert (Hp : 2 ^ 2 <= 2 ^ E) by (apply pow2_le; lia).
    assert (2 ^ 52 * 2 ^ 2 <= inject_Z (Zpos M) * 2 ^ E).
    { apply Qle_trans with (2 ^ 52 * 2 ^ E).
      - apply Qmult_le_l; [reflexivity | exact Hp].
      - apply Qmult_le_compat_r; [exact H3 | lra]. }
    change (2 ^ 52 * 2 ^ 2) with (2 * 2 ^ 53) in H.
    change (2 ^ 53) with (9007199254740992 # 1) in *. lra.
Qed.

Lemma is_integer_of_Z z : (0 <= z < 2 ^ 53)%Z -> is_integer (number_of_Z z) z.
Proof.
  intro Hz. destruct (Z.eq_dec z 0%Z) as [->|Hne]; [left; split; reflexivity|].
  right. split; [lia|].
  destruct (number_of_Z_exact z 0) as (M & E & Hres & HM & _ & Hv); try lia.
  rewrite Z.mul_1_r in Hres, Hv. exists M, E. auto.
Qed.

Lemma is_integer_mul x a y b :
  is_integer x a -> is_integer y b -> (a * b <= 2 ^ 53)%Z ->
  (a <= 2 ^ 53)%Z -> (b <= 2 ^ 53)%Z ->
  is_integer (number_mul x y) (a * b).
Proof.
  intros [[-> ->]|(Ha & M1 & E1 & -> & HM1 & Hv1)] [[-> ->]|(Hb & M2 & E2 & -> & HM2 & Hv2)]
    Hab Ha' Hb'.
  - left. split; reflexivity.
  - left. split; reflexivity.
  - left. split; [ring | reflexivity].
  - right. split; [nia|].
    pose proof (exponent_of_small M1 E1 a HM1 (conj Ha Ha') Hv1).
    pose proof (exponent_of_small M2 E2 b HM2 (conj Hb Hb') Hv2).
    destruct (SFmul_value M1 E1 M2 E2 HM1 HM2)
      as (M & E & Hres & HM & _ & _ & Hexact); try lia.
    exists M, E. split; [exact Hres|]. split; [exact HM|].
    assert (Hx : fval M1 E1 * fval M2 E2 == inject_Z (a * b))
      by (rewrite Hv1, Hv2, inject_Z_mult; reflexivity).
    rewrite Hexact; [exact Hx|].
    apply (representable_eq (inject_Z (a * b))); [symmetry; exact Hx|].
    apply representable_small. nia.
Qed.

Lemma is_integer_add x a y b :
  is_integer x a -> is_integer y b -> (a + b <= 2 ^ 53)%Z ->
  is_integer (number_add x y) (a + b).
Proof.
  intros [[-> ->]|(Ha & M1 & E1 & -> & HM1 & Hv1)] [[-> ->]|(Hb & M2 & E2 & -> & HM2 & Hv2)]
    Hab.
  - left. split; reflexivity.
  - right. split; [lia|]. exists M2, E2. auto.
  - right. split; [lia|]. exists M1, E1. rewrite Z.add_0_r. auto.
  - right. split; [lia|].
    assert (Ha' : (0 < a <= 2 ^ 53)%Z) by lia.
    assert (Hb' : (0 < b <= 2 ^ 53)%Z) by lia.
    pose proof (exponent_of_small M1 E1 a HM1 Ha' Hv1).
    pose proof (exponent_of_small M2 E2 b HM2 Hb' Hv2).
    destruct (SFadd_value M1 E1 M2 E2 HM1 HM2)
      as (M & E & Hres & HM & _ & Hexact); try lia.
    exists M, E. split; [exact Hres|]. split; [exact HM|].
    assert (Hx : fval M1 E1 + fval M2 E2 == inject_Z (a + b))
      by (rewrite Hv1, Hv2, inject_Z_plus; reflexivity).
    rewrite Hexact; [exact Hx|].
    apply (representable_eq (inject_Z (a + b))); [symmetry; exact Hx|].
    apply representable_small. lia.
Qed.

Lemma is_integer_value x z : is_integer x z -> integral_value x = Some z.
Proof.
  intros [[-> ->]|(_ & M & E & -> & _ & Hv)]; [reflexivity|].
  apply integral_value_fval, Hv.
Qed.

Local Close Scope Q_scope.

(** *** Decimal literals *)

Lemma literal_char_facts c :
  isLiteralChar c = true ->
  isWhiteSpace c = false /\
  (Ascii.eqb c "x" || Ascii.eqb c "X")%bool = false /\
  (Ascii.eqb c "o" || Ascii.eqb c "O")%bool = false /\
  (Ascii.eqb c "b" || Ascii.eqb c "B")%bool = false /\
  Ascii.eqb c "t" = false /\ Ascii.eqb c "f" = false.
Proof.
  destruct c as [[] [] [] [] [] [] [] []]; vm_compute; intro H;
    first [discriminate H | repeat split].
Qed.

Lemma spanDigits_chars : forall s ds r,
  spanDigits 10 s = (ds, r) ->
  all_chars isLiteralChar r = true -> all_chars isLiteralChar s = true.
Proof.
  induction s as [|c s IH]; intros ds r H Hr; cbn [spanDigits] in H.
  - injection H as _ <-. exact Hr.
  - destruct (digitIn 10 c) as [d|] eqn:Hd.
    + destruct (spanDigits 10 s) as [ds' r'] eqn:Hs. injection H as _ <-.
      cbn [all_chars]. unfold isLiteralChar at 1. rewrite Hd. cbn [andb].
      apply (IH ds' r' eq_refl Hr).
    + injection H as _ <-. exact Hr.
Qed.

Lemma splitSign_chars s neg r :
  splitSign s = (neg, r) ->
  all_chars isLiteralChar r = true -> all_chars isLiteralChar s = true.
Proof.
  unfold splitSign. destruct s as [|c t]; [intros [= _ <-]; trivial|].
  destruct (Ascii.eqb_spec c "-") as [->|Hm].
  - intros [= _ <-] H. exact H.
  - destruct (Ascii.eqb_spec c "+") as [->|Hp].
    + intros [= _ <-] H. exact H.
    + assert (E : (match c with
                   | "-"%char => (true, t) | "+"%char => (false, t)
                   | _ => (false, String c t) end) = (false, String c t)).
      { destruct c as [[] [] [] [] [] [] [] []]; try reflexivity;
          [contradiction Hp | contradiction Hm]; reflexivity. }
      rewrite E. intros [= _ <-] H. exact H.
Qed.

Lemma scanExponent_chars s e r :
  scanExponent s = (e, r) ->
  all_chars isLiteralChar r = true -> all_chars isLiteralChar s = true.
Proof.
  unfold scanExponent. destruct s as [|c t]; [intros [= _ <-]; trivial|].
  destruct (Ascii.eqb c "e" || Ascii.eqb c "E")%bool eqn:Hc;
    [|intros [= _ <-]; trivial].
  destruct (splitSign t) as [neg r1] eqn:Hsign.
  destruct (spanDigits 10 r1) as [[|d ds] r2] eqn:Hspan; intros [= _ <-] Hr;
    [exact Hr|].
  cbn [all_chars]. apply andb_true_intro. split.
  - apply orb_prop in Hc as [Hc|Hc]; apply Ascii.eqb_eq in Hc; subst c; reflexivity.
  - apply (splitSign_chars t neg r1 Hsign), (spanDigits_chars r1 _ _ Hspan), Hr.
Qed.

(** A string that is a decimal literal from end to end is made of the
    characters of literals. *)
Lemma scanDecimal_chars s neg m e10 :
  scanDecimal s = (ScanDecimal neg m e10, EmptyString) ->
  all_chars isLiteralChar s = true.
Proof.
  unfold scanDecimal. destruct (splitSign s) as [sg r0] eqn:Hsign.
  destruct (startsWith "Infinity" r0); [discriminate|].
  destruct (spanDigits 10 r0) as [int_ds r1] eqn:Hint.
  set (fr := match r1 with
             | String "."%char r => spanDigits 10 r
             | _ => ([], r1)
             end).
  assert (Hfr : forall r2, snd fr = r2 -> all_chars isLiteralChar r2 = true ->
                           all_chars isLiteralChar r1 = true).
  { unfold fr. destruct r1 as [|c t]; [intros r2 <-; trivial|].
    destruct (Ascii.eqb_spec c ".") as [->|Hne].
    - destruct (spanDigits 10 t) as [fds r2'] eqn:Hf. intros r2 <- H.
      cbn [all_chars snd] in *. apply (spanDigits_chars t _ _ Hf), H.
    - assert (E : (match c with
                   | "."%char => spanDigits 10 t
                   | _ => ([], String c t) end) = ([], String c t)).
      { destruct c as [[] [] [] [] [] [] [] []]; try reflexivity.
        contradiction Hne; reflexivity. }
      rewrite E. intros r2 <- H. exact H. }
  destruct fr as [frac_ds r2]. specialize (Hfr r2 eq_refl).
  intro H.
  assert (Hr2 : all_chars isLiteralChar r2 = true).
  { destruct int_ds as [|d ds]; [destruct frac_ds as [|f fs]; [discriminate H|]|];
      (destruct (scanExponent r2) as [e r3] eqn:Hexp; injection H as _ _ _ ->;
       apply (scanExponent_chars r2 e _ Hexp); reflexivity). }
  apply (splitSign_chars s sg r0 Hsign), (spanDigits_chars r0 _ _ Hint), Hfr, Hr2.
Qed.

Lemma all_chars_rev_acc P : forall s acc,
  all_chars P (string_rev_acc s acc) = (all_chars P s && all_chars P acc)%bool.
Proof.
  induction s as [|c s IH]; intro acc; cbn [string_rev_acc all_chars]; [reflexivity|].
  rewrite IH. cbn [all_chars]. destruct (P c), (all_chars P s); reflexivity.
Qed.

Lemma string_rev_acc_twice : forall s a b,
  string_rev_acc (string_rev_acc s a) b = string_rev_acc a (String.append s b).
Proof.
  induction s as [|c s IH]; intros a b; cbn [string_rev_acc String.append]; [reflexivity|].
  rewrite IH. reflexivity.
Qed.

Lemma append_empty s : String.append s EmptyString = s.
Proof.
  induction s as [|c s IH]; [reflexivity|].
  change (String c (String.append s EmptyString) = String c s). rewrite IH. reflexivity.
Qed.

Lemma trimStart_literal s : all_chars isLiteralChar s = true -> trimStart s = s.
Proof.
  destruct s as [|c t]; [reflexivity|]. cbn [all_chars trimStart]. intro H.
  apply andb_prop in H as [Hc _].
  destruct (literal_char_facts c Hc) as (-> & _). reflexivity.
Qed.

Lemma trim_literal s : all_chars isLiteralChar s = true -> trim s = s.
Proof.
  intro H. unfold trim, trimEnd, string_rev. rewrite (trimStart_literal s H).
  rewrite trimStart_literal.
  - rewrite string_rev_acc_twice. cbn [string_rev_acc]. apply append_empty.
  - rewrite all_chars_rev_acc, H. reflexivity.
Qed.

Lemma nonDecimalLiteral_literal s :
  all_chars isLiteralChar s = true -> nonDecimalLiteral s = None.
Proof.
  destruct s as [|c0 [|c t]]; intro H.
  - reflexivity.
  - destruct c0 as [[] [] [] [] [] [] [] []]; reflexivity.
  - cbn [all_chars] in H. apply andb_prop in H as [_ H]. apply andb_prop in H as [Hc _].
    destruct (literal_char_facts c Hc) as (_ & Hx & Ho & Hb & _).
    destruct c0 as [[] [] [] [] [] [] [] []]; try reflexivity.
    cbn [nonDecimalLiteral]. rewrite Hx, Ho, Hb. reflexivity.
Qed.

(** [parseValue] reads a decimal literal as the number it denotes. *)
Lemma parseValue_decimal s neg m e10 :
  scanDecimal s = (ScanDecimal neg m e10, EmptyString) ->
  isNaN (number_of_decimal neg m e10) = false ->
  parseValue s = VNum (number_of_decimal neg m e10).
Proof.
  intros Hscan Hnan. pose proof (scanDecimal_chars s neg m e10 Hscan) as Hall.
  assert (Hne : s <> EmptyString) by (intros ->; discriminate Hscan).
  assert (Hnum : Number_of_string s = number_of_decimal neg m e10).
  { unfold Number_of_string. rewrite (trim_literal s Hall).
    destruct s as [|c t]; [contradiction Hne; reflexivity|].
    rewrite (nonDecimalLiteral_literal _ Hall), Hscan. reflexivity. }
  unfold parseValue.
  destruct (String.eqb_spec s "true") as [->|_]; [discriminate Hall|].
  destruct (String.eqb_spec s "false") as [->|_]; [discriminate Hall|].
  destruct (re_hex_string s) eqn:Hhex.
  - apply test_0x_hex_inv in Hhex as (r & -> & _). discriminate Hall.
  - rewrite Hnum, Hnan, (trim_literal s Hall). cbn [negb andb].
    destruct (String.eqb_spec s EmptyString) as [->|_]; [contradiction Hne; reflexivity|].
    reflexivity.
Qed.

(** *** The value v of a signature *)

Lemma is_integer_toString16 x z :
  is_integer x z -> Number_toString16 x = toString16 z.
Proof.
  intros [[-> ->]|(Hz & M & E & -> & HM & Hv)]; [reflexivity|].
  cbn [Number_toString16]. rewrite (integral_value_fval M E z Hv). reflexivity.
Qed.

(** v = chainId * 2 + 35 + recid is computed without rounding as long
    as it does not exceed 2^53. *)
Lemma v_number_exact chainId recid :
  0 <= chainId -> 0 <= recid -> chainId * 2 + 35 + recid <= 2 ^ 53 ->
  Number_toString16
    (number_add (number_add (number_mul (number_of_Z chainId) (number_of_Z 2))
                            (number_of_Z 35))
                (number_of_Z recid))
  = toString16 (chainId * 2 + 35 + recid).
Proof.
  intros Hc Hr Hv. apply is_integer_toString16.
  apply is_integer_add; [|apply is_integer_of_Z; lia | lia].
  apply is_integer_add; [|apply is_integer_of_Z; lia | lia].
  apply is_integer_mul; try lia; apply is_integer_of_Z; lia.
Qed.

(** ** The claims *)

(** C1 (integer fields are encoded minimally, zero as the empty
    string).  The encoder does not do this whenever the hex string of a
    field has an odd number of digits above one: the digits are paired
    up from the left, so nonce 256 (hex 100) is encoded as the bytes
    10 00, which denote 4096, and gas limit 100000 (hex 186a0) as
    18 6a 00.  The chain id zero is encoded as the single byte 00. *)
Theorem C1_encodeTx_odd_hex_digits :
  let to := "0x8ba1f109551bD432803012645Ac136ddd64DBA72"%string in
  let fields := encodeTx 256 1000000000 100000 to (10 ^ 16) [] 1 in
  fields !! 0%nat = Some [16; 0] /\
  be_value [16; 0] = 4096 /\
  ~ minimal_be 256 [16; 0] /\
  minimal_be 256 [1; 0] /\
  fields !! 2%nat = Some [24; 106; 0] /\
  ~ minimal_be 100000 [24; 106; 0] /\
  encodeTx 0 1000000000 21000 to (10 ^ 16) [] 0 !! 6%nat = Some [0] /\
  ~ minimal_be 0 [0].
Proof.
  cbv zeta. repeat split; try reflexivity;
    try (repeat constructor; cbn; lia);
    try (intros (Hv & _ & Hhd); first [discriminate Hv | apply Hhd; reflexivity]).
Qed.

(** C2 (replay protection), as amended: the signer computes
    v = chainId * 2 + 35 + recid in binary64, which is exact as long as
    v does not exceed 2^53.  For such a chain id and a recovery id 0 or
    1, the field of v in the signed transaction denotes v whenever the
    hex string of v has an even number of digits, and the chain id and
    the recovery id are recovered from it as (v - 35) / 2 and
    (v - 35) mod 2. *)
Theorem C2_replay_protected_v (w : entropy) (nonce gasPrice gasLimit : Z)
    (to : string) (value : Z) (data : bytes) (chainId : Z) (privateKey : bytes)
    (signature : bytes) (recid : Z) :
  ecdsaSign w (keccak256 (rlp_encode
      (encodeTx nonce gasPrice gasLimit to value data chainId))) privateKey
    = Ok (signature, recid) ->
  0 <= recid <= 1 ->
  0 <= chainId -> chainId * 2 + 35 + recid <= 2 ^ 53 ->
  Nat.even (length (hexDigits (chainId * 2 + 35 + recid))) = true ->
  exists st,
    signTransaction_steps w nonce gasPrice gasLimit to value data chainId privateKey
      = Ok st /\
    signTransaction w nonce gasPrice gasLimit to value data chainId privateKey
      = Ok (rlp_encode (sig_tx st)) /\
    let v := be_value (nth 6 (sig_tx st) []) in
    v = chainId * 2 + 35 + recid /\
    (v - 35) / 2 = chainId /\
    (v - 35) mod 2 = recid.
Proof.
  intros Hsign Hrec Hc Hsafe Heven.
  unfold signTransaction, signTransaction_steps. rewrite Hsign. cbn [bind].
  eexists. split; [reflexivity|]. split; [reflexivity|].
  cbn [sig_tx nth]. rewrite (v_number_exact chainId recid) by lia.
  destruct (encoding_minimal (chainId * 2 + 35 + recid)) as (Hv & _);
    [lia | left; exact Heven |].
  cbv zeta. rewrite Hv.
  split; [reflexivity|].
  replace (chainId * 2 + 35 + recid - 35) with (recid + chainId * 2) by ring.
  rewrite Z.div_add, Z.mod_add by lia.
  rewrite Z.div_small, Z.mod_small by lia. lia.
Qed.

(** C3 (determinism): with a signing scheme whose result depends on the
    digest and the key only, two runs on the same eight inputs end
    alike: the same signed bytes and the same transaction id, or the
    same error. *)
Theorem C3_signing_deterministic :
  (forall w w' digest key, ecdsaSign w digest key = ecdsaSign w' digest key) ->
  forall (w1 w2 : entropy) (nonce gasPrice gasLimit : Z) (to : string) (value : Z)
         (data : bytes) (chainId : Z) (privateKey : bytes),
    sign_and_hash w1 nonce gasPrice gasLimit to value data chainId privateKey
    = sign_and_hash w2 nonce gasPrice gasLimit to value data chainId privateKey.
Proof.
  intros Hdet w1 w2 nonce gasPrice gasLimit to value data chainId privateKey.
  unfold sign_and_hash, signTransaction, signTransaction_steps.
  rewrite (Hdet w1 w2). reflexivity.
Qed.

(** C4 (seed derivation): for every mnemonic and every passphrase,
    omitted and empty ones included, the seed is the 64-byte result of
    PBKDF2 with the NFKD-normalized mnemonic as password, the
    NFKD-normalized "mnemonic" + passphrase as salt, 2048 iterations
    and SHA-512; no error is raised.  PBKDF2 is assumed to return as
    many bytes as it is asked for. *)
Theorem C4_seed_derivation (mnemonic : string) (passphrase : option string) :
  (forall password salt, exists out,
      pbkdf2Sync password salt 2048 64 "sha512" = Ok out /\ length out = 64%nat) ->
  exists seed,
    mnemonicToSeedSync mnemonic passphrase = Ok seed /\
    length seed = 64%nat /\
    pbkdf2Sync (normalize_NFKD mnemonic)
               (normalize_NFKD (String.append "mnemonic" (default EmptyString passphrase)))
               2048 64 "sha512" = Ok seed.
Proof.
  intro Hkdf. unfold mnemonicToSeedSync.
  destruct (Hkdf (normalize_NFKD mnemonic)
                 (normalize_NFKD (String.append "mnemonic" (default EmptyString passphrase))))
    as (out & Hout & Hlen).
  exists out. auto.
Qed.

(** C5 (address): for a 65-byte public key, the address is the text
    0x followed by the hex digits of the last 20 bytes of the 32-byte
    hash of the 64 bytes after the prefix byte; the text matches
    ^0x[0-9a-fA-F]{40}$ and reads back as those 20 bytes. *)
Theorem C5_address_of_public_key (pubKey : bytes) :
  length pubKey = 65%nat ->
  (forall d, length (keccak_256 d) = 32%nat /\
             Forall (fun b => 0 <= b < 256) (keccak_256 d)) ->
  let coordinates := drop 1 pubKey in
  let low20 := drop 12 (keccak_256 coordinates) in
  length coordinates = 64%nat /\
  length low20 = 20%nat /\
  exists address,
    publicKeyToAddress pubKey = Ok address /\
    address = String.append "0x" (Buffer_toString_hex low20) /\
    re_hex_address address = true /\
    hexToUint8Array address = low20.
Proof.
  intros Hlen Hk. cbv zeta.
  destruct (Hk (drop 1 pubKey)) as [Hl32 Hbytes].
  assert (Hb20 : Forall (fun b => 0 <= b < 256) (drop 12 (keccak_256 (drop 1 pubKey))))
    by (apply Forall_drop, Hbytes).
  assert (Hl20 : length (drop 12 (keccak_256 (drop 1 pubKey))) = 20%nat)
    by (rewrite length_drop, Hl32; reflexivity).
  split; [rewrite length_drop, Hlen; reflexivity|].
  split; [exact Hl20|].
  eexists. split; [|split; [reflexivity|split]].
  - unfold publicKeyToAddress. rewrite Hlen. cbn [Nat.eqb negb].
    unfold subarray_last, subarray_from, keccak256. rewrite Hl32. reflexivity.
  - apply re_hex_address_hex_text; assumption.
  - apply hexToUint8Array_hex_text; assumption.
Qed.

(** C6 (wrong key length): for a byte sequence whose length is not 65
    the address function throws "Invalid public key length". *)
Theorem C6_invalid_public_key_length (pubKey : bytes) :
  length pubKey <> 65%nat ->
  publicKeyToAddress pubKey = Throw "Invalid public key length".
Proof.
  intro Hlen. unfold publicKeyToAddress.
  destruct (Nat.eqb_spec (length pubKey) 65); [contradiction | reflexivity].
Qed.

(** C7 (value in wei), as amended: the conversion is done in binary64.
    For an unsigned decimal literal with digits m and exponent e10,
    whose exact value is X = m * 10^(e10 + 18) wei, the specification
    asks for the floor of X, and the program computes
    floor (fl (fl (m * 10^e10) * 10^18)), where fl rounds to the nearest
    number.  The result w lies within two roundings of X, and below by
    less than one more for the floor:
    X (1 - 2^-53)^2 - 1 < w <= X (1 + 2^-53)^2.  It is the floor of X
    itself whenever the input and X have significands of at most 53
    bits. *)
Theorem C7_value_in_wei_rounded (s : string) (m e10 : Z) :
  scanDecimal s = (ScanDecimal false m e10, EmptyString) ->
  0 < m -> -300 <= e10 ->
  let X := (inject_Z m * 10 ^ (e10 + 18))%Q in
  (X < 2 ^ 900)%Q ->
  spec_value_in_wei s = Some (Qfloor X) /\
  exists w,
    value_in_wei (parseValue s) = Ok w /\
    (X * (1 - 2 ^ (-53)) ^ 2 - 1 < inject_Z w <= X * (1 + 2 ^ (-53)) ^ 2)%Q /\
    (representable (inject_Z m * 10 ^ e10)%Q -> representable X -> w = Qfloor X).
Proof.
  intros Hscan Hm He X HX. split; [exact (spec_value_floor s m e10 Hscan Hm)|].
  destruct m as [|p|p]; [lia| |lia].
  destruct (value_in_wei_decimal p e10 He HX) as (w & Hw & Hbounds & Hexact).
  exists w. split; [|split; [exact Hbounds | exact Hexact]].
  rewrite (parseValue_decimal s false (Zpos p) e10 Hscan); [exact Hw|].
  assert (HX' : (inject_Z (Zpos p) * 10 ^ e10 * 10 ^ 18 < 2 ^ 900)%Q).
  { unfold X in HX. rewrite Qpower_plus in HX by discriminate.
    rewrite Qmult_assoc in HX. exact HX. }
  destruct (number_of_decimal_value p e10 He HX') as (M & E & -> & _). reflexivity.
Qed.

(** C8 (fields of the signed transaction), as amended: when the signing
    library returns a 64-byte signature, the signed encoding is the RLP
    encoding of nine fields: the first six fields of the unsigned
    encoding (nonce, gasPrice, gasLimit, to, value, data), then v, r
    and s.  r and s are the two 32-byte halves of the signature, passed
    on as they are.  For a chain id that leaves
    v = chainId * 2 + 35 + recid within 2^53, the field of v is the
    minimal big-endian representation of v when the hex string of v has
    an even number of digits. *)
Theorem C8_signed_fields (w : entropy) (nonce gasPrice gasLimit : Z)
    (to : string) (value : Z) (data : bytes) (chainId : Z) (privateKey : bytes)
    (signature : bytes) (recid : Z) :
  ecdsaSign w (keccak256 (rlp_encode
      (encodeTx nonce gasPrice gasLimit to value data chainId))) privateKey
    = Ok (signature, recid) ->
  length signature = 64%nat ->
  0 <= chainId -> 0 <= recid ->
  let v := chainId * 2 + 35 + recid in
  let r := take 32 signature in
  let s := drop 32 signature in
  exists v_field,
    signTransaction w nonce gasPrice gasLimit to value data chainId privateKey
      = Ok (rlp_encode
              (take 6 (encodeTx nonce gasPrice gasLimit to value data chainId)
               ++ [v_field; r; s])) /\
    length r = 32%nat /\ length s = 32%nat /\ signature = r ++ s /\
    (v <= 2 ^ 53 -> Nat.even (length (hexDigits v)) = true -> minimal_be v v_field).
Proof.
  intros Hsign Hlen Hc Hrec. cbv zeta.
  eexists. split; [|split; [|split; [|split]]].
  - unfold signTransaction, signTransaction_steps. rewrite Hsign. cbn [bind sig_tx].
    unfold slice, encodeTx. cbn [take app]. rewrite drop_0.
    replace (64 - 32)%nat with 32%nat by reflexivity.
    replace (32 - 0)%nat with 32%nat by reflexivity.
    rewrite (take_ge (drop 32 signature)) by (rewrite length_drop; lia).
    reflexivity.
  - rewrite length_take. lia.
  - rewrite length_drop. lia.
  - symmetry. apply take_drop.
  - intros Hsafe Heven. rewrite (v_number_exact chainId recid) by lia.
    apply encoding_minimal; [lia | left; exact Heven].
Qed.

(** C9 (invalid recipient): when the --to flag of the command line is
    a string that fails ^0x[0-9a-fA-F]{40}$, or whose hex part does not
    decode to 20 bytes, the program ends without the call of
    [signTransaction]: with the help text, with an error of the key
    derivation, or with exit status 1 for missing flags or for the
    invalid address. *)
Theorem C9_invalid_to_rejected (args : list string) (r : parsed) (to : string) :
  parseArgs args = Ok r ->
  flags r !! "to" = Some (VStr to) ->
  re_hex_address to = false \/ length (Buffer_from_hex (slice_from 2 to)) <> 20%nat ->
  (forall address c, main args <> Signs address c) /\
  (main args = Exited Help \/
   (exists m, derive_account (flags r) = Throw m /\ main args = Uncaught m) \/
   main args = Exited MissingFlags \/
   main args = Exited InvalidTo).
Proof.
  intros Hparse Hto Hbad. unfold main. rewrite Hparse.
  apply wallet_invalid_to with to; assumption.
Qed.

(** C10 (hex strings stay strings): an argument that matches
    ^0x[0-9a-fA-F]+$ is returned by [parseValue] unchanged, as a
    string; so a flag given such a value, as [--key value] or as
    [--key=value], holds that string after parsing. *)
Theorem C10_parseValue_keeps_hex (v : string) :
  re_hex_string v = true ->
  parseValue v = VStr v /\
  (exists r, parseArgs ["--to"; v] = Ok r /\ flags r !! "to" = Some (VStr v)) /\
  (exists r, parseArgs [String.append "--to=" v] = Ok r /\
             flags r !! "to" = Some (VStr v)).
Proof.
  intro H. pose proof (parseValue_hex v H) as Hv.
  apply test_0x_hex_inv in H as (r & -> & Hdigits & _).
  split; [exact Hv|]. split.
  - exists (set_flag "to" (VStr (String "0" (String "x" r)))
                     {| flags := ∅; positional := Some [] |}).
    split; [|apply lookup_insert_eq].
    unfold parseArgs. cbn [parseArgs_loop].
    change (startsWith "--" "--to") with true.
    change (includes_eq (slice_from 2 "--to")) with false.
    change (slice_from 2 "--to") with "to"%string. cbv iota.
    unfold startsWith at 1. cbn [String.prefix].
    destruct (ascii_dec "-" "0") as [e|_]; [discriminate e|].
    cbn [negb]. rewrite Hv. reflexivity.
  - exists (set_flag "to" (VStr (String "0" (String "x" r)))
                     {| flags := ∅; positional := Some [] |}).
    split; [|apply lookup_insert_eq].
    unfold parseArgs.
    change (String.append "--to=" (String "0" (String "x" r)))
      with (String "-" (String "-" (String "t" (String "o" (String "="
             (String "0" (String "x" r))))))).
    cbn [parseArgs_loop].
    assert (Hp : startsWith "--" (String "-" (String "-" (String "t" (String "o"
                   (String "=" (String "0" (String "x" r))))))) = true).
    { unfold startsWith. cbn [String.prefix].
      destruct (ascii_dec "-" "-") as [_|n]; [reflexivity | contradiction n; reflexivity]. }
    rewrite Hp. cbn [slice_from].
    assert (Hi : includes_eq (String "t" (String "o" (String "="
                   (String "0" (String "x" r))))) = true) by reflexivity.
    rewrite Hi.
    assert (Hs : split_eq2 (String "t" (String "o" (String "="
                   (String "0" (String "x" r)))))
                 = ("to"%string, String "0" (String "x" r))).
    { unfold split_eq2. cbn [break_eq Ascii.eqb Bool.eqb].
      rewrite (break_eq_hex r Hdigits). reflexivity. }
    rewrite Hs, Hv. reflexivity.
Qed.

(** ** Further properties of the code *)

(** *** Definitions they speak of *)

(** The lower-case hex digits, the alphabet of [Buffer.toString("hex")]. *)
Definition isLowerHexDigit (c : ascii) : bool :=
  existsb (Ascii.eqb c) (list_ascii_of_string "0123456789abcdef").

(** What [parseValue] may store under a flag: a boolean, a string, or a
    number that is not NaN. *)
Definition flag_value_ok (v : value) : Prop :=
  match v with
  | VUndefined => False
  | VNum n => isNaN n = false
  | VBool _ | VStr _ => True
  end.

(** A number that is not below zero: a zero of either sign, a positive
    number or plus infinity (or NaN, which is no integer). *)
Definition not_negative (x : number) : Prop :=
  match x with
  | S754_infinity true | S754_finite true _ _ => False
  | _ => True
  end.

(** *** broadcastRawTx

    The function awaits three promises in a row: the [fetch] of the
    POST request that carries the raw transaction, and then
    [response.text()] or [response.json()].  What each of them gives is
    an input here; a rejection is a [Throw] with the message of the
    error (or the string form of what was thrown). *)

(** The [error] member of a JSON-RPC reply; [error_code] is the string
    form of its code. *)
Record rpc_error : Type := {
  error_message : string;
  error_code : string
}.

(** A JSON-RPC reply: [reply_error] and [reply_result] are [None] when
    the member is absent. *)
Record rpc_reply : Type := {
  reply_error : option rpc_error;
  reply_result : option string
}.

Record http_response : Type := {
  resp_ok : bool;
  resp_status : N;
  resp_statusText : string;
  resp_content_type : option string;
  resp_text : result string;
  resp_json : result rpc_reply
}.

(** [s.includes(sub)]. *)
Definition includes (sub s : string) : bool :=
  match String.index 0 sub s with Some _ => true | None => false end.

(** The body of the [try] block. *)
Definition broadcast_attempt (fetched : result http_response) : result string :=
  response <-! fetched;
  if negb (resp_ok response) then
    Throw (String.append "HTTP "
            (String.append (decimal_string (resp_status response))
              (String.append ": " (resp_statusText response))))
  else
    let json_expected :=
      match resp_content_type response with
      | Some contentType =>
          negb (String.eqb contentType "") && includes "application/json" contentType
      | None => false
      end in
    if negb json_expected then
      text <-! resp_text response;
      Throw (String.append "Expected JSON response, got: "
              (String.append (String.substring 0 200 text) "..."))
    else
      data <-! resp_json response;
      match reply_error data with
      | Some e =>
          Throw (String.append "RPC Error: "
                  (String.append (error_message e)
                    (String.append " (code: " (String.append (error_code e) ")"))))
      | None =>
          match reply_result data with
          | Some (String c txid) => Ok (String c txid)
          | _ => Throw "No result in RPC response"
          end
      end.

(** [broadcastRawTx], as a function of what the request gives: the
    [catch] wraps every error. *)
Definition broadcastRawTx (fetched : result http_response) : result string :=
  match broadcast_attempt fetched with
  | Ok txid => Ok txid
  | Throw message => Throw (String.append "Broadcast failed: " message)
  end.

(** *** Decoding of hex text *)

Lemma ToUint8_byte v : 0 <= ToUint8 v < 256.
Proof. destruct v as [n|]; cbn [ToUint8]; [apply Z.mod_pos_bound|]; lia. Qed.

Lemma hexToUint8Array_shape (hex : string) :
  let clean := if startsWith "0x" hex then slice_from 2 hex else hex in
  length (hexToUint8Array hex) = Nat.div (String.length clean + 1) 2 /\
  Forall (fun b => 0 <= b < 256) (hexToUint8Array hex).
Proof.
  cbv zeta. unfold hexToUint8Array.
  set (clean := if startsWith "0x" hex then slice_from 2 hex else hex).
  destruct (Nat.eqb_spec (String.length clean) 0) as [E|_].
  - rewrite E. split; [reflexivity | constructor].
  - split; [rewrite length_map, length_seq; reflexivity|].
    apply List.Forall_forall. intros b Hb.
    apply in_map_iff in Hb as (i & <- & _). apply ToUint8_byte.
Qed.

(** X1.  [hexToUint8Array] is total: whatever the string, hex or not,
    it returns one byte for every two characters after an optional
    [0x] (rounded up), every element is a byte, and the result is
    empty only when nothing follows the prefix. *)
Theorem hexToUint8Array_total (hex : string) :
  let clean := if startsWith "0x" hex then slice_from 2 hex else hex in
  length (hexToUint8Array hex) = Nat.div (String.length clean + 1) 2 /\
  Forall (fun b => 0 <= b < 256) (hexToUint8Array hex) /\
  (hexToUint8Array hex = [] <-> clean = EmptyString).
Proof.
  cbv zeta. destruct (hexToUint8Array_shape hex) as [Hlen Hbytes].
  split; [exact Hlen|]. split; [exact Hbytes|].
  set (clean := if startsWith "0x" hex then slice_from 2 hex else hex) in *.
  split.
  - intro E. rewrite E in Hlen. cbn [length] in Hlen.
    destruct clean as [|c t]; [reflexivity|]. cbn [String.length] in Hlen.
    assert (1 <= Nat.div (S (String.length t) + 1) 2)%nat
      by (apply Nat.div_le_lower_bound; lia).
    lia.
  - intro E. unfold hexToUint8Array. fold clean. rewrite E. reflexivity.
Qed.

Lemma hex_text_no_0x_prefix bs :
  Forall (fun b => 0 <= b < 256) bs ->
  startsWith "0x" (Buffer_toString_hex bs) = false.
Proof.
  intros [|b bs' Hb _]; [reflexivity|].
  unfold startsWith. cbn [Buffer_toString_hex String.prefix].
  destruct (ascii_dec "0" (hexChar (b / 16))); [|reflexivity].
  assert (Hm : 0 <= b mod 16 < 16) by (apply Z.mod_pos_bound; lia).
  generalize dependent (b mod 16). intros d Hd.
  nibble_cases d Hd; reflexivity.
Qed.

(** X2.  Round trip: the hex text of a byte string, with or without the
    [0x] prefix, decodes to the byte string. *)
Theorem hex_text_round_trip (bs : bytes) :
  Forall (fun b => 0 <= b < 256) bs ->
  hexToUint8Array (Buffer_toString_hex bs) = bs /\
  hexToUint8Array (String.append "0x" (Buffer_toString_hex bs)) = bs.
Proof.
  intro H. split; [|apply hexToUint8Array_hex_text, H].
  rewrite hexToUint8Array_chunks, hex_text_no_0x_prefix by exact H.
  apply chunk_bytes_toString_hex, H.
Qed.

(** X3.  The encoding of a positive integer is its minimal big-endian
    representation exactly when its hex string has an even number of
    digits or a single digit. *)
Theorem encoding_minimal_iff (n : Z) :
  0 < n ->
  (minimal_be n (hexToUint8Array (toString16 n))
   <-> Nat.even (length (hexDigits n)) = true \/ n < 16).
Proof.
  intro Hn. split.
  - intros (Hv & _). rewrite encoded_value in Hv by lia.
    destruct (Nat.even (length (hexDigits n))); [left; reflexivity|].
    right. destruct (Z.lt_ge_cases n 16) as [Hlt|Hge]; [exact Hlt|].
    assert (0 < n / 16) by (apply Z.div_str_pos; lia). lia.
  - apply encoding_minimal, Hn.
Qed.

Lemma toString16_encoding_nonempty n : hexToUint8Array (toString16 n) <> [].
Proof.
  intro E. pose proof (hexToUint8Array_shape (toString16 n)) as [Hlen _].
  rewrite E in Hlen. cbn [length] in Hlen.
  assert (Hclean : (if startsWith "0x" (toString16 n)
                    then slice_from 2 (toString16 n) else toString16 n)
                   = toString16 n /\ (1 <= String.length (toString16 n))%nat).
  { unfold toString16. destruct (Z.ltb_spec n 0) as [Hneg|Hpos].
    - split; [reflexivity | cbn [String.length]; lia].
    - destruct (hexDigits_spec n Hpos) as (_ & Hall & _ & Hne).
      rewrite hexDigits_no_0x_prefix by exact Hall. split; [reflexivity|].
      destruct (hexDigits n); [congruence|].
      unfold string_of_hexDigits. cbn [map string_of_list_ascii String.length]. lia. }
  destruct Hclean as [Hc Hpos]. rewrite Hc in Hlen.
  assert (1 <= Nat.div (String.length (toString16 n) + 1) 2)%nat
    by (apply Nat.div_le_lower_bound; lia).
  lia.
Qed.

(** X4.  Zero normalisation is exact for the four guarded fields: the
    field of nonce, gasPrice, gasLimit or value is the empty string if
    and only if the integer is zero.  The chain id field is never
    empty. *)
Theorem encodeTx_empty_fields (nonce gasPrice gasLimit : Z) (to : string)
    (value : Z) (data : bytes) (chainId : Z) :
  let fields := encodeTx nonce gasPrice gasLimit to value data chainId in
  (nth 0 fields [] = [] <-> nonce = 0) /\
  (nth 1 fields [] = [] <-> gasPrice = 0) /\
  (nth 2 fields [] = [] <-> gasLimit = 0) /\
  (nth 4 fields [] = [] <-> value = 0) /\
  nth 6 fields [] <> [].
Proof.
  cbv zeta. unfold encodeTx. cbn [nth].
  assert (guard : forall n,
            (if n =? 0 then [] else hexToUint8Array (toString16 n)) = [] <-> n = 0).
  { intro n. destruct (Z.eqb_spec n 0) as [->|Hn]; [split; reflexivity|].
    split; [intro E; destruct (toString16_encoding_nonempty n E) | contradiction]. }
  repeat split; try apply guard. apply toString16_encoding_nonempty.
Qed.

(** *** Recipients and addresses *)

Lemma hex_char_facts c d :
  digitIn 16 c = Some d ->
  0 <= d < 16 /\ isWhiteSpace c = false /\
  Ascii.eqb c "-" = false /\ Ascii.eqb c "+" = false /\
  Ascii.eqb c "x" = false /\ Ascii.eqb c "X" = false.
Proof.
  intro H. destruct c as [[] [] [] [] [] [] [] []]; try discriminate H;
    injection H as <-; repeat split;
    first [reflexivity | vm_compute; reflexivity | vm_compute; discriminate].
Qed.

Lemma parseInt16_two_chars a b :
  isWhiteSpace a = false -> Ascii.eqb a "-" = false -> Ascii.eqb a "+" = false ->
  Ascii.eqb b "x" = false -> Ascii.eqb b "X" = false ->
  parseInt16 (String a (String b EmptyString))
  = match spanDigits 16 (String a (String b EmptyString)) with
    | ([], _) => None
    | (ds, _) => Some (digitsValue 16 ds)
    end.
Proof.
  intros Hw Hm Hp Hx HX.
  destruct a as [[] [] [] [] [] [] [] []];
    try discriminate Hw; try discriminate Hm; try discriminate Hp;
    try reflexivity.
  destruct b as [[] [] [] [] [] [] [] []];
    try discriminate Hx; try discriminate HX; reflexivity.
Qed.

Lemma parseInt16_hex_pair a b h l :
  digitIn 16 a = Some h -> digitIn 16 b = Some l ->
  parseInt16 (String a (String b EmptyString)) = Some (h * 16 + l).
Proof.
  intros Ha Hb.
  destruct (hex_char_facts a h Ha) as (_ & Hw & Hm & Hp & _).
  destruct (hex_char_facts b l Hb) as (_ & _ & _ & _ & Hx & HX).
  rewrite parseInt16_two_chars by assumption.
  cbn [spanDigits]. rewrite Ha, Hb. unfold digitsValue. cbn [fold_left].
  f_equal; ring.
Qed.

(** On an even number of hex digits, of either case, [hexToUint8Array]
    and [Buffer.from(s, "hex")] decode alike. *)
Lemma chunk_bytes_Buffer_from_hex : forall s,
  forallb isHexDigit (list_ascii_of_string s) = true ->
  Nat.even (String.length s) = true ->
  chunk_bytes s = Buffer_from_hex s.
Proof.
  induction s as [| a | a b s IH] using string_pair_ind; intros Hd He.
  - reflexivity.
  - discriminate He.
  - cbn [list_ascii_of_string forallb] in Hd.
    apply andb_prop in Hd as [Ha Hd]. apply andb_prop in Hd as [Hb Hd].
    unfold isHexDigit in Ha, Hb.
    destruct (digitIn 16 a) as [h|] eqn:Eh; [|discriminate].
    destruct (digitIn 16 b) as [l|] eqn:El; [|discriminate].
    unfold chunk_bytes in *. cbn [chunk_map Buffer_from_hex].
    rewrite Eh, El, (parseInt16_hex_pair a b h l Eh El), (IH Hd He).
    cbn [ToUint8]. f_equal.
    destruct (hex_char_facts a h Eh) as (? & _). destruct (hex_char_facts b l El) as (? & _).
    apply Z.mod_small. lia.
Qed.

(** X5.  The second test of [isHexAddress], on the decoded length, never
    decides: the function is the pattern test, and it accepts exactly
    the strings made of [0x] and 40 hex digits. *)
Theorem isHexAddress_is_pattern (addr : string) :
  isHexAddress addr = re_hex_address addr /\
  (isHexAddress addr = true <->
   exists digits,
     addr = String "0" (String "x" digits) /\
     String.length digits = 40%nat /\
     forallb isHexDigit (list_ascii_of_string digits) = true).
Proof.
  split; [apply isHexAddress_pattern|].
  rewrite isHexAddress_pattern. split.
  - intro H. apply test_0x_hex_inv in H as (digits & -> & Hd & Hlen).
    exists digits. apply Nat.eqb_eq in Hlen. auto.
  - intros (digits & -> & Hlen & Hd).
    unfold re_hex_address, test_0x_hex. rewrite Hd, Hlen. reflexivity.
Qed.

(** X6.  A recipient that [isHexAddress] accepts, in lower, upper or
    mixed case, is encoded by [encodeTx] as the 20 bytes its hex digits
    denote, the bytes [Buffer.from] decodes. *)
Theorem accepted_recipient_bytes (nonce gasPrice gasLimit : Z) (to : string)
    (value : Z) (data : bytes) (chainId : Z) :
  isHexAddress to = true ->
  nth 3 (encodeTx nonce gasPrice gasLimit to value data chainId) []
    = Buffer_from_hex (slice_from 2 to) /\
  length (Buffer_from_hex (slice_from 2 to)) = 20%nat /\
  Forall (fun b => 0 <= b < 256) (Buffer_from_hex (slice_from 2 to)).
Proof.
  intro H. rewrite isHexAddress_pattern in H.
  apply test_0x_hex_inv in H as (r & -> & Hdigits & Hlen).
  apply Nat.eqb_eq in Hlen.
  assert (Hdec : hexToUint8Array (String "0" (String "x" r)) = Buffer_from_hex r).
  { rewrite hexToUint8Array_chunks, startsWith_0x. cbn [slice_from].
    apply chunk_bytes_Buffer_from_hex; [exact Hdigits | rewrite Hlen; reflexivity]. }
  unfold encodeTx. cbn [nth slice_from]. rewrite Hdec.
  split; [reflexivity|]. split.
  - rewrite Buffer_from_hex_length, Hlen by exact Hdigits. reflexivity.
  - rewrite <- Hdec. apply hexToUint8Array_shape.
Qed.

Lemma hexChar_lower d : 0 <= d < 16 -> isLowerHexDigit (hexChar d) = true.
Proof. intro H. nibble_cases d H; reflexivity. Qed.

Lemma Buffer_toString_hex_lower bs :
  Forall (fun b => 0 <= b < 256) bs ->
  forallb isLowerHexDigit (list_ascii_of_string (Buffer_toString_hex bs)) = true.
Proof.
  induction 1 as [|b bs Hb _ IH]; [reflexivity|].
  cbn [Buffer_toString_hex list_ascii_of_string forallb].
  rewrite !hexChar_lower, IH; [reflexivity| |].
  - apply Z.mod_pos_bound. lia.
  - split; [apply Z.div_pos; lia | apply Z.div_lt_upper_bound; lia].
Qed.

(** X7.  Every address [publicKeyToAddress] returns is accepted by
    [isHexAddress]; it has 42 characters and its hex digits are all
    lower case.  The hash is assumed to return 32 bytes. *)
Theorem derived_address_accepted (pubKey : bytes) (address : string) :
  (forall d, length (keccak_256 d) = 32%nat /\
             Forall (fun b => 0 <= b < 256) (keccak_256 d)) ->
  publicKeyToAddress pubKey = Ok address ->
  isHexAddress address = true /\
  String.length address = 42%nat /\
  exists digits,
    address = String "0" (String "x" digits) /\
    forallb isLowerHexDigit (list_ascii_of_string digits) = true.
Proof.
  intros Hk Haddr. unfold publicKeyToAddress in Haddr. cbv zeta in Haddr.
  destruct (negb (length pubKey =? 65)%nat); [discriminate Haddr|].
  injection Haddr as <-.
  unfold keccak256, subarray_last.
  match goal with
  | |- context [keccak_256 ?x] => destruct (Hk x) as [Hl32 Hbytes]; set (h := keccak_256 x) in *
  end.
  rewrite Hl32.
  set (low := drop (32 - 20) h).
  assert (Hb : Forall (fun b => 0 <= b < 256) low) by (apply Forall_drop, Hbytes).
  assert (Hl : length low = 20%nat) by (unfold low; rewrite length_drop, Hl32; reflexivity).
  change (String.append "0x" (Buffer_toString_hex low))
    with (String "0" (String "x" (Buffer_toString_hex low))).
  split; [|split].
  - rewrite isHexAddress_pattern.
    apply (re_hex_address_hex_text low Hb Hl).
  - cbn [String.length]. rewrite Buffer_toString_hex_length, Hl. reflexivity.
  - eexists. split; [reflexivity|]. apply Buffer_toString_hex_lower, Hb.
Qed.

(** *** The argument parser *)

(** One turn of the loop of [parseArgs]: the object after the first
    argument, with the value it may take, and the arguments still to
    read. *)
Definition parse_step (arg : string) (rest : list string) (r : parsed)
  : result parsed * list string :=
  if startsWith "--" arg then
    let key := slice_from 2 arg in
    if includes_eq key then
      (Ok (set_flag (fst (split_eq2 key)) (parseValue (snd (split_eq2 key))) r), rest)
    else
      match rest with
      | next :: rest' =>
          if negb (startsWith "-" next)
          then (Ok (set_flag key (parseValue next) r), rest')
          else (Ok (set_flag key (VBool true) r), rest)
      | [] => (Ok (set_flag key (VBool true) r), rest)
      end
  else if startsWith "-" arg && Nat.eqb (String.length arg) 2 then
    let key := slice_from 1 arg in
    match rest with
    | next :: rest' =>
        if negb (startsWith "-" next)
        then (Ok (set_flag key (parseValue next) r), rest')
        else (Ok (set_flag key (VBool true) r), rest)
    | [] => (Ok (set_flag key (VBool true) r), rest)
    end
  else (push_positional arg r, rest).

Definition push_error : string := "TypeError: result._.push is not a function".

Lemma parseArgs_loop_step arg rest r :
  parseArgs_loop (arg :: rest) r
  = bind (fst (parse_step arg rest r)) (parseArgs_loop (snd (parse_step arg rest r))).
Proof.
  unfold parse_step. cbn [parseArgs_loop].
  destruct (startsWith "--" arg).
  - destruct (includes_eq (slice_from 2 arg)).
    + destruct (split_eq2 (slice_from 2 arg)). reflexivity.
    + destruct rest as [|next rest']; [reflexivity|].
      destruct (negb (startsWith "-" next)); reflexivity.
  - destruct (startsWith "-" arg && Nat.eqb (String.length arg) 2).
    + destruct rest as [|next rest']; [reflexivity|].
      destruct (negb (startsWith "-" next)); reflexivity.
    + reflexivity.
Qed.

Lemma parse_step_shorter arg rest r :
  (length (snd (parse_step arg rest r)) <= length rest)%nat.
Proof.
  unfold parse_step.
  repeat match goal with
         | |- context [if ?c then _ else _] => destruct c
         | |- context [match ?l with [] => _ | _ :: _ => _ end] => destruct l
         end; cbn [snd length]; lia.
Qed.

(** What a turn does to the object: it sets a flag to a parsed value or
    to [true], or it pushes a positional argument. *)
Lemma parse_step_effect arg rest r :
  (exists k v, fst (parse_step arg rest r) = Ok (set_flag k v r) /\ flag_value_ok v) \/
  fst (parse_step arg rest r) = push_positional arg r.
Proof.
  assert (Hv : forall v, flag_value_ok (parseValue v)).
  { intro v. unfold parseValue.
    repeat match goal with |- context [if ?c then _ else _] => destruct c eqn:? end;
      cbn [flag_value_ok]; try exact I.
    apply andb_prop in Heqb2 as [H _]. apply negb_true_iff in H. exact H. }
  unfold parse_step.
  repeat match goal with
         | |- context [if ?c then _ else _] => destruct c
         | |- context [match ?l with [] => _ | _ :: _ => _ end] => destruct l
         end; cbn [fst];
    first [right; reflexivity
          | left; eexists; eexists; split; [reflexivity | first [apply Hv | exact I]]].
Qed.

Lemma push_positional_result arg r :
  match push_positional arg r with
  | Ok r' => flags r' = flags r /\
             exists l, positional r = Some l /\ positional r' = Some (l ++ [arg])
  | Throw m => m = push_error /\ positional r = None
  end.
Proof.
  unfold push_positional. destruct (positional r) as [l|]; [|split; reflexivity].
  split; [reflexivity|]. exists l. split; reflexivity.
Qed.

Lemma strong_list_ind {A} (P : list A -> Prop) :
  (forall l, (forall l', (length l' < length l)%nat -> P l') -> P l) -> forall l, P l.
Proof.
  intros Hstep l.
  assert (H : forall n l', (length l' < n)%nat -> P l').
  { induction n as [|n IH]; intros l' Hl; [lia|].
    apply Hstep. intros l'' Hl'. apply IH. lia. }
  apply (H (S (length l))). lia.
Qed.

Lemma startsWith_nil s : startsWith EmptyString s = true.
Proof. destruct s; reflexivity. Qed.

Lemma startsWith_cons c p b s :
  startsWith (String c p) (String b s) = Ascii.eqb c b && startsWith p s.
Proof.
  unfold startsWith. cbn [String.prefix].
  destruct (ascii_dec c b) as [->|n].
  - rewrite Ascii.eqb_refl. reflexivity.
  - apply Ascii.eqb_neq in n. rewrite n. reflexivity.
Qed.

Lemma startsWith_dash2 arg : startsWith "--" arg = true -> startsWith "-" arg = true.
Proof.
  destruct arg as [|a0 t]; [discriminate|].
  rewrite !startsWith_cons, startsWith_nil. intro H.
  apply andb_prop in H as [-> _]. reflexivity.
Qed.

Lemma includes_eq_app k v :
  includes_eq (String.append k (String "=" v)) = true.
Proof.
  induction k as [|c k IH]; [reflexivity|].
  change (Ascii.eqb c "=" || includes_eq (String.append k (String "=" v)) = true).
  rewrite IH. apply orb_true_r.
Qed.

Lemma break_eq_app k v :
  includes_eq k = false -> break_eq (String.append k (String "=" v)) = (k, v).
Proof.
  induction k as [|c k IH]; intro H; [reflexivity|].
  cbn [includes_eq] in H. apply orb_false_elim in H as [Hc Hk].
  change (break_eq (String c (String.append k (String "=" v))) = (String c k, v)).
  cbn [break_eq]. rewrite Hc, (IH Hk). reflexivity.
Qed.

Lemma break_eq_none v : includes_eq v = false -> break_eq v = (v, EmptyString).
Proof.
  induction v as [|c v IH]; intro H; [reflexivity|].
  cbn [includes_eq] in H. apply orb_false_elim in H as [Hc Hv].
  cbn [break_eq]. rewrite Hc, (IH Hv). reflexivity.
Qed.

Lemma break_eq_underscore key :
  fst (break_eq key) = "_"%string -> startsWith "_" key = true.
Proof.
  destruct key as [|c s]; [discriminate|]. cbn [break_eq].
  destruct (Ascii.eqb c "=") eqn:Hc; [discriminate|].
  destruct (break_eq s) as [a b]. cbn [fst]. intro H. injection H as -> _.
  rewrite startsWith_cons, startsWith_nil. reflexivity.
Qed.

Lemma set_flag_underscore k v r :
  k <> "_"%string -> positional (set_flag k v r) = positional r.
Proof.
  intro Hk. unfold set_flag. destruct (String.eqb k "__proto__"); [reflexivity|].
  cbn [positional]. apply String.eqb_neq in Hk. rewrite Hk. reflexivity.
Qed.

(** A turn on an argument that names no flag [_] keeps the positional
    array in place and does not throw. *)
Lemma parse_step_no_underscore arg rest r :
  startsWith "--_" arg = false -> startsWith "-_" arg = false ->
  is_Some (positional r) ->
  exists r1, fst (parse_step arg rest r) = Ok r1 /\ is_Some (positional r1).
Proof.
  intros H2 H1 Hr.
  assert (Klong : startsWith "--" arg = true ->
                  forall key, startsWith "_" key = true -> key <> slice_from 2 arg).
  { intros Hd key Hk ->. destruct arg as [|a0 [|a1 t]]; [discriminate Hd| |].
    { rewrite startsWith_cons in Hd.
      change (startsWith "-" EmptyString) with false in Hd.
      rewrite andb_false_r in Hd. discriminate Hd. }
    rewrite !startsWith_cons in Hd, H2. cbn [slice_from] in Hk.
    rewrite startsWith_nil in Hd. rewrite Hk in H2.
    apply andb_prop in Hd as [Ha0 Ha1]. rewrite Ha0 in H2.
    rewrite andb_true_r in Ha1. rewrite Ha1 in H2. discriminate H2. }
  assert (Kshort : startsWith "-" arg = true -> slice_from 1 arg <> "_"%string).
  { intros Hd E. destruct arg as [|a0 t]; [discriminate Hd|].
    cbn [slice_from] in E. subst t.
    rewrite startsWith_cons in Hd. rewrite startsWith_nil, andb_true_r in Hd.
    rewrite startsWith_cons, Hd in H1. vm_compute in H1. discriminate H1. }
  unfold parse_step.
  destruct (startsWith "--" arg) eqn:Hlong.
  - specialize (Klong eq_refl).
    assert (Hkey : slice_from 2 arg <> "_"%string)
      by (intro E; apply (Klong "_"%string); [reflexivity | congruence]).
    destruct (includes_eq (slice_from 2 arg)).
    + eexists. split; [reflexivity|]. rewrite set_flag_underscore; [exact Hr|].
      intro E. unfold split_eq2 in E.
      destruct (break_eq (slice_from 2 arg)) as [k rest0] eqn:Eb. cbn [fst] in E.
      apply (Klong (slice_from 2 arg)); [|reflexivity].
      apply break_eq_underscore. rewrite Eb. exact E.
    + destruct rest as [|next rest']; [|destruct (negb (startsWith "-" next))];
        (eexists; split; [reflexivity | rewrite set_flag_underscore; assumption]).
  - destruct (startsWith "-" arg && Nat.eqb (String.length arg) 2) eqn:Hshort.
    + apply andb_prop in Hshort as [Hd _]. specialize (Kshort Hd).
      destruct rest as [|next rest']; [|destruct (negb (startsWith "-" next))];
        (eexists; split; [reflexivity | rewrite set_flag_underscore; assumption]).
    + cbn [fst]. unfold push_positional. destruct Hr as [l Hl]. rewrite Hl.
      eexists. split; [reflexivity | eexists; reflexivity].
Qed.

(** The flag [_] is absent as long as [result._] is the array. *)
Lemma parseArgs_loop_underscore : forall l r r',
  (flags r !! "_" = None -> is_Some (positional r)) ->
  parseArgs_loop l r = Ok r' ->
  flags r' !! "_" = None -> is_Some (positional r').
Proof.
  induction l as [l IH] using strong_list_ind. intros r r' Hinv Hrun.
  destruct l as [|arg rest]; [injection Hrun as <-; exact Hinv|].
  rewrite parseArgs_loop_step in Hrun.
  pose proof (parse_step_shorter arg rest r) as Hlen.
  destruct (parse_step_effect arg rest r) as [(k & x & E & _) | E]; rewrite E in Hrun.
  - cbn [bind] in Hrun. refine (IH _ _ _ _ _ Hrun); [cbn [length]; lia|].
    unfold set_flag. destruct (String.eqb k "__proto__"); [exact Hinv|].
    cbn [flags positional]. destruct (String.eqb_spec k "_") as [->|Hk].
    + rewrite lookup_insert_eq. discriminate.
    + rewrite lookup_insert_ne by exact Hk. exact Hinv.
  - pose proof (push_positional_result arg r) as Hp.
    destruct (push_positional arg r) as [r1|m]; [|discriminate Hrun].
    cbn [bind] in Hrun. destruct Hp as (_ & l0 & _ & Hl0).
    refine (IH _ _ _ _ _ Hrun); [cbn [length]; lia|].
    intros _. rewrite Hl0. eexists. reflexivity.
Qed.

Lemma parse_step_suffix arg rest r :
  exists skipped, rest = skipped ++ snd (parse_step arg rest r).
Proof.
  unfold parse_step.
  repeat match goal with
         | |- context [if ?c then _ else _] => destruct c
         | |- context [match ?l with [] => _ | _ :: _ => _ end] => destruct l
         end; cbn [snd];
    first [exists []; reflexivity | eexists [_]; reflexivity].
Qed.

(** X8.  The only exception of [parseArgs] is the TypeError of
    [result._.push], and it needs a flag named [_]: a command line on
    which no argument starts with [--_] or [-_] is parsed without
    exception. *)
Theorem parseArgs_exceptions (args : list string) :
  (forall m, parseArgs args = Throw m -> m = push_error) /\
  (Forall (fun a => startsWith "--_" a = false /\ startsWith "-_" a = false) args ->
   exists r, parseArgs args = Ok r).
Proof.
  unfold parseArgs. generalize {| flags := ∅; positional := Some [] |} at 1 as r0.
  split.
  - revert r0. induction args as [args IH] using strong_list_ind. intros r0 m Hrun.
    destruct args as [|arg rest]; [discriminate Hrun|].
    rewrite parseArgs_loop_step in Hrun.
    pose proof (parse_step_shorter arg rest r0) as Hlen.
    assert (Hcont : forall r1, parseArgs_loop (snd (parse_step arg rest r0)) r1 = Throw m ->
                               m = push_error)
      by (intros r1; apply IH; cbn [length]; lia).
    destruct (parse_step_effect arg rest r0) as [(k & v & E & _) | E];
      rewrite E in Hrun.
    + apply (Hcont _ Hrun).
    + pose proof (push_positional_result arg r0) as Hp.
      destruct (push_positional arg r0) as [r1|m1]; cbn [bind] in Hrun.
      * apply (Hcont _ Hrun).
      * destruct Hp as [-> _]. congruence.
  - intro Hall.
    assert (Hgo : forall l r, Forall (fun a => startsWith "--_" a = false /\
                                               startsWith "-_" a = false) l ->
                              is_Some (positional r) ->
                              exists r', parseArgs_loop l r = Ok r').
    { clear. induction l as [l IH] using strong_list_ind. intros r Hall Hr.
      destruct l as [|arg rest]; [exists r; reflexivity|].
      rewrite parseArgs_loop_step. inversion_clear Hall as [|? ? [H2 H1] Hrest].
      destruct (parse_step_no_underscore arg rest r H2 H1 Hr) as (r1 & -> & Hr1).
      cbn [bind]. destruct (parse_step_suffix arg rest r) as (skipped & Hs).
      apply IH;
        [|rewrite Hs in Hrest; apply Forall_app in Hrest as [_ Hrest']; exact Hrest'
         | exact Hr1].
      pose proof (parse_step_shorter arg rest r). cbn [length]. lia. }
    apply Hgo; [exact Hall | eexists; reflexivity].
Qed.

(** X9.  Arguments none of which starts with a dash are all
    positional: they are returned in their order, and no flag is set. *)
Theorem parseArgs_positional_only (args : list string) :
  Forall (fun a => startsWith "-" a = false) args ->
  parseArgs args = Ok {| flags := ∅; positional := Some args |}.
Proof.
  intro Hall. unfold parseArgs.
  assert (Hgo : forall l before,
            Forall (fun a => startsWith "-" a = false) l ->
            parseArgs_loop l {| flags := ∅; positional := Some before |}
            = Ok {| flags := ∅; positional := Some (before ++ l) |}).
  { clear. induction l as [|arg rest IH]; intros before Hl.
    - rewrite app_nil_r. reflexivity.
    - inversion_clear Hl as [|? ? Harg Hrest]. cbn [parseArgs_loop].
      destruct (startsWith "--" arg) eqn:Hlong;
        [apply startsWith_dash2 in Hlong; congruence|].
      rewrite Harg. cbn [andb]. unfold push_positional. cbn [flags positional bind].
      rewrite (IH _ Hrest), <- app_assoc. reflexivity. }
  apply (Hgo args [] Hall).
Qed.

Lemma parse_step_app a more arg rest r :
  startsWith "-" a = true ->
  parse_step arg (rest ++ a :: more) r
  = (fst (parse_step arg rest r), snd (parse_step arg rest r) ++ a :: more).
Proof.
  intro Ha. unfold parse_step.
  destruct (startsWith "--" arg); [destruct (includes_eq (slice_from 2 arg))|
    destruct (startsWith "-" arg && Nat.eqb (String.length arg) 2)];
    try reflexivity;
    (destruct rest as [|next rest'];
     [cbn [app]; rewrite Ha; reflexivity
     | cbn [app]; destruct (negb (startsWith "-" next)); reflexivity]).
Qed.

(** An argument that starts with a dash is never taken as the value of
    the flag before it, so the arguments before it are parsed as if
    they stood alone. *)
Lemma parseArgs_loop_app a more :
  startsWith "-" a = true ->
  forall args r,
    parseArgs_loop (args ++ a :: more) r
    = bind (parseArgs_loop args r) (parseArgs_loop (a :: more)).
Proof.
  intro Ha. induction args as [args IH] using strong_list_ind. intro r.
  destruct args as [|arg rest]; [reflexivity|].
  change ((arg :: rest) ++ a :: more) with (arg :: (rest ++ a :: more)).
  rewrite !parseArgs_loop_step, parse_step_app by exact Ha. cbn [fst snd].
  destruct (fst (parse_step arg rest r)) as [r1|m]; [|reflexivity].
  cbn [bind]. apply IH.
  pose proof (parse_step_shorter arg rest r). cbn [length]. lia.
Qed.

(** X10.  A final [--key=value] wins: it sets the flag to the parsed
    value, over whatever the arguments before it gave the flag, and
    leaves the other flags as they were.  The positional arguments stay
    as they were too, unless the key is [_]: then the value takes the
    place of their array. *)
Theorem parseArgs_last_assignment (args : list string) (r0 : parsed)
    (key text : string) :
  parseArgs args = Ok r0 ->
  includes_eq key = false -> includes_eq text = false ->
  key <> "__proto__"%string ->
  exists r,
    parseArgs (args ++ [String.append "--" (String.append key (String "=" text))]) = Ok r /\
    flags r !! key = Some (parseValue text) /\
    (forall other, other <> key -> flags r !! other = flags r0 !! other) /\
    positional r = (if String.eqb key "_" then None else positional r0).
Proof.
  intros Hrun Hk Hv Hproto.
  exists (set_flag key (parseValue text) r0).
  assert (Hset : set_flag key (parseValue text) r0
                 = {| flags := <[key := parseValue text]> (flags r0);
                      positional := if String.eqb key "_" then None
                                    else positional r0 |}).
  { unfold set_flag. apply String.eqb_neq in Hproto. rewrite Hproto. reflexivity. }
  split; [|rewrite Hset; cbn [flags positional]; split; [apply lookup_insert_eq|]; split;
           [intros other Ho; apply lookup_insert_ne; congruence | reflexivity]].
  unfold parseArgs in *.
  change (String.append "--" (String.append key (String "=" text)))
    with (String "-" (String "-" (String.append key (String "=" text)))).
  rewrite parseArgs_loop_app
    by (rewrite startsWith_cons, startsWith_nil; reflexivity).
  rewrite Hrun. cbn [bind parseArgs_loop].
  rewrite !startsWith_cons, startsWith_nil. cbn [Ascii.eqb Bool.eqb andb slice_from].
  rewrite includes_eq_app. unfold split_eq2.
  rewrite (break_eq_app key text Hk), (break_eq_none text Hv). reflexivity.
Qed.

(** X11.  A token that starts with a single dash is not taken as the
    value of the flag before it: at the end of a command line,
    [--key] followed by such a token (a negative number, say) leaves
    the flag as the boolean [true]. *)
Theorem parseArgs_dash_value_is_flag (args : list string) (r0 : parsed)
    (key next : string) :
  parseArgs args = Ok r0 ->
  includes_eq key = false ->
  key <> "__proto__"%string -> key <> "_"%string ->
  flags r0 !! "_" = None ->
  startsWith "-" next = true -> startsWith "--" next = false ->
  exists r,
    parseArgs (args ++ [String.append "--" key; next]) = Ok r /\
    flags r !! key = Some (VBool true).
Proof.
  intros Hrun Hk Hproto Hus Hpos Hdash Hlong.
  assert (Hset : set_flag key (VBool true) r0
                 = {| flags := <[key := VBool true]> (flags r0);
                      positional := positional r0 |}).
  { unfold set_flag. apply String.eqb_neq in Hproto, Hus. rewrite Hproto, Hus.
    reflexivity. }
  unfold parseArgs in *.
  destruct (parseArgs_loop_underscore args {| flags := ∅; positional := Some [] |} r0
              (fun _ => ex_intro _ [] eq_refl) Hrun Hpos) as [l0 Hl0].
  change (String.append "--" key) with (String "-" (String "-" key)).
  rewrite parseArgs_loop_app
    by (rewrite startsWith_cons, startsWith_nil; reflexivity).
  rewrite Hrun. cbn [bind]. cbn [parseArgs_loop].
  rewrite !startsWith_cons, startsWith_nil. cbn [Ascii.eqb Bool.eqb andb slice_from].
  rewrite Hk, Hdash, Hlong, Hset. cbn [negb andb].
  destruct (Nat.eqb (String.length next) 2).
  - eexists. split; [reflexivity|]. unfold set_flag.
    match goal with |- context [if ?c then _ else _] => destruct c end; cbn [flags].
    + apply lookup_insert_eq.
    + rewrite lookup_insert. case_decide; [reflexivity | apply lookup_insert_eq].
  - unfold push_positional. cbn [positional]. rewrite Hl0. cbn [bind].
    eexists. split; [reflexivity|]. cbn [flags]. apply lookup_insert_eq.
Qed.

(** X12.  Every flag that [parseArgs] returns holds a boolean, a string
    or a number that is not NaN. *)
Theorem parseArgs_flag_values (args : list string) (r : parsed)
    (key : string) (v : value) :
  parseArgs args = Ok r -> flags r !! key = Some v -> flag_value_ok v.
Proof.
  unfold parseArgs. intros Hrun Hlook.
  assert (Hgo : forall l r1 r2,
            map_Forall (fun _ x => flag_value_ok x) (flags r1) ->
            parseArgs_loop l r1 = Ok r2 ->
            map_Forall (fun _ x => flag_value_ok x) (flags r2)).
  { clear. induction l as [l IH] using strong_list_ind. intros r1 r2 Hinv Hrun.
    destruct l as [|arg rest]; [injection Hrun as <-; exact Hinv|].
    rewrite parseArgs_loop_step in Hrun.
    pose proof (parse_step_shorter arg rest r1) as Hlen.
    destruct (parse_step_effect arg rest r1) as [(k & x & E & Hx) | E];
      rewrite E in Hrun.
    - cbn [bind] in Hrun. refine (IH _ _ _ _ _ Hrun); [cbn [length]; lia|].
      unfold set_flag. destruct (String.eqb k "__proto__"); [exact Hinv|].
      cbn [flags]. apply map_Forall_insert_2; assumption.
    - pose proof (push_positional_result arg r1) as Hp.
      destruct (push_positional arg r1) as [r1'|m]; [|discriminate Hrun].
      cbn [bind] in Hrun. destruct Hp as [Hf _].
      refine (IH _ _ _ _ _ Hrun); [cbn [length]; lia | rewrite Hf; exact Hinv]. }
  refine (Hgo _ _ _ _ Hrun key v Hlook). apply map_Forall_empty.
Qed.

(** *** The guards of the script *)

Lemma binary_round_aux_sign sx mx ex lx :
  match binary_round_aux prec emax sx mx ex lx with
  | S754_zero s | S754_infinity s | S754_finite s _ _ => s = sx
  | S754_nan => True
  end.
Proof.
  unfold binary_round_aux.
  destruct (shr_fexp prec emax mx ex lx) as [mrs' e'].
  destruct (shr_fexp prec emax _ e' loc_Exact) as [mrs'' e''].
  destruct (shr_m mrs''); [reflexivity | | exact I].
  destruct (Z.leb e'' (Z.sub emax prec)); reflexivity.
Qed.

Lemma binary_round_aux_not_negative mx ex lx :
  not_negative (binary_round_aux prec emax false mx ex lx).
Proof.
  pose proof (binary_round_aux_sign false mx ex lx) as H.
  destruct (binary_round_aux prec emax false mx ex lx); try exact I;
    subst; exact I.
Qed.

Lemma number_of_Z_not_negative z : 0 <= z -> not_negative (number_of_Z z).
Proof.
  intro Hz. unfold number_of_Z, binary_normalize.
  destruct z as [|p|p]; [exact I | | lia].
  unfold binary_round. destruct (shl_align p 0 _) as [mz ez].
  apply binary_round_aux_not_negative.
Qed.

Lemma guard_not_negative x :
  isNaN x = false -> number_lt x pos_zero = false -> not_negative x.
Proof. destruct x as [s|[]| |[] m e]; intros Hn Hlt; try exact I; discriminate. Qed.

Lemma Math_floor_not_negative x : not_negative x -> not_negative (Math_floor x).
Proof.
  destruct x as [s|s| |[] m e]; intro H; try exact H; [destruct H|].
  unfold Math_floor. cbn [cond_Zopp].
  set (z := if 0 <=? e then Z.pos m * 2 ^ e else Z.pos m / 2 ^ (- e)).
  assert (Hz : 0 <= z).
  { unfold z. destruct (Z.leb_spec 0 e).
    - apply Z.mul_nonneg_nonneg; [lia | apply Z.pow_nonneg; lia].
    - apply Z.div_pos; [lia | apply Z.pow_pos_nonneg; lia]. }
  destruct (z =? 0); [exact I | apply number_of_Z_not_negative, Hz].
Qed.

Lemma times_1e18_not_negative x :
  not_negative x -> not_negative (number_mul x (number_of_Z (10 ^ 18))).
Proof.
  assert (H18 : exists m e, number_of_Z (10 ^ 18) = S754_finite false m e)
    by (vm_compute; eauto).
  destruct H18 as (m18 & e18 & ->). unfold number_mul, SFmul.
  destruct x as [s|[]| |[] m e]; intro H; try exact I; try destruct H.
  apply binary_round_aux_not_negative.
Qed.

Lemma integral_value_not_negative x w :
  not_negative x -> integral_value x = Some w -> 0 <= w.
Proof.
  destruct x as [s|s| |[] m e]; intros H Hw; try destruct H; try discriminate Hw.
  - injection Hw as <-. lia.
  - cbn [integral_value cond_Zopp] in Hw.
    destruct (Z.leb_spec 0 e).
    + injection Hw as <-. apply Z.mul_nonneg_nonneg; [lia | apply Z.pow_nonneg; lia].
    + destruct (Z.pos m mod 2 ^ (- e) =? 0); [|discriminate Hw].
      injection Hw as <-. apply Z.div_pos; [lia | apply Z.pow_pos_nonneg; lia].
Qed.

(** A value that passes the guard on [--value] is converted to a
    non-negative number of wei. *)
Lemma value_in_wei_not_negative v w :
  isNaN (parseFloat_of v) = false ->
  number_lt (parseFloat_of v) pos_zero = false ->
  value_in_wei v = Ok w -> 0 <= w.
Proof.
  intros Hn Hlt Hw. unfold value_in_wei, BigInt_of_number in Hw.
  destruct (integral_value _) as [z|] eqn:Hz; [|discriminate Hw].
  injection Hw as <-.
  refine (integral_value_not_negative _ _ _ Hz).
  apply Math_floor_not_negative, times_1e18_not_negative, guard_not_negative; assumption.
Qed.

(** X13.  What the script signs has passed every guard: when it reaches
    the call of [signTransaction], the recipient is the [--to] string
    and is accepted by [isHexAddress], the value is the conversion of
    [--value] and is not negative, the nonce is the [--nonce] number, a
    non-negative integer, the data is empty, the key and the address
    are the derived ones, and an [--rpc] flag holds a valid URL.  A gas
    price, gas limit or chain id flag that is absent or falsy (the
    number zero included) is replaced by the default 1000000000, 21000
    or 1. *)
Theorem wallet_signs_validated (argv : gmap string value) (address : string)
    (c : sign_call) :
  wallet argv = Signs address c ->
  derive_account argv = Ok (call_privateKey c, address) /\
  get argv "to" = VStr (call_to c) /\
  isHexAddress (call_to c) = true /\
  value_in_wei (get argv "value") = Ok (call_value c) /\
  0 <= call_value c /\
  get argv "nonce" = VNum (call_nonce c) /\
  (exists n, integral_value (call_nonce c) = Some n /\ 0 <= n) /\
  call_data c = [] /\
  (truthy (get argv "rpc") = true -> URL_valid (get argv "rpc") = true) /\
  (if truthy (get argv "gasPrice")
   then BigInt_of (get argv "gasPrice") = Ok (call_gasPrice c)
   else call_gasPrice c = 1000000000) /\
  (if truthy (get argv "gasLimit")
   then BigInt_of (get argv "gasLimit") = Ok (call_gasLimit c)
   else call_gasLimit c = 21000) /\
  (if truthy (get argv "chainId")
   then call_chainId c = Number_of (get argv "chainId")
   else call_chainId c = number_of_Z 1).
Proof.
  unfold wallet. intro H.
  destruct (truthy (get argv "help") || truthy (get argv "--help")); [discriminate H|].
  destruct (derive_account argv) as [[privateKey addr]|m]; [|discriminate H].
  destruct (negb (truthy (get argv "to")) || negb (truthy (get argv "value"))
            || negb (is_number (get argv "nonce"))) eqn:Hflags; [discriminate H|].
  destruct (negb (isHexAddress_of (get argv "to"))) eqn:Hto; [discriminate H|].
  destruct (isNaN (parseFloat_of (get argv "value"))
            || number_lt (parseFloat_of (get argv "value")) pos_zero) eqn:Hval;
    [discriminate H|].
  destruct (negb (Number_isInteger (Number_of (get argv "nonce")))
            || number_lt (Number_of (get argv "nonce")) pos_zero) eqn:Hnonce;
    [discriminate H|].
  destruct (truthy (get argv "rpc") && negb (URL_valid (get argv "rpc"))) eqn:Hrpc;
    [discriminate H|].
  apply orb_false_elim in Hflags as [_ Hnum]. apply negb_false_iff in Hnum.
  apply negb_false_iff in Hto.
  apply orb_false_elim in Hval as [Hnan Hneg].
  apply orb_false_elim in Hnonce as [Hint Hnneg]. apply negb_false_iff in Hint.
  destruct (get argv "to") as [| | |to] eqn:Eto; try discriminate H; try discriminate Hto.
  destruct (get argv "nonce") as [| |n|] eqn:En; try discriminate Hnum.
  cbn [Number_of] in *. cbn [isHexAddress_of] in Hto.
  destruct (prepare_call argv to privateKey) as [c'|m] eqn:Hc; [|discriminate H].
  injection H as <- <-.
  unfold prepare_call in Hc.
  destruct (value_in_wei (get argv "value")) as [w|] eqn:Hw; [|discriminate Hc].
  cbn [bind] in Hc.
  destruct (if truthy (get argv "gasPrice") then BigInt_of (get argv "gasPrice")
            else Ok 1000000000) as [gp|] eqn:Hgp; [|discriminate Hc].
  cbn [bind] in Hc.
  destruct (if truthy (get argv "gasLimit") then BigInt_of (get argv "gasLimit")
            else Ok 21000) as [gl|] eqn:Hgl; [|discriminate Hc].
  cbn [bind] in Hc. injection Hc as <-. rewrite En.
  cbn [call_privateKey call_to call_value call_nonce call_data Number_of
       call_gasPrice call_gasLimit call_chainId].
  split; [reflexivity|]. split; [reflexivity|]. split; [exact Hto|].
  split; [reflexivity|]. split; [|split; [reflexivity|split; [|split; [reflexivity|]]]].
  - apply (value_in_wei_not_negative _ _ Hnan Hneg Hw).
  - unfold Number_isInteger in Hint.
    destruct (integral_value n) as [k|] eqn:Hk; [|discriminate Hint].
    exists k. split; [reflexivity|].
    apply (integral_value_not_negative n k); [|exact Hk].
    apply guard_not_negative; [|exact Hnneg].
    destruct n; try reflexivity. discriminate Hk.
  - split; [|split; [|split]].
    + intro Ht. rewrite Ht in Hrpc. cbn [andb] in Hrpc.
      apply negb_false_iff in Hrpc. exact Hrpc.
    + destruct (truthy (get argv "gasPrice")); [exact Hgp | congruence].
    + destruct (truthy (get argv "gasLimit")); [exact Hgl | congruence].
    + destruct (truthy (get argv "chainId")); reflexivity.
Qed.

Lemma wallet_falsy_value (argv : gmap string value) :
  truthy (get argv "value") = false ->
  wallet argv = Exited Help \/
  (exists m, derive_account argv = Throw m /\ wallet argv = Uncaught m) \/
  wallet argv = Exited MissingFlags.
Proof.
  intro Hv. unfold wallet.
  destruct (truthy (get argv "help") || truthy (get argv "--help")); [left; reflexivity|].
  destruct (derive_account argv) as [[privateKey addr]|m].
  - rewrite Hv. cbn [negb]. rewrite orb_true_r. cbn [orb].
    right. right. reflexivity.
  - right. left. exists m. split; reflexivity.
Qed.

(** X14.  A value that parses to the number zero counts as a missing
    flag: the program signs nothing and reports the missing flags, not
    an invalid value. *)
Theorem zero_value_is_missing_flag (args : list string) (r : parsed) (s : bool) :
  parseArgs args = Ok r ->
  flags r !! "value" = Some (VNum (S754_zero s)) ->
  main args = Exited Help \/
  (exists m, derive_account (flags r) = Throw m /\ main args = Uncaught m) \/
  main args = Exited MissingFlags.
Proof.
  intros Hparse Hv. unfold main. rewrite Hparse.
  apply wallet_falsy_value. unfold get. rewrite Hv. reflexivity.
Qed.

(** X15.  An infinite value is not caught by the guard on [--value]:
    the script never reports it as an invalid value, and never signs
    it (past the other guards, [BigInt] throws on it). *)
Theorem infinite_value_not_reported (argv : gmap string value) :
  parseFloat_of (get argv "value") = S754_infinity false ->
  wallet argv <> Exited InvalidValue /\
  (forall address c, wallet argv <> Signs address c).
Proof.
  intro Hinf.
  assert (Hwei : exists m, value_in_wei (get argv "value") = Throw m).
  { unfold value_in_wei. rewrite Hinf. vm_compute. eauto. }
  destruct Hwei as (mw & Hwei).
  assert (Hcases : wallet argv = Exited Help \/ (exists m, wallet argv = Uncaught m) \/
                   wallet argv = Exited MissingFlags \/ wallet argv = Exited InvalidTo \/
                   wallet argv = Exited InvalidNonce \/ wallet argv = Exited InvalidRpc).
  { unfold wallet. rewrite Hinf. cbn [isNaN orb].
    change (number_lt (S754_infinity false) pos_zero) with false. cbv iota.
    unfold prepare_call. rewrite Hwei. cbn [bind].
    repeat match goal with
           | |- context [if ?b then _ else _] => destruct b; auto 10
           | |- context [match ?x with _ => _ end] => destruct x; eauto 10
           end. }
  split.
  - intro E. rewrite E in Hcases.
    destruct Hcases as [H|[(m & H)|[H|[H|[H|H]]]]]; discriminate H.
  - intros a c E. rewrite E in Hcases.
    destruct Hcases as [H|[(m & H)|[H|[H|[H|H]]]]]; discriminate H.
Qed.

(** *** The field of v *)

Lemma digitsValue_upper ds :
  Forall (fun d => 0 <= d < 16) ds ->
  0 <= digitsValue 16 ds < 16 ^ Z.of_nat (length ds).
Proof.
  induction 1 as [|d ds Hd _ IH]; [unfold digitsValue; cbn; lia|].
  rewrite digitsValue_cons.
  replace (Z.of_nat (length (d :: ds))) with (Z.succ (Z.of_nat (length ds)))
    by (cbn [length]; lia).
  rewrite Z.pow_succ_r by lia.
  assert (0 < 16 ^ Z.of_nat (length ds)) by (apply Z.pow_pos_nonneg; lia).
  nia.
Qed.

(** The number of hex digits of [n] is the [k + 1] with
    [16^k <= n < 16^(k+1)]. *)
Lemma hexDigits_length n (k : nat) :
  16 ^ Z.of_nat k <= n < 16 ^ Z.of_nat (S k) -> length (hexDigits n) = S k.
Proof.
  intros [Hlo Hhi].
  assert (Hn : 0 < n) by (pose proof (Z.pow_pos_nonneg 16 (Z.of_nat k)); lia).
  destruct (hexDigits_spec n ltac:(lia)) as (Hv & Hall & Hhd & Hne).
  destruct (hexDigits n) as [|d ds]; [congruence|].
  cbn [hd] in Hhd. specialize (Hhd Hn).
  inversion_clear Hall as [|? ? Hd Hds].
  rewrite digitsValue_cons in Hv. pose proof (digitsValue_upper ds Hds) as Hup.
  set (len := length ds) in *. cbn [length]. f_equal.
  assert (Hp : 0 < 16 ^ Z.of_nat len) by (apply Z.pow_pos_nonneg; lia).
  assert (Hlow : 16 ^ Z.of_nat len <= n) by nia.
  assert (Hupp : n < 16 ^ Z.of_nat (S len)).
  { replace (Z.of_nat (S len)) with (Z.succ (Z.of_nat len)) by lia.
    rewrite Z.pow_succ_r by lia. nia. }
  destruct (Nat.lt_trichotomy len k) as [Hlt | [Heq | Hgt]]; [|exact Heq|].
  - assert (16 ^ Z.of_nat (S len) <= 16 ^ Z.of_nat k)
      by (apply Z.pow_le_mono_r; lia). lia.
  - assert (16 ^ Z.of_nat (S k) <= 16 ^ Z.of_nat len)
      by (apply Z.pow_le_mono_r; lia). lia.
Qed.

Lemma one_byte_encoding n :
  16 <= n < 256 -> hexToUint8Array (toString16 n) = [n].
Proof.
  intro Hn. rewrite hexToUint8Array_toString16 by lia.
  pose proof (hexDigits_length n 1 ltac:(change (16 ^ Z.of_nat 1) with 16;
                                         change (16 ^ Z.of_nat 2) with 256; lia)) as Hlen.
  destruct (hexDigits_spec n ltac:(lia)) as (Hv & _).
  destruct (hexDigits n) as [|a [|b [|? ?]]]; try discriminate Hlen.
  unfold digitsValue in Hv. cbn [fold_left] in Hv. cbn [pair_up].
  f_equal. lia.
Qed.

(** X17.  The field of v in the signed transaction, by chain id: for a
    chain id up to 109 it is the single byte v; for a chain id from 111
    to 2029, where v has three hex digits, it denotes another integer
    than v. *)
Theorem signed_v_field_by_chain (w : entropy) (nonce gasPrice gasLimit : Z)
    (to : string) (value : Z) (data : bytes) (chainId : Z) (privateKey : bytes)
    (signature : bytes) (recid : Z) :
  ecdsaSign w (keccak256 (rlp_encode
      (encodeTx nonce gasPrice gasLimit to value data chainId))) privateKey
    = Ok (signature, recid) ->
  0 <= recid <= 1 ->
  exists st,
    signTransaction_steps w nonce gasPrice gasLimit to value data chainId privateKey
      = Ok st /\
    (0 <= chainId <= 109 -> nth 6 (sig_tx st) [] = [chainId * 2 + 35 + recid]) /\
    (111 <= chainId <= 2029 ->
     be_value (nth 6 (sig_tx st) []) <> chainId * 2 + 35 + recid).
Proof.
  intros Hsign Hrec. unfold signTransaction_steps. rewrite Hsign. cbn [bind].
  eexists. split; [reflexivity|]. cbn [sig_tx nth]. split.
  - intro Hc. rewrite v_number_exact by lia. apply one_byte_encoding. lia.
  - intro Hc. rewrite v_number_exact by lia. apply encoding_odd_digits; [lia|].
    rewrite (hexDigits_length _ 2); [reflexivity|].
    change (16 ^ Z.of_nat 2) with 256. change (16 ^ Z.of_nat 3) with 4096. lia.
Qed.

(** *** Broadcast *)

Lemma startsWith_append p s : startsWith p (String.append p s) = true.
Proof.
  induction p as [|c p IH]; [apply startsWith_nil|].
  change (String.append (String c p) s) with (String c (String.append p s)).
  rewrite startsWith_cons, Ascii.eqb_refl. exact IH.
Qed.

(** X16.  [broadcastRawTx] returns a transaction id exactly when the
    request succeeds, the response is ok, its content type includes
    application/json, the reply parses, carries no error and has a
    non-empty result: the id is that result.  An error member wins over
    a result.  Every failure message starts with "Broadcast failed: ". *)
Theorem broadcastRawTx_outcomes (fetched : result http_response) :
  (forall txid,
     broadcastRawTx fetched = Ok txid <->
     exists response contentType data,
       fetched = Ok response /\ resp_ok response = true /\
       resp_content_type response = Some contentType /\
       includes "application/json" contentType = true /\
       resp_json response = Ok data /\
       reply_error data = None /\
       reply_result data = Some txid /\ txid <> EmptyString) /\
  (forall message,
     broadcastRawTx fetched = Throw message ->
     startsWith "Broadcast failed: " message = true).
Proof.
  split.
  - intro txid. unfold broadcastRawTx, broadcast_attempt. split.
    + intro H. destruct fetched as [response|m]; [|discriminate H]. cbn [bind] in H.
      destruct (resp_ok response) eqn:Hok; [|discriminate H]. cbn [negb] in H.
      destruct (resp_content_type response) as [ct|] eqn:Hct;
        [|destruct (resp_text response); discriminate H].
      destruct (includes "application/json" ct) eqn:Hinc;
        [|rewrite andb_false_r in H; destruct (resp_text response); discriminate H].
      destruct (negb (String.eqb ct "")); cbn [andb negb] in H;
        [|destruct (resp_text response); discriminate H].
      destruct (resp_json response) as [data|m] eqn:Hjson; [|discriminate H].
      cbn [bind] in H.
      destruct (reply_error data) eqn:Herr; [discriminate H|].
      destruct (reply_result data) as [[|c t]|] eqn:Hres; try discriminate H.
      injection H as <-.
      exists response, ct, data. repeat split; try assumption. discriminate.
    + intros (response & ct & data & -> & Hok & Hct & Hinc & Hjson & Herr & Hres & Hne).
      cbn [bind]. rewrite Hok, Hct, Hinc, Hjson. cbn [negb bind].
      assert (Hct' : String.eqb ct "" = false).
      { destruct ct; [discriminate Hinc | reflexivity]. }
      rewrite Hct'. cbn [negb andb bind]. rewrite Herr, Hres.
      destruct txid; [contradiction | reflexivity].
  - intros message H. unfold broadcastRawTx in H.
    destruct (broadcast_attempt fetched); [discriminate H|].
    injection H as <-. apply startsWith_append.
Qed.

End Wallet.

(** ** The claims at concrete inputs *)

Local Open Scope Z_scope.

(** C2, as stated, fails for a chain id above 2^52: for the chain id
    2^52 + 1 the field of v denotes 2^53 + 36 whatever the recovery id,
    where chainId * 2 + 35 + recid is 2^53 + 37 or 2^53 + 38, and the
    chain id read back from it is 2^52. *)
Lemma C2_counterexample :
  let chainId := 2 ^ 52 + 1 in
  let sign (recid : Z) :=
    fun (_ : unit) (digest key : bytes) => Ok (digest ++ take 32 key, recid) in
  let v_field (recid : Z) :=
    match signTransaction_steps Sample.keccak Sample.rlp unit (sign recid) tt
            0 1000000000 21000 Sample.recipient (10 ^ 16) [] chainId Sample.key with
    | Ok st => nth 6 (sig_tx st) []
    | Throw _ => []
    end in
  be_value (v_field 0) = 2 ^ 53 + 36 /\
  be_value (v_field 1) = 2 ^ 53 + 36 /\
  be_value (v_field 0) <> chainId * 2 + 35 + 0 /\
  be_value (v_field 1) <> chainId * 2 + 35 + 1 /\
  (be_value (v_field 0) - 35) / 2 <> chainId.
Proof. vm_compute. repeat split; first [reflexivity | discriminate]. Qed.

Lemma C2_witness :
  exists st,
    signTransaction_steps Sample.keccak Sample.rlp unit Sample.sign tt
      0 1000000000 21000 Sample.recipient (10 ^ 16) [] 1 Sample.key = Ok st /\
    signTransaction Sample.keccak Sample.rlp unit Sample.sign tt
      0 1000000000 21000 Sample.recipient (10 ^ 16) [] 1 Sample.key
      = Ok (Sample.rlp (sig_tx st)) /\
    let v := be_value (nth 6 (sig_tx st) []) in
    v = 1 * 2 + 35 + 0 /\
    (v - 35) / 2 = 1 /\
    (v - 35) mod 2 = 0.
Proof.
  apply (C2_replay_protected_v Sample.keccak Sample.rlp unit Sample.sign tt
           0 1000000000 21000 Sample.recipient (10 ^ 16) [] 1 Sample.key
           (repeat 34 32 ++ repeat 1 32) 0).
  - reflexivity.
  - lia.
  - lia.
  - vm_compute. discriminate.
  - reflexivity.
Defined.

Lemma C3_witness :
  sign_and_hash Sample.keccak Sample.rlp unit Sample.sign tt
    0 1000000000 21000 Sample.recipient (10 ^ 16) [] 1 Sample.key
  = sign_and_hash Sample.keccak Sample.rlp unit Sample.sign tt
    0 1000000000 21000 Sample.recipient (10 ^ 16) [] 1 Sample.key.
Proof.
  apply (C3_signing_deterministic Sample.keccak Sample.rlp unit Sample.sign).
  intros w w' digest k. reflexivity.
Defined.

Lemma C4_witness :
  exists seed,
    mnemonicToSeedSync Sample.normalize Sample.pbkdf2 MNEMONIC (Some EmptyString) = Ok seed /\
    length seed = 64%nat /\
    Sample.pbkdf2 (Sample.normalize MNEMONIC)
      (Sample.normalize (String.append "mnemonic" (default EmptyString (Some EmptyString))))
      2048 64 "sha512" = Ok seed.
Proof.
  apply (C4_seed_derivation Sample.normalize Sample.pbkdf2 MNEMONIC (Some EmptyString)).
  intros password salt. eexists. split; [reflexivity|].
  apply repeat_length.
Defined.

Lemma C5_witness :
  let pubKey := 4 :: repeat 7 64 in
  let coordinates := drop 1 pubKey in
  let low20 := drop 12 (Sample.keccak coordinates) in
  length coordinates = 64%nat /\
  length low20 = 20%nat /\
  exists address,
    publicKeyToAddress Sample.keccak pubKey = Ok address /\
    address = String.append "0x" (Buffer_toString_hex low20) /\
    re_hex_address address = true /\
    hexToUint8Array address = low20.
Proof.
  apply (C5_address_of_public_key Sample.keccak (4 :: repeat 7 64)).
  - reflexivity.
  - intro d. split; [apply repeat_length|].
    apply List.Forall_forall. intros b Hb. apply repeat_spec in Hb. subst b.
    apply Z.mod_pos_bound. lia.
Defined.

Lemma C6_witness :
  publicKeyToAddress Sample.keccak (repeat 7 64) = Throw "Invalid public key length".
Proof.
  apply (C6_invalid_public_key_length Sample.keccak (repeat 7 64)).
  vm_compute. discriminate.
Defined.

(** C7, as stated, fails: 1.1 units are converted to
    1100000000000000128 wei, and 1.1 * 10^18 is 1100000000000000000. *)
Lemma C7_counterexample :
  value_in_wei (parseValue "1.1") = Ok 1100000000000000128 /\
  spec_value_in_wei "1.1" = Some 1100000000000000000 /\
  value_in_wei (parseValue "1.1") <> Ok 1100000000000000000.
Proof. vm_compute. repeat split; discriminate. Qed.

(** A hundred-millionth of a unit three times over: the product is
    29999999999.999996, and the floor makes it one wei less than the
    exact 30000000000. *)
Lemma C7_witness :
  let X := (inject_Z 3 * 10 ^ (-8 + 18))%Q in
  spec_value_in_wei "0.00000003" = Some (Qfloor X) /\
  exists w,
    value_in_wei (parseValue "0.00000003") = Ok w /\
    (X * (1 - 2 ^ (-53)) ^ 2 - 1 < inject_Z w <= X * (1 + 2 ^ (-53)) ^ 2)%Q /\
    (representable (inject_Z 3 * 10 ^ (-8))%Q -> representable X -> w = Qfloor X).
Proof.
  apply (C7_value_in_wei_rounded "0.00000003" 3 (-8)).
  - reflexivity.
  - lia.
  - lia.
  - vm_compute. reflexivity.
Defined.

Example value_in_wei_floor :
  value_in_wei (parseValue "0.00000003") = Ok 29999999999 /\
  value_in_wei (parseValue "0.5") = Ok (5 * 10 ^ 17) /\
  value_in_wei (parseValue "2362") = Ok (2362 * 10 ^ 18) /\
  value_in_wei (parseValue "2363") = Ok (2363 * 10 ^ 18 + 262144) /\
  value_in_wei (parseValue "0.0000019073486328125") = Ok 1907348632812 /\
  spec_value_in_wei "0.0000019073486328125" = Some 1907348632812.
Proof. vm_compute. repeat split; reflexivity. Qed.

(** C8, as stated, fails: the signed list is not the seven fields of
    the unsigned encoding with v, r, s appended.  It has nine fields,
    and the seventh is v (here 37, for chain id 1) where the unsigned
    encoding has the chain id. *)
Lemma C8_counterexample :
  match signTransaction_steps Sample.keccak Sample.rlp unit Sample.sign tt
          0 1000000000 21000 Sample.recipient (10 ^ 16) [] 1 Sample.key with
  | Ok st =>
      length (sig_tx st) = 9%nat /\
      sig_tx st !! 6%nat = Some [37] /\
      encodeTx 0 1000000000 21000 Sample.recipient (10 ^ 16) [] 1 !! 6%nat = Some [1] /\
      sig_tx st <>
        take 7 (encodeTx 0 1000000000 21000 Sample.recipient (10 ^ 16) [] 1)
        ++ [[37]; sig_r st; sig_s st]
  | Throw _ => False
  end.
Proof. vm_compute. repeat split; discriminate. Qed.

Lemma C8_witness :
  let v := 1 * 2 + 35 + 0 in
  let signature := repeat 34 32 ++ repeat 1 32 in
  let r := take 32 signature in
  let s := drop 32 signature in
  exists v_field,
    signTransaction Sample.keccak Sample.rlp unit Sample.sign tt
        0 1000000000 21000 Sample.recipient (10 ^ 16) [] 1 Sample.key
      = Ok (Sample.rlp
              (take 6 (encodeTx 0 1000000000 21000 Sample.recipient (10 ^ 16) [] 1)
               ++ [v_field; r; s])) /\
    length r = 32%nat /\ length s = 32%nat /\ signature = r ++ s /\
    (v <= 2 ^ 53 -> Nat.even (length (hexDigits v)) = true -> minimal_be v v_field).
Proof.
  apply (C8_signed_fields Sample.keccak Sample.rlp unit Sample.sign tt
           0 1000000000 21000 Sample.recipient (10 ^ 16) [] 1 Sample.key
           (repeat 34 32 ++ repeat 1 32) 0).
  - reflexivity.
  - reflexivity.
  - lia.
  - lia.
Defined.

Lemma C9_witness :
  let args := ["--to"; "0x1234"; "--value"; "1"; "--nonce"; "0"] in
  let argv : gmap string value :=
    <["nonce" := VNum pos_zero]> (<["value" := VNum (number_of_Z 1)]>
      (<["to" := VStr "0x1234"]> ∅)) in
  let run := main Sample.normalize Sample.pbkdf2 Sample.derive Sample.ecdh
                  Sample.keccak Sample.url in
  (forall address c, run args <> Signs address c) /\
  (run args = Exited Help \/
   (exists m,
      derive_account Sample.normalize Sample.pbkdf2 Sample.derive Sample.ecdh
        Sample.keccak argv = Throw m /\
      run args = Uncaught m) \/
   run args = Exited MissingFlags \/
   run args = Exited InvalidTo).
Proof.
  intros args argv run.
  refine (C9_invalid_to_rejected Sample.normalize Sample.pbkdf2 Sample.derive
            Sample.ecdh Sample.keccak Sample.url
            args {| flags := argv; positional := Some [] |} "0x1234" _ _ _).
  - vm_compute. reflexivity.
  - reflexivity.
  - left. reflexivity.
Defined.

Lemma C10_witness :
  parseValue Sample.recipient = VStr Sample.recipient /\
  (exists r, parseArgs ["--to"; Sample.recipient] = Ok r /\
             flags r !! "to" = Some (VStr Sample.recipient)) /\
  (exists r, parseArgs [String.append "--to=" Sample.recipient] = Ok r /\
             flags r !! "to" = Some (VStr Sample.recipient)).
Proof. apply (C10_parseValue_keeps_hex Sample.recipient). reflexivity. Defined.

(** A command line that passes every guard reaches the call, with the
    value converted to wei and the defaults filled in. *)
Example main_reaches_signing :
  match main Sample.normalize Sample.pbkdf2 Sample.derive Sample.ecdh Sample.keccak
             Sample.url
             ["--to"; Sample.recipient; "--value"; "0.05"; "--nonce"; "1"] with
  | Signs _ c =>
      call_to c = Sample.recipient /\
      call_value c = 5 * 10 ^ 16 /\
      integral_value (call_nonce c) = Some 1 /\
      call_gasPrice c = 1000000000 /\
      call_gasLimit c = 21000 /\
      integral_value (call_chainId c) = Some 1 /\
      call_data c = []
  | _ => False
  end.
Proof. vm_compute. repeat split; reflexivity. Qed.

(** The signed list carries the same bytes for the nonce, and for
    chain id 137 the value v = 309 (hex 135) is encoded as 13 05. *)
Example signed_fields_odd_hex_digits :
  match signTransaction_steps Sample.keccak Sample.rlp unit Sample.sign tt
          256 1000000000 21000 Sample.recipient (10 ^ 16) [] 137 Sample.key with
  | Ok st =>
      sig_tx st !! 0%nat = Some [16; 0] /\
      sig_tx st !! 6%nat = Some [19; 5] /\
      be_value [19; 5] = 4869
  | Throw _ => False
  end.
Proof. vm_compute. repeat split; reflexivity. Qed.

(** ** The further properties at concrete inputs *)

Lemma hex_text_round_trip_witness :
  hexToUint8Array (Buffer_toString_hex [0; 171; 255]) = [0; 171; 255] /\
  hexToUint8Array (String.append "0x" (Buffer_toString_hex [0; 171; 255])) = [0; 171; 255].
Proof.
  apply (hex_text_round_trip [0; 171; 255]).
  repeat constructor; lia.
Defined.

Lemma encoding_minimal_iff_witness :
  minimal_be 21000 (hexToUint8Array (toString16 21000))
  <-> Nat.even (length (hexDigits 21000)) = true \/ 21000 < 16.
Proof. apply (encoding_minimal_iff 21000). lia. Defined.

Lemma accepted_recipient_bytes_witness :
  nth 3 (encodeTx 0 1000000000 21000 Sample.recipient (10 ^ 16) [] 1) []
    = Buffer_from_hex (slice_from 2 Sample.recipient) /\
  length (Buffer_from_hex (slice_from 2 Sample.recipient)) = 20%nat /\
  Forall (fun b => 0 <= b < 256) (Buffer_from_hex (slice_from 2 Sample.recipient)).
Proof.
  apply (accepted_recipient_bytes 0 1000000000 21000 Sample.recipient (10 ^ 16) [] 1).
  reflexivity.
Defined.

Lemma derived_address_accepted_witness :
  let address := "0x4040404040404040404040404040404040404040"%string in
  isHexAddress address = true /\
  String.length address = 42%nat /\
  exists digits,
    address = String "0" (String "x" digits) /\
    forallb isLowerHexDigit (list_ascii_of_string digits) = true.
Proof.
  apply (derived_address_accepted Sample.keccak (4 :: repeat 7 64)).
  - intro d. split; [apply repeat_length|].
    apply List.Forall_forall. intros b Hb. apply repeat_spec in Hb. subst b.
    apply Z.mod_pos_bound. lia.
  - reflexivity.
Defined.

Lemma parseArgs_exceptions_witness :
  push_error = push_error /\ exists r, parseArgs ["in.txt"; "--nonce"; "7"; "-h"] = Ok r.
Proof.
  split.
  - apply (proj1 (parseArgs_exceptions ["--_=1"; "stray"]) push_error). reflexivity.
  - apply (proj2 (parseArgs_exceptions ["in.txt"; "--nonce"; "7"; "-h"])).
    repeat constructor.
Defined.

Lemma parseArgs_positional_only_witness :
  parseArgs ["send"; "0.5"; "now"]
  = Ok {| flags := ∅; positional := Some ["send"; "0.5"; "now"] |}.
Proof.
  apply (parseArgs_positional_only ["send"; "0.5"; "now"]).
  repeat constructor.
Defined.

Lemma parseArgs_last_assignment_witness :
  exists r,
    parseArgs (["out"] ++ [String.append "--" (String.append "_" (String "=" "1"))])
      = Ok r /\
    flags r !! "_" = Some (parseValue "1") /\
    (forall other, other <> "_"%string ->
       flags r !! other = flags {| flags := ∅; positional := Some ["out"] |} !! other) /\
    positional r = None.
Proof.
  apply (parseArgs_last_assignment ["out"] {| flags := ∅; positional := Some ["out"] |}
           "_" "1").
  - reflexivity.
  - reflexivity.
  - reflexivity.
  - discriminate.
Defined.

Lemma parseArgs_dash_value_is_flag_witness :
  exists r,
    parseArgs (["--to"; Sample.recipient] ++ [String.append "--" "value"; "-5"]) = Ok r /\
    flags r !! "value" = Some (VBool true).
Proof.
  apply (parseArgs_dash_value_is_flag ["--to"; Sample.recipient]
           {| flags := <["to" := VStr Sample.recipient]> ∅; positional := Some [] |}
           "value" "-5").
  - vm_compute. reflexivity.
  - reflexivity.
  - discriminate.
  - discriminate.
  - reflexivity.
  - reflexivity.
  - reflexivity.
Defined.

Lemma parseArgs_flag_values_witness : flag_value_ok (VNum (number_of_Z 7)).
Proof.
  apply (parseArgs_flag_values ["--nonce"; "7"]
           {| flags := <["nonce" := VNum (number_of_Z 7)]> ∅; positional := Some [] |}
           "nonce").
  - vm_compute. reflexivity.
  - reflexivity.
Defined.

Lemma wallet_signs_validated_witness :
  let argv : gmap string value :=
    <["nonce" := VNum (number_of_Z 1)]> (<["value" := VNum (parseFloat "0.05")]>
      (<["to" := VStr Sample.recipient]> ∅)) in
  exists address c,
    wallet Sample.normalize Sample.pbkdf2 Sample.derive Sample.ecdh Sample.keccak
           Sample.url argv = Signs address c /\
    (derive_account Sample.normalize Sample.pbkdf2 Sample.derive Sample.ecdh
                    Sample.keccak argv = Ok (call_privateKey c, address) /\
     get argv "to" = VStr (call_to c) /\
     isHexAddress (call_to c) = true /\
     value_in_wei (get argv "value") = Ok (call_value c) /\
     0 <= call_value c /\
     get argv "nonce" = VNum (call_nonce c) /\
     (exists n, integral_value (call_nonce c) = Some n /\ 0 <= n) /\
     call_data c = [] /\
     (truthy (get argv "rpc") = true -> Sample.url (get argv "rpc") = true) /\
     (if truthy (get argv "gasPrice")
      then BigInt_of (get argv "gasPrice") = Ok (call_gasPrice c)
      else call_gasPrice c = 1000000000) /\
     (if truthy (get argv "gasLimit")
      then BigInt_of (get argv "gasLimit") = Ok (call_gasLimit c)
      else call_gasLimit c = 21000) /\
     (if truthy (get argv "chainId")
      then call_chainId c = Number_of (get argv "chainId")
      else call_chainId c = number_of_Z 1)).
Proof.
  intro argv. eexists. eexists. split.
  - vm_compute. reflexivity.
  - apply (wallet_signs_validated Sample.normalize Sample.pbkdf2 Sample.derive
             Sample.ecdh Sample.keccak Sample.url argv).
    vm_compute. reflexivity.
Defined.

Lemma zero_value_is_missing_flag_witness :
  let args := ["--to"; Sample.recipient; "--value"; "0"; "--nonce"; "0"] in
  let argv : gmap string value :=
    <["nonce" := VNum pos_zero]> (<["value" := VNum pos_zero]>
      (<["to" := VStr Sample.recipient]> ∅)) in
  let run := main Sample.normalize Sample.pbkdf2 Sample.derive Sample.ecdh
                  Sample.keccak Sample.url in
  run args = Exited Help \/
  (exists m,
     derive_account Sample.normalize Sample.pbkdf2 Sample.derive Sample.ecdh
                    Sample.keccak argv = Throw m /\
     run args = Uncaught m) \/
  run args = Exited MissingFlags.
Proof.
  intros args argv run.
  refine (zero_value_is_missing_flag Sample.normalize Sample.pbkdf2 Sample.derive
            Sample.ecdh Sample.keccak Sample.url
            args {| flags := argv; positional := Some [] |} false _ _).
  - vm_compute. reflexivity.
  - reflexivity.
Defined.

Lemma infinite_value_not_reported_witness :
  let argv : gmap string value :=
    <["nonce" := VNum pos_zero]> (<["value" := parseValue "Infinity"]>
      (<["to" := VStr Sample.recipient]> ∅)) in
  wallet Sample.normalize Sample.pbkdf2 Sample.derive Sample.ecdh Sample.keccak
         Sample.url argv <> Exited InvalidValue /\
  (forall address c,
     wallet Sample.normalize Sample.pbkdf2 Sample.derive Sample.ecdh Sample.keccak
            Sample.url argv <> Signs address c).
Proof.
  intro argv.
  apply (infinite_value_not_reported Sample.normalize Sample.pbkdf2 Sample.derive
           Sample.ecdh Sample.keccak Sample.url argv).
  vm_compute. reflexivity.
Defined.

Lemma broadcastRawTx_outcomes_witness :
  let response :=
    {| resp_ok := true; resp_status := 200; resp_statusText := "OK";
       resp_content_type := Some "application/json; charset=utf-8"%string;
       resp_text := Ok EmptyString;
       resp_json := Ok {| reply_error := None; reply_result := Some "0xabc"%string |} |} in
  broadcastRawTx (Ok response) = Ok "0xabc"%string /\
  startsWith "Broadcast failed: " "Broadcast failed: fetch failed" = true.
Proof.
  intro response. split.
  - apply (proj1 (broadcastRawTx_outcomes (Ok response)) "0xabc"%string).
    exists response, "application/json; charset=utf-8"%string,
      {| reply_error := None; reply_result := Some "0xabc"%string |}.
    repeat split; try reflexivity. discriminate.
  - apply (proj2 (broadcastRawTx_outcomes (Throw "fetch failed"))). reflexivity.
Defined.

(** An infinite value on the command line ends in the uncaught
    RangeError of [BigInt]. *)
Example infinite_value_uncaught :
  main Sample.normalize Sample.pbkdf2 Sample.derive Sample.ecdh Sample.keccak Sample.url
       ["--to"; Sample.recipient; "--value"; "Infinity"; "--nonce"; "0"]
  = Uncaught "RangeError: the number cannot be converted to a BigInt because it is not an integer".
Proof. vm_compute. reflexivity. Qed.

Lemma signed_v_field_by_chain_witness :
  exists st,
    signTransaction_steps Sample.keccak Sample.rlp unit Sample.sign tt
      0 1000000000 21000 Sample.recipient (10 ^ 16) [] 1 Sample.key = Ok st /\
    (0 <= 1 <= 109 -> nth 6 (sig_tx st) [] = [1 * 2 + 35 + 0]) /\
    (111 <= 1 <= 2029 -> be_value (nth 6 (sig_tx st) []) <> 1 * 2 + 35 + 0).
Proof.
  apply (signed_v_field_by_chain Sample.keccak Sample.rlp unit Sample.sign tt
           0 1000000000 21000 Sample.recipient (10 ^ 16) [] 1 Sample.key
           (repeat 34 32 ++ repeat 1 32) 0).
  - reflexivity.
  - lia.
Defined.
